(** * perf_timer: scope timing, event log codec, replay and aggregation

    A shallow embedding of [perf_timer.py].  Where only the flow of
    control and of data matters, clock readings and durations are
    rationals: every finite Python float is a rational number, and the
    arithmetic is taken exactly.  Where the value of a duration matters,
    the scope stack is modelled again with binary64 floats and their
    rounding (module [Binary64]).  Integers of the event log are [Z].
    Dictionaries are [gmap]s, lists and deques are [list]s, objects that
    are shared between the caller and a stack live in a store of cells. *)

From Stdlib Require Import QArith ZArith Lia Lqa Floats.
From stdpp Require Import gmap strings list fin_maps.

Set Warnings "-register-all,-inexact-float".

Local Open Scope Q_scope.

(** ** Exceptions and results *)

Inductive exn : Set :=
  | KeyError
  | IndexError
  | AttributeError
  | UnboundLocalError
  | StructError
  | UnicodeError
  | SystemExit.

Inductive result (A : Type) : Type :=
  | Ok (a : A)
  | Raise (e : exn).

Arguments Ok {A} a.
Arguments Raise {A} e.

Definition rbind {A B} (r : result A) (k : A -> result B) : result B :=
  match r with
  | Ok a => k a
  | Raise e => Raise e
  end.

Notation "x <~ r ;; k" := (rbind r (fun x => k))
  (at level 100, r at next level, right associativity).

(** [l[-(k+1)]] of Python, [None] where Python raises [IndexError]. *)
Definition peek {A} (k : nat) (l : list A) : option A := reverse l !! k.

Lemma peek_top {A} (l : list A) (x : A) : peek 0 (l ++ [x]) = Some x.
Proof. unfold peek. by rewrite reverse_snoc. Qed.

Lemma peek_second {A} (l : list A) (x y : A) :
  peek 1 (l ++ [x; y]) = Some x.
Proof.
  unfold peek. change [x; y] with ([x] ++ [y]).
  by rewrite app_assoc, !reverse_snoc.
Qed.

Lemma peek_top_inv {A} (l : list A) (x : A) :
  peek 0 l = Some x -> exists l', l = l' ++ [x].
Proof.
  unfold peek. intros H. exists (reverse (tail (reverse l))).
  destruct (reverse l) as [|y r] eqn:E; [discriminate|].
  simpl in H. injection H as ->. simpl.
  rewrite <- reverse_cons, <- E. by rewrite reverse_involutive.
Qed.

(** In-place update of the object at [l[-(k+1)]]. *)
Definition mutate {A} (k : nat) (f : A -> A) (l : list A) : list A :=
  reverse (alter f k (reverse l)).

(** [l.pop()] of Python: the list without its last element. *)
Definition pop {A} (l : list A) : result (list A) :=
  match l with
  | [] => Raise IndexError
  | _ :: _ => Ok (removelast l)
  end.

Lemma pop_snoc {A} (l : list A) (x : A) : pop (l ++ [x]) = Ok l.
Proof.
  unfold pop. rewrite removelast_last. by destruct l.
Qed.

(** ** Data model *)

(** The attributes [__init__] gives a [PerfTimer]. *)
Record PerfTimer : Type := mkTimer {
  frame : option Z;
  blockName : string;
  incstart : Q;
  excstart : Q;
  exclusive : Q;
  inclusive : Q;
  scopeName : string;
  threadId : Z
}.

Definition set_scopeName (t : PerfTimer) (s : string) : PerfTimer :=
  mkTimer (frame t) (blockName t) (incstart t) (excstart t)
          (exclusive t) (inclusive t) s (threadId t).

Definition set_exclusive (t : PerfTimer) (x : Q) : PerfTimer :=
  mkTimer (frame t) (blockName t) (incstart t) (excstart t)
          x (inclusive t) (scopeName t) (threadId t).

Definition set_inclusive (t : PerfTimer) (x : Q) : PerfTimer :=
  mkTimer (frame t) (blockName t) (incstart t) (excstart t)
          (exclusive t) x (scopeName t) (threadId t).

Definition set_excstart (t : PerfTimer) (x : Q) : PerfTimer :=
  mkTimer (frame t) (blockName t) (incstart t) x
          (exclusive t) (inclusive t) (scopeName t) (threadId t).

Definition set_incstart (t : PerfTimer) (x : Q) : PerfTimer :=
  mkTimer (frame t) (blockName t) x (excstart t)
          (exclusive t) (inclusive t) (scopeName t) (threadId t).

(** The 7-tuple appended to [perfQueue]:
    [(scopeName, inclusive, exclusive, threadId, frame, incstart, now)]. *)
Record Completed : Type := mkCompleted {
  ce_scope : string;
  ce_inclusive : Q;
  ce_exclusive : Q;
  ce_thread : Z;
  ce_frame : option Z;
  ce_start : Q;
  ce_end : Q
}.

(** The 4-tuple appended to [annotations]: [(txt, threadId, frame, now)]. *)
Record Annotation : Type := mkAnnotation {
  an_text : string;
  an_thread : Z;
  an_frame : option Z;
  an_time : Q
}.

Definition completed_of (t : PerfTimer) (now : Q) : Completed :=
  mkCompleted (scopeName t) (inclusive t) (exclusive t) (threadId t)
              (frame t) (incstart t) now.

(** ** The live scope stack *)

Module Live.

(** The process state the instrumentation touches.  [objects] is the
    store of [PerfTimer] instances, addressed by position; a cell is
    [None] for an instance built while [_collecting] was false, which has
    none of the attributes.  [perfStack] holds, per thread, the [stack]
    attribute of the thread-local object; a thread without the attribute
    has no entry. *)
Record State : Type := mkState {
  _collecting : bool;
  objects : list (option PerfTimer);
  perfStack : gmap Z (list nat);
  perfQueue : list Completed;
  annotations : list Annotation
}.

Definition initial : State := mkState true [] ∅ [] [].

Definition cell (objs : list (option PerfTimer)) (i : nat) : option PerfTimer :=
  mjoin (objs !! i).

Definition EnablePerfTracking (st : State) (enable : bool) : State :=
  mkState enable (objects st) (perfStack st) (perfQueue st) (annotations st).

Definition DisablePerfTracking (st : State) : State :=
  EnablePerfTracking st false.

(** [PerfTimer(blockName, frame)] on thread [tid]: the new instance and
    the state that holds it. *)
Definition __init__ (st : State) (tid : Z) (name : string) (fr : option Z)
  : State * nat :=
  let obj :=
    if _collecting st
    then Some (mkTimer fr name 0 0 0 0 name tid)
    else None in
  (mkState (_collecting st) (objects st ++ [obj]) (perfStack st)
           (perfQueue st) (annotations st),
   length (objects st)).

(** The [try] block of [__enter__]: the store after it, and the stack it
    built, or [None] when an exception sent control to the handler.  The
    update of [prev.exclusive] is kept when a later line raises. *)
Definition enter_try (st : State) (tid : Z) (self : nat) (now : Q)
  : list (option PerfTimer) * option (list nat) :=
  match perfStack st !! tid with
  | None => (objects st, None)
  | Some stk =>
    match peek 0 stk with
    | None => (objects st, None)
    | Some p =>
      match cell (objects st) p with
      | None => (objects st, None)
      | Some prev =>
        let prev' := set_exclusive prev (exclusive prev + (now - excstart prev)) in
        let objs1 := <[p := Some prev']> (objects st) in
        match cell objs1 self with
        | None => (objs1, None)
        | Some me =>
          let me' := set_scopeName me (scopeName prev' ++ "::" ++ blockName me) in
          (<[self := Some me']> objs1, Some (stk ++ [self]))
        end
      end
    end
  end.

(** [self.__enter__()] on thread [tid], with [time.time()] returning
    [now].  A bare [except] catches whatever the [try] block raises.  On
    an instance without attributes the two assignments after the handler
    create [incstart] and [excstart] only; every later use of such an
    instance reads [exclusive] first and raises, so they are not kept. *)
Definition __enter__ (st : State) (tid : Z) (self : nat) (now : Q) : result State :=
  if _collecting st then
    let '(objs1, pushed) := enter_try st tid self now in
    let stk := default [self] pushed in
    let objs2 :=
      match cell objs1 self with
      | Some me => <[self := Some (set_excstart (set_incstart me now) now)]> objs1
      | None => objs1
      end in
    Ok (mkState (_collecting st) objs2 (<[tid := stk]> (perfStack st))
                (perfQueue st) (annotations st))
  else Ok st.

(** [self.__exit__(...)] on thread [tid], with [time.time()] returning
    [now].  It works on [self], whatever the stack holds, and pops the
    top of the stack last. *)
Definition __exit__ (st : State) (tid : Z) (self : nat) (now : Q) : result State :=
  if _collecting st then
    let objs1 :=
      match perfStack st !! tid ≫= peek 1 with
      | Some q =>
        match cell (objects st) q with
        | Some prev => <[q := Some (set_excstart prev now)]> (objects st)
        | None => objects st
        end
      | None => objects st
      end in
    match cell objs1 self with
    | None => Raise AttributeError
    | Some me =>
      let me1 := set_exclusive me (exclusive me + (now - excstart me)) in
      let me2 := set_inclusive me1 (now - incstart me1) in
      match perfStack st !! tid with
      | None => Raise AttributeError
      | Some stk =>
        stk' <~ pop stk ;;
        Ok (mkState (_collecting st) (<[self := Some me2]> objs1)
                    (<[tid := stk']> (perfStack st))
                    (perfQueue st ++ [completed_of me2 now])
                    (annotations st))
      end
    end
  else Ok st.

Definition Note (st : State) (tid : Z) (txt : string) (fr : option Z) (now : Q)
  : result State :=
  if _collecting st then
    Ok (mkState (_collecting st) (objects st) (perfStack st) (perfQueue st)
                (annotations st ++ [mkAnnotation txt tid fr now]))
  else Ok st.

(** A region of code timed by [with PerfTimer(name, frame): body], with
    the two clock readings its [__enter__] and [__exit__] observe; the
    body is the sequence of regions timed inside it. *)
Inductive Block : Type :=
  | With (name : string) (fr : option Z) (tEnter : Q) (body : list Block) (tExit : Q).

Definition tEnter_of (b : Block) : Q := match b with With _ _ t _ _ => t end.
Definition tExit_of (b : Block) : Q := match b with With _ _ _ _ t => t end.
Definition body_of (b : Block) : list Block := match b with With _ _ _ c _ => c end.

Section Exec.
Context (exec_block : State -> Z -> Block -> result State).

(** The statements of a body, one after the other. *)
Fixpoint exec_body (st : State) (tid : Z) (cs : list Block) : result State :=
  match cs with
  | [] => Ok st
  | c :: cs' => st' <~ exec_block st tid c ;; exec_body st' tid cs'
  end.

End Exec.

(** The [with] statement: construct, enter, run the body, exit.  Only
    [__exit__] can raise, and in a region run by this statement from a
    state whose references are valid it does not (lemma
    [exec_block_emits] below), so the unwinding of the enclosing [with]
    statements after an exception is not spelled out. *)
Fixpoint exec_block (st : State) (tid : Z) (b : Block) : result State :=
  match b with
  | With name fr t0 body t1 =>
    let '(st1, self) := __init__ st tid name fr in
    st2 <~ __enter__ st1 tid self t0 ;;
    st3 <~ exec_body exec_block st2 tid body ;;
    __exit__ st3 tid self t1
  end.

Definition run (st : State) (tid : Z) (cs : list Block) : result State :=
  exec_body exec_block st tid cs.

Lemma exec_block_unfold st tid name fr t0 body t1 :
  exec_block st tid (With name fr t0 body t1) =
  let '(st1, self) := __init__ st tid name fr in
  st2 <~ __enter__ st1 tid self t0 ;;
  st3 <~ exec_body exec_block st2 tid body ;;
  __exit__ st3 tid self t1.
Proof. reflexivity. Qed.

End Live.

Example nested_AB :
  Live.perfQueue <$>
    (match Live.exec_block Live.initial 7
             (Live.With "A" None 100 [Live.With "B" None 120 [] 180] 220) with
     | Ok st => Some st | Raise _ => None end)
  = Some [mkCompleted "A::B" 60 60 7 None 120 180;
          mkCompleted "A" 120 60 7 None 100 220].
Proof. vm_compute. reflexivity. Qed.

(** One instance entered again while it is open, which no [with]
    statement over a new [PerfTimer] does: the second [__enter__] charges
    the instance as the parent and then restarts it as the child. *)
Example entered_twice :
  Live.perfQueue <$>
    (match (let '(st0, t) := Live.__init__ Live.initial 7 "x" None in
            st1 <~ Live.__enter__ st0 7 t 0 ;;
            st2 <~ Live.__enter__ st1 7 t 5 ;;
            Live.__exit__ st2 7 t 6) with
     | Ok st => Some st | Raise _ => None end)
  = Some [mkCompleted "x::x" 1 5 7 None 5 6].
Proof. vm_compute. reflexivity. Qed.

(** ** Facts about single calls of the live scope stack *)

Module LiveFacts.
Import Live.

Lemma cell_Some objs i t : cell objs i = Some t <-> objs !! i = Some (Some t).
Proof.
  unfold cell. destruct (objs !! i) as [[u|]|]; simpl; split; congruence.
Qed.

Lemma cell_lt objs i t : cell objs i = Some t -> (i < length objs)%nat.
Proof. intros H%cell_Some. by eapply lookup_lt_Some. Qed.

Lemma cell_insert_eq objs i v :
  (i < length objs)%nat -> cell (<[i:=v]> objs) i = v.
Proof. intros H. unfold cell. by rewrite list_lookup_insert_eq. Qed.

Lemma cell_insert_ne objs i j v :
  i <> j -> cell (<[i:=v]> objs) j = cell objs j.
Proof. intros H. unfold cell. by rewrite list_lookup_insert_ne. Qed.

(** The innermost open region of a thread, when it has one with
    attributes: the [prev] of [__enter__]. *)
Definition parent_of (st : State) (tid : Z) : option PerfTimer :=
  match perfStack st !! tid with
  | Some stk =>
    match peek 0 stk with
    | Some p => cell (objects st) p
    | None => None
    end
  | None => None
  end.

Definition charged (tp : PerfTimer) (now : Q) : PerfTimer :=
  set_exclusive tp (exclusive tp + (now - excstart tp)).

Definition started (me : PerfTimer) (now : Q) : PerfTimer :=
  set_excstart (set_incstart me now) now.

Definition finished (me : PerfTimer) (now : Q) : PerfTimer :=
  set_inclusive (charged me now) (now - incstart me).

Lemma enter_nested st tid self now s p tp me :
  _collecting st = true ->
  perfStack st !! tid = Some (s ++ [p]) ->
  cell (objects st) p = Some tp ->
  cell (objects st) self = Some me ->
  p <> self ->
  __enter__ st tid self now =
  Ok (mkState true
        (<[self := Some (started (set_scopeName me (scopeName tp ++ "::" ++ blockName me)) now)]>
           (<[p := Some (charged tp now)]> (objects st)))
        (<[tid := (s ++ [p]) ++ [self]]> (perfStack st))
        (perfQueue st) (annotations st)).
Proof.
  intros Hc Hs Hp Hme Hne.
  unfold __enter__, enter_try. rewrite Hc, Hs, peek_top, Hp.
  rewrite cell_insert_ne, Hme by done.
  rewrite cell_insert_eq
    by (rewrite length_insert; by eapply cell_lt).
  simpl. by rewrite list_insert_insert_eq.
Qed.

Lemma enter_root st tid self now me :
  _collecting st = true ->
  parent_of st tid = None ->
  cell (objects st) self = Some me ->
  __enter__ st tid self now =
  Ok (mkState true
        (<[self := Some (started me now)]> (objects st))
        (<[tid := [self]]> (perfStack st))
        (perfQueue st) (annotations st)).
Proof.
  intros Hc Hp Hme. unfold parent_of in Hp.
  unfold __enter__, enter_try. rewrite Hc.
  destruct (perfStack st !! tid) as [stk|]; simpl in Hp.
  - destruct (peek 0 stk) as [p|]; simpl in Hp.
    + rewrite Hp. by rewrite Hme.
    + by rewrite Hme.
  - by rewrite Hme.
Qed.

Lemma exit_nested st tid self now s p tp me :
  _collecting st = true ->
  perfStack st !! tid = Some (s ++ [p; self]) ->
  cell (objects st) p = Some tp ->
  cell (objects st) self = Some me ->
  p <> self ->
  __exit__ st tid self now =
  Ok (mkState true
        (<[self := Some (finished me now)]>
           (<[p := Some (set_excstart tp now)]> (objects st)))
        (<[tid := s ++ [p]]> (perfStack st))
        (perfQueue st ++ [completed_of (finished me now) now])
        (annotations st)).
Proof.
  intros Hc Hs Hp Hme Hne.
  unfold __exit__. rewrite Hc, Hs. simpl. rewrite peek_second, Hp.
  rewrite cell_insert_ne, Hme by done.
  change (s ++ [p; self]) with (s ++ [p] ++ [self]).
  by rewrite app_assoc, pop_snoc.
Qed.

Lemma exit_root st tid self now me :
  _collecting st = true ->
  perfStack st !! tid = Some [self] ->
  cell (objects st) self = Some me ->
  __exit__ st tid self now =
  Ok (mkState true
        (<[self := Some (finished me now)]> (objects st))
        (<[tid := []]> (perfStack st))
        (perfQueue st ++ [completed_of (finished me now) now])
        (annotations st)).
Proof.
  intros Hc Hs Hme.
  unfold __exit__. rewrite Hc, Hs. simpl. by rewrite Hme.
Qed.

End LiveFacts.

(** ** What a timed region emits *)

Module Regions.
Import Live LiveFacts.

Definition name_of (b : Block) : string := match b with With n _ _ _ _ => n end.

Lemma Block_nested_ind (P : Block -> Prop) :
  (forall n fr t0 body t1, Forall P body -> P (With n fr t0 body t1)) ->
  forall b, P b.
Proof.
  intros step. fix IH 1. intros [n fr t0 body t1]. apply step.
  induction body as [|c cs IHcs]; constructor; [apply IH | exact IHcs].
Qed.

(** The attributes of an open region after a region nested directly in
    it has run: charged up to the child's entry, resumed at its exit. *)
Definition handoff (tp : PerfTimer) (c : Block) : PerfTimer :=
  set_excstart (charged tp (tEnter_of c)) (tExit_of c).

Definition scope_under (prefix : option string) (name : string) : string :=
  match prefix with
  | Some p => p ++ "::" ++ name
  | None => name
  end.

(** The tuple a region appends when it exits, as the calls on its timer
    compute it one after the other. *)
Definition own_event (prefix : option string) (tid : Z) (b : Block) : Completed :=
  match b with
  | With name fr t0 body t1 =>
    let me := started (mkTimer fr name 0 0 0 0 (scope_under prefix name) tid) t0 in
    completed_of (finished (fold_left handoff body me) t1) t1
  end.

Definition children_events (prefix : option string) (tid : Z) (b : Block)
  : list Completed :=
  map (own_event (Some (scope_under prefix (name_of b))) tid) (body_of b).

(** All tuples a region appends: those of the regions nested in it, in
    program order, then its own. *)
Fixpoint emitted (prefix : option string) (tid : Z) (b : Block) : list Completed :=
  match b with
  | With name fr t0 body t1 =>
    concat (map (emitted (Some (scope_under prefix name)) tid) body)
      ++ [own_event prefix tid b]
  end.

(** Every reference held on a stack is to an object of the store. *)
Definition refs_valid (st : State) : Prop :=
  forall tid stk p,
    perfStack st !! tid = Some stk -> p ∈ stk -> (p < length (objects st))%nat.

Lemma handoff_scopeName cs tp :
  scopeName (fold_left handoff cs tp) = scopeName tp.
Proof. revert tp. induction cs as [|c cs IH]; intros tp; [done|]. simpl. by rewrite IH. Qed.

Lemma handoff_incstart cs tp :
  incstart (fold_left handoff cs tp) = incstart tp.
Proof. revert tp. induction cs as [|c cs IH]; intros tp; [done|]. simpl. by rewrite IH. Qed.

(** Specification of a region run under an open parent [p]. *)
Definition nested_ok (b : Block) : Prop :=
  forall st tid s p tp,
    _collecting st = true ->
    perfStack st !! tid = Some (s ++ [p]) ->
    cell (objects st) p = Some tp ->
    exists st',
      exec_block st tid b = Ok st'
      /\ _collecting st' = true
      /\ perfStack st' = perfStack st
      /\ annotations st' = annotations st
      /\ perfQueue st' = perfQueue st ++ emitted (Some (scopeName tp)) tid b
      /\ (length (objects st) <= length (objects st'))%nat
      /\ (forall l, (l < length (objects st))%nat -> l <> p ->
                    objects st' !! l = objects st !! l)
      /\ cell (objects st') p = Some (handoff tp b).

Lemma exec_body_nested cs :
  Forall nested_ok cs ->
  forall st tid s p tp,
    _collecting st = true ->
    perfStack st !! tid = Some (s ++ [p]) ->
    cell (objects st) p = Some tp ->
    exists st',
      exec_body exec_block st tid cs = Ok st'
      /\ _collecting st' = true
      /\ perfStack st' = perfStack st
      /\ annotations st' = annotations st
      /\ perfQueue st' =
         perfQueue st ++ concat (map (emitted (Some (scopeName tp)) tid) cs)
      /\ (length (objects st) <= length (objects st'))%nat
      /\ (forall l, (l < length (objects st))%nat -> l <> p ->
                    objects st' !! l = objects st !! l)
      /\ cell (objects st') p = Some (fold_left handoff cs tp).
Proof.
  induction 1 as [|c cs Hc _ IH]; intros st tid s p tp Hcol Hstk Hp.
  - exists st. simpl. rewrite app_nil_r. repeat split; auto.
  - destruct (Hc st tid s p tp Hcol Hstk Hp)
      as (st1 & E1 & C1 & S1 & A1 & Q1 & L1 & F1 & P1).
    destruct (IH st1 tid s p (handoff tp c) C1) as
      (st2 & E2 & C2 & S2 & A2 & Q2 & L2 & F2 & P2); [congruence | done |].
    exists st2. simpl. rewrite E1. simpl. repeat split.
    + exact E2.
    + exact C2.
    + congruence.
    + congruence.
    + rewrite Q2, Q1. simpl. by rewrite <- !app_assoc.
    + lia.
    + intros l Hl Hne. rewrite F2 by (done || lia). by apply F1.
    + exact P2.
Qed.

Lemma exec_block_nested b : nested_ok b.
Proof.
  induction b as [name fr t0 body t1 IHbody] using Block_nested_ind.
  intros st tid s p tp Hcol Hstk Hp.
  pose proof (cell_lt _ _ _ Hp) as Hplt.
  set (self := length (objects st)).
  set (new := mkTimer fr name 0 0 0 0 name tid).
  set (st1 := mkState true (objects st ++ [Some new])
                      (perfStack st) (perfQueue st) (annotations st)).
  assert (Hinit : __init__ st tid name fr = (st1, self)).
  { unfold __init__. by rewrite Hcol. }
  assert (Hne : p <> self) by (unfold self; lia).
  assert (Hp1 : cell (objects st1) p = Some tp).
  { apply cell_Some. simpl. apply lookup_app_l_Some. by apply cell_Some. }
  assert (Hself1 : cell (objects st1) self = Some new).
  { apply cell_Some. simpl. by apply list_lookup_middle. }
  pose proof (enter_nested st1 tid self t0 s p tp new eq_refl Hstk Hp1 Hself1 Hne)
    as Henter.
  set (me := started (set_scopeName new (scopeName tp ++ "::" ++ blockName new)) t0)
    in Henter.
  match type of Henter with _ = Ok ?x => set (st2 := x) in Henter end.
  assert (Hlen1 : length (objects st1) = S self).
  { simpl. rewrite length_app. simpl. unfold self. lia. }
  assert (Hlen2 : length (objects st2) = S self).
  { simpl. by rewrite !length_insert. }
  destruct (exec_body_nested body IHbody st2 tid (s ++ [p]) self me)
    as (st3 & E3 & C3 & S3 & A3 & Q3 & L3 & F3 & P3).
  { done. }
  { simpl. by rewrite lookup_insert_eq. }
  { apply cell_insert_eq. rewrite length_insert, Hlen1. lia. }
  assert (Hps : (p < self)%nat) by exact Hplt.
  assert (Hp3 : cell (objects st3) p = Some (charged tp t0)).
  { unfold cell. rewrite F3 by (done || (rewrite Hlen2; lia)). simpl.
    rewrite list_lookup_insert_ne by done.
    rewrite list_lookup_insert_eq; [done|].
    rewrite length_app. simpl. lia. }
  assert (Hstk3 : perfStack st3 !! tid = Some (s ++ [p; self])).
  { rewrite S3. simpl. rewrite lookup_insert_eq.
    by rewrite <- app_assoc. }
  pose proof (exit_nested st3 tid self t1 s p _ _ C3 Hstk3 Hp3 P3 Hne) as Hexit.
  match type of Hexit with _ = Ok ?x => set (st4 := x) in Hexit end.
  rewrite Hlen2 in L3.
  exists st4. repeat split.
  - rewrite exec_block_unfold, Hinit, Henter. cbn [rbind].
    rewrite E3. exact Hexit.
  - simpl. rewrite S3. simpl. rewrite insert_insert_eq.
    by apply insert_id.
  - simpl. by rewrite A3.
  - simpl. rewrite Q3. simpl. by rewrite <- app_assoc.
  - simpl. rewrite !length_insert. fold self. lia.
  - intros l Hl Hlp. fold self in Hl. simpl.
    rewrite !list_lookup_insert_ne by lia.
    rewrite F3 by (rewrite ?Hlen2; lia). simpl.
    rewrite !list_lookup_insert_ne by lia.
    by apply lookup_app_l.
  - simpl. rewrite cell_insert_ne by done.
    rewrite cell_insert_eq by (rewrite ?length_insert; lia). done.
Qed.

Definition prefix_of (st : State) (tid : Z) : option string :=
  scopeName <$> parent_of st tid.

Lemma parent_of_alloc st tid o :
  refs_valid st ->
  parent_of (mkState true (objects st ++ [o]) (perfStack st)
                     (perfQueue st) (annotations st)) tid
  = parent_of st tid.
Proof.
  intros Hv. unfold parent_of. simpl.
  destruct (perfStack st !! tid) as [stk|] eqn:Hs; [|done].
  destruct (peek 0 stk) as [p|] eqn:Hp; [|done].
  destruct (peek_top_inv _ _ Hp) as [l' ->].
  assert (p < length (objects st))%nat as Hlt.
  { eapply Hv; [exact Hs|]. apply elem_of_app. right. by apply list_elem_of_singleton. }
  unfold cell. by rewrite lookup_app_l.
Qed.

(** A region run in any state with collection enabled: it returns, and the
    queue grows by exactly [emitted]. *)
Lemma exec_block_emits st tid b :
  _collecting st = true ->
  refs_valid st ->
  exists st',
    exec_block st tid b = Ok st'
    /\ _collecting st' = true
    /\ refs_valid st'
    /\ annotations st' = annotations st
    /\ prefix_of st' tid = prefix_of st tid
    /\ perfQueue st' = perfQueue st ++ emitted (prefix_of st tid) tid b.
Proof.
  intros Hcol Hv. unfold prefix_of.
  destruct (parent_of st tid) as [tp|] eqn:Hpar.
  - (* an enclosing region is open *)
    unfold parent_of in Hpar.
    destruct (perfStack st !! tid) as [stk|] eqn:Hs; [|done].
    destruct (peek 0 stk) as [p|] eqn:Hp; [|done].
    destruct (peek_top_inv _ _ Hp) as [s ->].
    destruct (exec_block_nested b st tid s p tp Hcol Hs Hpar)
      as (st' & E & C & S & A & Q & L & F & P).
    exists st'. repeat split; try done.
    + intros t stk q Hq Hin. rewrite S in Hq.
      specialize (Hv t stk q Hq Hin). lia.
    + unfold parent_of. rewrite S, Hs, Hp, P. simpl.
      by destruct b.
  - (* outermost region of the thread *)
    destruct b as [name fr t0 body t1].
    set (self := length (objects st)).
    set (new := mkTimer fr name 0 0 0 0 name tid).
    set (st1 := mkState true (objects st ++ [Some new])
                        (perfStack st) (perfQueue st) (annotations st)).
    assert (Hinit : __init__ st tid name fr = (st1, self)).
    { unfold __init__. by rewrite Hcol. }
    assert (Hpar1 : parent_of st1 tid = None).
    { unfold st1. by rewrite parent_of_alloc. }
    assert (Hself1 : cell (objects st1) self = Some new).
    { apply cell_Some. simpl. by apply list_lookup_middle. }
    pose proof (enter_root st1 tid self t0 new eq_refl Hpar1 Hself1) as Henter.
    match type of Henter with _ = Ok ?x => set (st2 := x) in Henter end.
    assert (Hlen1 : length (objects st1) = S self).
    { simpl. rewrite length_app. simpl. unfold self. lia. }
    assert (Hlen2 : length (objects st2) = S self).
    { simpl. by rewrite length_insert. }
    destruct (exec_body_nested body (Forall_true _ _ exec_block_nested)
                st2 tid [] self (started new t0))
      as (st3 & E3 & C3 & S3 & A3 & Q3 & L3 & F3 & P3).
    { done. }
    { simpl. by rewrite lookup_insert_eq. }
    { apply cell_insert_eq. rewrite Hlen1. lia. }
    assert (Hstk3 : perfStack st3 !! tid = Some [self]).
    { rewrite S3. simpl. by rewrite lookup_insert_eq. }
    pose proof (exit_root st3 tid self t1 _ C3 Hstk3 P3) as Hexit.
    match type of Hexit with _ = Ok ?x => set (st4 := x) in Hexit end.
    rewrite Hlen2 in L3.
    exists st4. repeat split.
    + rewrite exec_block_unfold, Hinit, Henter. cbn [rbind].
      rewrite E3. exact Hexit.
    + intros t stk q Hq Hin. simpl. rewrite length_insert.
      simpl in Hq. rewrite S3 in Hq. simpl in Hq.
      rewrite insert_insert_eq in Hq.
      destruct (decide (tid = t)) as [->|Hne].
      * rewrite lookup_insert_eq in Hq. injection Hq as <-.
        by apply elem_of_nil in Hin.
      * rewrite lookup_insert_ne in Hq by done.
        specialize (Hv t stk q Hq Hin). fold self in Hv. lia.
    + simpl. by rewrite A3.
    + unfold parent_of. simpl. by rewrite lookup_insert_eq.
    + simpl. rewrite Q3. simpl. by rewrite <- app_assoc.
Qed.

(** A sequence of regions run one after the other on one thread. *)
Lemma run_emits cs : forall st tid,
  _collecting st = true ->
  refs_valid st ->
  exists st',
    run st tid cs = Ok st'
    /\ _collecting st' = true
    /\ refs_valid st'
    /\ annotations st' = annotations st
    /\ perfQueue st' =
       perfQueue st ++ concat (map (emitted (prefix_of st tid) tid) cs).
Proof.
  unfold run. induction cs as [|c cs IH]; intros st tid Hcol Hv.
  - exists st. simpl. by rewrite app_nil_r.
  - destruct (exec_block_emits st tid c Hcol Hv) as (st1 & E1 & C1 & V1 & A1 & P1 & Q1).
    destruct (IH st1 tid C1 V1) as (st2 & E2 & C2 & V2 & A2 & Q2).
    exists st2. simpl. rewrite E1. cbn [rbind]. repeat split; try done.
    + congruence.
    + rewrite Q2, Q1, P1. by rewrite <- app_assoc.
Qed.

Lemma refs_valid_initial : refs_valid initial.
Proof. intros tid stk p H. simpl in H. by rewrite lookup_empty in H. Qed.

(** *** The durations of a region's own event *)

Definition Qsum (l : list Q) : Q := fold_right Qplus 0 l.

Lemma own_event_inclusive prefix tid b :
  ce_inclusive (own_event prefix tid b) = tExit_of b - tEnter_of b.
Proof.
  destruct b as [name fr t0 body t1]. simpl.
  by rewrite handoff_incstart.
Qed.

Lemma own_event_scope prefix tid b :
  ce_scope (own_event prefix tid b) = scope_under prefix (name_of b).
Proof.
  destruct b as [name fr t0 body t1]. simpl.
  by rewrite handoff_scopeName.
Qed.

End Regions.

(** ** The live scope stack in binary64

    [time.time()] returns a binary64 float, and the [-] and [+=] of
    [__enter__] and [__exit__] round their results to binary64.  This
    module is the scope stack with that arithmetic: the statements of
    [Live], on the floats of the machine.  A decimal literal stands for
    the nearest binary64 value, as it does in Python. *)

Module Binary64.

Record PerfTimer : Type := mkTimer {
  frame : option Z;
  blockName : string;
  incstart : float;
  excstart : float;
  exclusive : float;
  inclusive : float;
  scopeName : string;
  threadId : Z
}.

Definition set_scopeName (t : PerfTimer) (s : string) : PerfTimer :=
  mkTimer (frame t) (blockName t) (incstart t) (excstart t)
          (exclusive t) (inclusive t) s (threadId t).

Definition set_exclusive (t : PerfTimer) (x : float) : PerfTimer :=
  mkTimer (frame t) (blockName t) (incstart t) (excstart t)
          x (inclusive t) (scopeName t) (threadId t).

Definition set_inclusive (t : PerfTimer) (x : float) : PerfTimer :=
  mkTimer (frame t) (blockName t) (incstart t) (excstart t)
          (exclusive t) x (scopeName t) (threadId t).

Definition set_excstart (t : PerfTimer) (x : float) : PerfTimer :=
  mkTimer (frame t) (blockName t) (incstart t) x
          (exclusive t) (inclusive t) (scopeName t) (threadId t).

Definition set_incstart (t : PerfTimer) (x : float) : PerfTimer :=
  mkTimer (frame t) (blockName t) x (excstart t)
          (exclusive t) (inclusive t) (scopeName t) (threadId t).

(** The 7-tuple appended to [perfQueue]:
    [(scopeName, inclusive, exclusive, threadId, frame, incstart, now)]. *)
Record Completed : Type := mkCompleted {
  ce_scope : string;
  ce_inclusive : float;
  ce_exclusive : float;
  ce_thread : Z;
  ce_frame : option Z;
  ce_start : float;
  ce_end : float
}.

Definition completed_of (t : PerfTimer) (now : float) : Completed :=
  mkCompleted (scopeName t) (inclusive t) (exclusive t) (threadId t)
              (frame t) (incstart t) now.

(** The part of the process state that [__init__], [__enter__] and
    [__exit__] touch, laid out as in [Live]. *)
Record State : Type := mkState {
  _collecting : bool;
  objects : list (option PerfTimer);
  perfStack : gmap Z (list nat);
  perfQueue : list Completed
}.

Definition initial : State := mkState true [] ∅ [].

Definition cell (objs : list (option PerfTimer)) (i : nat) : option PerfTimer :=
  mjoin (objs !! i).

(** [PerfTimer(blockName, frame)] on thread [tid].  The integer [0] that
    [__init__] stores becomes the float [0.0] at the first [+=]. *)
Definition __init__ (st : State) (tid : Z) (name : string) (fr : option Z)
  : State * nat :=
  let obj :=
    if _collecting st
    then Some (mkTimer fr name 0 0 0 0 name tid)
    else None in
  (mkState (_collecting st) (objects st ++ [obj]) (perfStack st) (perfQueue st),
   length (objects st)).

(** The [try] block of [__enter__]. *)
Definition enter_try (st : State) (tid : Z) (self : nat) (now : float)
  : list (option PerfTimer) * option (list nat) :=
  match perfStack st !! tid with
  | None => (objects st, None)
  | Some stk =>
    match peek 0 stk with
    | None => (objects st, None)
    | Some p =>
      match cell (objects st) p with
      | None => (objects st, None)
      | Some prev =>
        let prev' :=
          set_exclusive prev (exclusive prev + (now - excstart prev))%float in
        let objs1 := <[p := Some prev']> (objects st) in
        match cell objs1 self with
        | None => (objs1, None)
        | Some me =>
          let me' := set_scopeName me (scopeName prev' ++ "::" ++ blockName me) in
          (<[self := Some me']> objs1, Some (stk ++ [self]))
        end
      end
    end
  end.

(** [self.__enter__()] on thread [tid], with [time.time()] returning
    [now]. *)
Definition __enter__ (st : State) (tid : Z) (self : nat) (now : float)
  : result State :=
  if _collecting st then
    let '(objs1, pushed) := enter_try st tid self now in
    let stk := default [self] pushed in
    let objs2 :=
      match cell objs1 self with
      | Some me => <[self := Some (set_excstart (set_incstart me now) now)]> objs1
      | None => objs1
      end in
    Ok (mkState (_collecting st) objs2 (<[tid := stk]> (perfStack st))
                (perfQueue st))
  else Ok st.

(** [self.__exit__(...)] on thread [tid], with [time.time()] returning
    [now]. *)
Definition __exit__ (st : State) (tid : Z) (self : nat) (now : float)
  : result State :=
  if _collecting st then
    let objs1 :=
      match perfStack st !! tid ≫= peek 1 with
      | Some q =>
        match cell (objects st) q with
        | Some prev => <[q := Some (set_excstart prev now)]> (objects st)
        | None => objects st
        end
      | None => objects st
      end in
    match cell objs1 self with
    | None => Raise AttributeError
    | Some me =>
      let me1 := set_exclusive me (exclusive me + (now - excstart me))%float in
      let me2 := set_inclusive me1 (now - incstart me1)%float in
      match perfStack st !! tid with
      | None => Raise AttributeError
      | Some stk =>
        stk' <~ pop stk ;;
        Ok (mkState (_collecting st) (<[self := Some me2]> objs1)
                    (<[tid := stk']> (perfStack st))
                    (perfQueue st ++ [completed_of me2 now]))
      end
    end
  else Ok st.

(** A region of code timed by [with PerfTimer(name, frame): body], with
    the two clock readings its [__enter__] and [__exit__] observe. *)
Inductive Block : Type :=
  | With (name : string) (fr : option Z) (tEnter : float) (body : list Block)
         (tExit : float).

Definition name_of (b : Block) : string := match b with With n _ _ _ _ => n end.
Definition tEnter_of (b : Block) : float := match b with With _ _ t _ _ => t end.
Definition tExit_of (b : Block) : float := match b with With _ _ _ _ t => t end.
Definition body_of (b : Block) : list Block := match b with With _ _ _ c _ => c end.

Section Exec.
Context (exec_block : State -> Z -> Block -> result State).

Fixpoint exec_body (st : State) (tid : Z) (cs : list Block) : result State :=
  match cs with
  | [] => Ok st
  | c :: cs' => st' <~ exec_block st tid c ;; exec_body st' tid cs'
  end.

End Exec.

(** The [with] statement: construct, enter, run the body, exit. *)
Fixpoint exec_block (st : State) (tid : Z) (b : Block) : result State :=
  match b with
  | With name fr t0 body t1 =>
    let '(st1, self) := __init__ st tid name fr in
    st2 <~ __enter__ st1 tid self t0 ;;
    st3 <~ exec_body exec_block st2 tid body ;;
    __exit__ st3 tid self t1
  end.

Definition run (st : State) (tid : Z) (cs : list Block) : result State :=
  exec_body exec_block st tid cs.

(** *** What the calls compute on one timer *)

Definition charged (tp : PerfTimer) (now : float) : PerfTimer :=
  set_exclusive tp (exclusive tp + (now - excstart tp))%float.

Definition started (me : PerfTimer) (now : float) : PerfTimer :=
  set_excstart (set_incstart me now) now.

Definition finished (me : PerfTimer) (now : float) : PerfTimer :=
  set_inclusive (charged me now) (now - incstart me)%float.

(** The attributes of an open region after a region nested directly in
    it has run: charged up to the child's entry, resumed at its exit. *)
Definition handoff (tp : PerfTimer) (c : Block) : PerfTimer :=
  set_excstart (charged tp (tEnter_of c)) (tExit_of c).

Definition scope_under (prefix : option string) (name : string) : string :=
  match prefix with
  | Some p => p ++ "::" ++ name
  | None => name
  end.

(** The tuple a region appends when it exits, as the calls on its timer
    compute it one after the other. *)
Definition own_event (prefix : option string) (tid : Z) (b : Block) : Completed :=
  match b with
  | With name fr t0 body t1 =>
    let me := started (mkTimer fr name 0 0 0 0 (scope_under prefix name) tid) t0 in
    completed_of (finished (fold_left handoff body me) t1) t1
  end.

Definition children_events (prefix : option string) (tid : Z) (b : Block)
  : list Completed :=
  map (own_event (Some (scope_under prefix (name_of b))) tid) (body_of b).

(** All tuples a region appends: those of the regions nested in it, in
    program order, then its own. *)
Fixpoint emitted (prefix : option string) (tid : Z) (b : Block) : list Completed :=
  match b with
  | With name fr t0 body t1 =>
    concat (map (emitted (Some (scope_under prefix name)) tid) body)
      ++ [own_event prefix tid b]
  end.

(** Every reference held on a stack is to an object of the store. *)
Definition refs_valid (st : State) : Prop :=
  forall tid stk p,
    perfStack st !! tid = Some stk -> p ∈ stk -> (p < length (objects st))%nat.

(** The innermost open region of a thread, when it has one with
    attributes: the [prev] of [__enter__]. *)
Definition parent_of (st : State) (tid : Z) : option PerfTimer :=
  match perfStack st !! tid with
  | Some stk =>
    match peek 0 stk with
    | Some p => cell (objects st) p
    | None => None
    end
  | None => None
  end.

Definition prefix_of (st : State) (tid : Z) : option string :=
  scopeName <$> parent_of st tid.


(** *** The numbers that binary64 values stand for *)

Definition finite (x : float) : bool :=
  match Prim2SF x with
  | S754_zero _ | S754_finite _ _ _ => true
  | _ => false
  end.

(** The rational number a finite binary64 value denotes. *)
Definition val (x : float) : Q :=
  match Prim2SF x with
  | S754_finite s m e =>
    (if s then -1 else 1) * inject_Z (Z.pos m) * Qpower 2 e
  | _ => 0
  end.

(** The float operation returned the exact difference (sum) of its
    operands: nothing was rounded away and nothing overflowed. *)
Definition exact_sub (a b : float) : Prop :=
  finite (a - b)%float = true /\ val (a - b)%float == val a - val b.

Definition exact_add (a b : float) : Prop :=
  finite (a + b)%float = true /\ val (a + b)%float == val a + val b.

(** [tp.exclusive += now - tp.excstart] is exact. *)
Definition charge_exact (tp : PerfTimer) (now : float) : Prop :=
  exact_sub now (excstart tp)
  /\ exact_add (exclusive tp) (now - excstart tp)%float.

(** The updates of [exclusive] a timer goes through while the regions
    [cs] run inside it and it exits at [t1] are all exact. *)
Fixpoint charges_exact (tp : PerfTimer) (cs : list Block) (t1 : float) : Prop :=
  match cs with
  | [] => charge_exact tp t1
  | c :: cs' => charge_exact tp (tEnter_of c) /\ charges_exact (handoff tp c) cs' t1
  end.

(** [self.inclusive = now - self.incstart] of the region is exact. *)
Definition span_exact (b : Block) : Prop :=
  exact_sub (tExit_of b) (tEnter_of b).

(** Every operation on the region's own timer is exact. *)
Definition own_exact (b : Block) : Prop :=
  match b with
  | With name fr t0 body t1 =>
    span_exact b
    /\ charges_exact (started (mkTimer fr name 0 0 0 0 name 0) t0) body t1
  end.

(** Every operation on the timers of the region and of all regions
    nested in it is exact. *)
Fixpoint all_exact (b : Block) : Prop :=
  match b with
  | With name fr t0 body t1 =>
    own_exact (With name fr t0 body t1)
    /\ fold_right and True (map all_exact body)
  end.


Definition sum_exclusive (evs : list Completed) : Q :=
  Regions.Qsum (map (fun ev => val (ce_exclusive ev)) evs).



End Binary64.

(** ** What a timed region emits in binary64 *)

Module Binary64Facts.
Import Binary64.

Lemma b64_cell_Some objs i t : cell objs i = Some t <-> objs !! i = Some (Some t).
Proof.
  unfold cell. destruct (objs !! i) as [[u|]|]; simpl; split; congruence.
Qed.

Lemma b64_cell_lt objs i t : cell objs i = Some t -> (i < length objs)%nat.
Proof. intros H%b64_cell_Some. by eapply lookup_lt_Some. Qed.

Lemma b64_cell_insert_eq objs i v :
  (i < length objs)%nat -> cell (<[i:=v]> objs) i = v.
Proof. intros H. unfold cell. by rewrite list_lookup_insert_eq. Qed.

Lemma b64_cell_insert_ne objs i j v :
  i <> j -> cell (<[i:=v]> objs) j = cell objs j.
Proof. intros H. unfold cell. by rewrite list_lookup_insert_ne. Qed.

Lemma b64_exec_block_unfold st tid name fr t0 body t1 :
  exec_block st tid (With name fr t0 body t1) =
  let '(st1, self) := __init__ st tid name fr in
  st2 <~ __enter__ st1 tid self t0 ;;
  st3 <~ exec_body exec_block st2 tid body ;;
  __exit__ st3 tid self t1.
Proof. reflexivity. Qed.

Lemma b64_enter_nested st tid self now s p tp me :
  _collecting st = true ->
  perfStack st !! tid = Some (s ++ [p]) ->
  cell (objects st) p = Some tp ->
  cell (objects st) self = Some me ->
  p <> self ->
  __enter__ st tid self now =
  Ok (mkState true
        (<[self := Some (started (set_scopeName me (scopeName tp ++ "::" ++ blockName me)) now)]>
           (<[p := Some (charged tp now)]> (objects st)))
        (<[tid := (s ++ [p]) ++ [self]]> (perfStack st))
        (perfQueue st)).
Proof.
  intros Hc Hs Hp Hme Hne.
  unfold __enter__, enter_try. rewrite Hc, Hs, peek_top, Hp.
  rewrite b64_cell_insert_ne, Hme by done.
  rewrite b64_cell_insert_eq
    by (rewrite length_insert; by eapply b64_cell_lt).
  simpl. by rewrite list_insert_insert_eq.
Qed.

Lemma b64_enter_root st tid self now me :
  _collecting st = true ->
  parent_of st tid = None ->
  cell (objects st) self = Some me ->
  __enter__ st tid self now =
  Ok (mkState true
        (<[self := Some (started me now)]> (objects st))
        (<[tid := [self]]> (perfStack st))
        (perfQueue st)).
Proof.
  intros Hc Hp Hme. unfold parent_of in Hp.
  unfold __enter__, enter_try. rewrite Hc.
  destruct (perfStack st !! tid) as [stk|]; simpl in Hp.
  - destruct (peek 0 stk) as [p|]; simpl in Hp.
    + rewrite Hp. by rewrite Hme.
    + by rewrite Hme.
  - by rewrite Hme.
Qed.

Lemma b64_exit_nested st tid self now s p tp me :
  _collecting st = true ->
  perfStack st !! tid = Some (s ++ [p; self]) ->
  cell (objects st) p = Some tp ->
  cell (objects st) self = Some me ->
  p <> self ->
  __exit__ st tid self now =
  Ok (mkState true
        (<[self := Some (finished me now)]>
           (<[p := Some (set_excstart tp now)]> (objects st)))
        (<[tid := s ++ [p]]> (perfStack st))
        (perfQueue st ++ [completed_of (finished me now) now])).
Proof.
  intros Hc Hs Hp Hme Hne.
  unfold __exit__. rewrite Hc, Hs. simpl. rewrite peek_second, Hp.
  rewrite b64_cell_insert_ne, Hme by done.
  change (s ++ [p; self]) with (s ++ [p] ++ [self]).
  by rewrite app_assoc, pop_snoc.
Qed.

Lemma b64_exit_root st tid self now me :
  _collecting st = true ->
  perfStack st !! tid = Some [self] ->
  cell (objects st) self = Some me ->
  __exit__ st tid self now =
  Ok (mkState true
        (<[self := Some (finished me now)]> (objects st))
        (<[tid := []]> (perfStack st))
        (perfQueue st ++ [completed_of (finished me now) now])).
Proof.
  intros Hc Hs Hme.
  unfold __exit__. rewrite Hc, Hs. simpl. by rewrite Hme.
Qed.

Lemma b64_Block_nested_ind (P : Block -> Prop) :
  (forall n fr t0 body t1, Forall P body -> P (With n fr t0 body t1)) ->
  forall b, P b.
Proof.
  intros step. fix IH 1. intros [n fr t0 body t1]. apply step.
  induction body as [|c cs IHcs]; constructor; [apply IH | exact IHcs].
Qed.


Lemma b64_handoff_incstart cs tp :
  incstart (fold_left handoff cs tp) = incstart tp.
Proof. revert tp. induction cs as [|c cs IH]; intros tp; [done|]. simpl. by rewrite IH. Qed.

(** Specification of a region run under an open parent [p]. *)
Definition nested_ok (b : Block) : Prop :=
  forall st tid s p tp,
    _collecting st = true ->
    perfStack st !! tid = Some (s ++ [p]) ->
    cell (objects st) p = Some tp ->
    exists st',
      exec_block st tid b = Ok st'
      /\ _collecting st' = true
      /\ perfStack st' = perfStack st
      /\ perfQueue st' = perfQueue st ++ emitted (Some (scopeName tp)) tid b
      /\ (length (objects st) <= length (objects st'))%nat
      /\ (forall l, (l < length (objects st))%nat -> l <> p ->
                    objects st' !! l = objects st !! l)
      /\ cell (objects st') p = Some (handoff tp b).

Lemma b64_exec_body_nested cs :
  Forall nested_ok cs ->
  forall st tid s p tp,
    _collecting st = true ->
    perfStack st !! tid = Some (s ++ [p]) ->
    cell (objects st) p = Some tp ->
    exists st',
      exec_body exec_block st tid cs = Ok st'
      /\ _collecting st' = true
      /\ perfStack st' = perfStack st
      /\ perfQueue st' =
         perfQueue st ++ concat (map (emitted (Some (scopeName tp)) tid) cs)
      /\ (length (objects st) <= length (objects st'))%nat
      /\ (forall l, (l < length (objects st))%nat -> l <> p ->
                    objects st' !! l = objects st !! l)
      /\ cell (objects st') p = Some (fold_left handoff cs tp).
Proof.
  induction 1 as [|c cs Hc _ IH]; intros st tid s p tp Hcol Hstk Hp.
  - exists st. simpl. rewrite app_nil_r. repeat split; auto.
  - destruct (Hc st tid s p tp Hcol Hstk Hp)
      as (st1 & E1 & C1 & S1 & Q1 & L1 & F1 & P1).
    destruct (IH st1 tid s p (handoff tp c) C1) as
      (st2 & E2 & C2 & S2 & Q2 & L2 & F2 & P2); [congruence | done |].
    exists st2. simpl. rewrite E1. simpl. repeat split.
    + exact E2.
    + exact C2.
    + congruence.
    + rewrite Q2, Q1. simpl. by rewrite <- !app_assoc.
    + lia.
    + intros l Hl Hne. rewrite F2 by (done || lia). by apply F1.
    + exact P2.
Qed.

Lemma b64_exec_block_nested b : nested_ok b.
Proof.
  induction b as [name fr t0 body t1 IHbody] using b64_Block_nested_ind.
  intros st tid s p tp Hcol Hstk Hp.
  pose proof (b64_cell_lt _ _ _ Hp) as Hplt.
  set (self := length (objects st)).
  set (new := mkTimer fr name 0 0 0 0 name tid).
  set (st1 := mkState true (objects st ++ [Some new])
                      (perfStack st) (perfQueue st)).
  assert (Hinit : __init__ st tid name fr = (st1, self)).
  { unfold __init__. by rewrite Hcol. }
  assert (Hne : p <> self) by (unfold self; lia).
  assert (Hp1 : cell (objects st1) p = Some tp).
  { apply b64_cell_Some. simpl. apply lookup_app_l_Some. by apply b64_cell_Some. }
  assert (Hself1 : cell (objects st1) self = Some new).
  { apply b64_cell_Some. simpl. by apply list_lookup_middle. }
  pose proof (b64_enter_nested st1 tid self t0 s p tp new eq_refl Hstk Hp1 Hself1 Hne)
    as Henter.
  set (me := started (set_scopeName new (scopeName tp ++ "::" ++ blockName new)) t0)
    in Henter.
  match type of Henter with _ = Ok ?x => set (st2 := x) in Henter end.
  assert (Hlen1 : length (objects st1) = S self).
  { simpl. rewrite length_app. simpl. unfold self. lia. }
  assert (Hlen2 : length (objects st2) = S self).
  { simpl. by rewrite !length_insert. }
  destruct (b64_exec_body_nested body IHbody st2 tid (s ++ [p]) self me)
    as (st3 & E3 & C3 & S3 & Q3 & L3 & F3 & P3).
  { done. }
  { simpl. by rewrite lookup_insert_eq. }
  { apply b64_cell_insert_eq. rewrite length_insert, Hlen1. lia. }
  assert (Hps : (p < self)%nat) by exact Hplt.
  assert (Hp3 : cell (objects st3) p = Some (charged tp t0)).
  { unfold cell. rewrite F3 by (done || (rewrite Hlen2; lia)). simpl.
    rewrite list_lookup_insert_ne by done.
    rewrite list_lookup_insert_eq; [done|].
    rewrite length_app. simpl. lia. }
  assert (Hstk3 : perfStack st3 !! tid = Some (s ++ [p; self])).
  { rewrite S3. simpl. rewrite lookup_insert_eq.
    by rewrite <- app_assoc. }
  pose proof (b64_exit_nested st3 tid self t1 s p _ _ C3 Hstk3 Hp3 P3 Hne) as Hexit.
  match type of Hexit with _ = Ok ?x => set (st4 := x) in Hexit end.
  rewrite Hlen2 in L3.
  exists st4. repeat split.
  - rewrite b64_exec_block_unfold, Hinit, Henter. cbn [rbind].
    rewrite E3. exact Hexit.
  - simpl. rewrite S3. simpl. rewrite insert_insert_eq.
    by apply insert_id.
  - simpl. rewrite Q3. simpl. by rewrite <- app_assoc.
  - simpl. rewrite !length_insert. fold self. lia.
  - intros l Hl Hlp. fold self in Hl. simpl.
    rewrite !list_lookup_insert_ne by lia.
    rewrite F3 by (rewrite ?Hlen2; lia). simpl.
    rewrite !list_lookup_insert_ne by lia.
    by apply lookup_app_l.
  - simpl. rewrite b64_cell_insert_ne by done.
    rewrite b64_cell_insert_eq by (rewrite ?length_insert; lia). done.
Qed.

Lemma b64_parent_of_alloc st tid o :
  refs_valid st ->
  parent_of (mkState true (objects st ++ [o]) (perfStack st) (perfQueue st)) tid
  = parent_of st tid.
Proof.
  intros Hv. unfold parent_of. simpl.
  destruct (perfStack st !! tid) as [stk|] eqn:Hs; [|done].
  destruct (peek 0 stk) as [p|] eqn:Hp; [|done].
  destruct (peek_top_inv _ _ Hp) as [l' ->].
  assert (p < length (objects st))%nat as Hlt.
  { eapply Hv; [exact Hs|]. apply elem_of_app. right. by apply list_elem_of_singleton. }
  unfold cell. by rewrite lookup_app_l.
Qed.

(** A region run in any state with collection enabled: it returns, and
    the queue grows by exactly [emitted]. *)
Lemma b64_exec_block_emits st tid b :
  _collecting st = true ->
  refs_valid st ->
  exists st',
    exec_block st tid b = Ok st'
    /\ _collecting st' = true
    /\ refs_valid st'
    /\ prefix_of st' tid = prefix_of st tid
    /\ perfQueue st' = perfQueue st ++ emitted (prefix_of st tid) tid b.
Proof.
  intros Hcol Hv. unfold prefix_of.
  destruct (parent_of st tid) as [tp|] eqn:Hpar.
  - (* an enclosing region is open *)
    unfold parent_of in Hpar.
    destruct (perfStack st !! tid) as [stk|] eqn:Hs; [|done].
    destruct (peek 0 stk) as [p|] eqn:Hp; [|done].
    destruct (peek_top_inv _ _ Hp) as [s ->].
    destruct (b64_exec_block_nested b st tid s p tp Hcol Hs Hpar)
      as (st' & E & C & S & Q & L & F & P).
    exists st'. repeat split; try done.
    + intros t stk q Hq Hin. rewrite S in Hq.
      specialize (Hv t stk q Hq Hin). lia.
    + unfold parent_of. rewrite S, Hs, Hp, P. simpl.
      by destruct b.
  - (* outermost region of the thread *)
    destruct b as [name fr t0 body t1].
    set (self := length (objects st)).
    set (new := mkTimer fr name 0 0 0 0 name tid).
    set (st1 := mkState true (objects st ++ [Some new])
                        (perfStack st) (perfQueue st)).
    assert (Hinit : __init__ st tid name fr = (st1, self)).
    { unfold __init__. by rewrite Hcol. }
    assert (Hpar1 : parent_of st1 tid = None).
    { unfold st1. by rewrite b64_parent_of_alloc. }
    assert (Hself1 : cell (objects st1) self = Some new).
    { apply b64_cell_Some. simpl. by apply list_lookup_middle. }
    pose proof (b64_enter_root st1 tid self t0 new eq_refl Hpar1 Hself1) as Henter.
    match type of Henter with _ = Ok ?x => set (st2 := x) in Henter end.
    assert (Hlen1 : length (objects st1) = S self).
    { simpl. rewrite length_app. simpl. unfold self. lia. }
    assert (Hlen2 : length (objects st2) = S self).
    { simpl. by rewrite length_insert. }
    destruct (b64_exec_body_nested body (Forall_true _ _ b64_exec_block_nested)
                st2 tid [] self (started new t0))
      as (st3 & E3 & C3 & S3 & Q3 & L3 & F3 & P3).
    { done. }
    { simpl. by rewrite lookup_insert_eq. }
    { apply b64_cell_insert_eq. rewrite Hlen1. lia. }
    assert (Hstk3 : perfStack st3 !! tid = Some [self]).
    { rewrite S3. simpl. by rewrite lookup_insert_eq. }
    pose proof (b64_exit_root st3 tid self t1 _ C3 Hstk3 P3) as Hexit.
    match type of Hexit with _ = Ok ?x => set (st4 := x) in Hexit end.
    rewrite Hlen2 in L3.
    exists st4. repeat split.
    + rewrite b64_exec_block_unfold, Hinit, Henter. cbn [rbind].
      rewrite E3. exact Hexit.
    + intros t stk q Hq Hin. simpl. rewrite length_insert.
      simpl in Hq. rewrite S3 in Hq. simpl in Hq.
      rewrite insert_insert_eq in Hq.
      destruct (decide (tid = t)) as [->|Hne].
      * rewrite lookup_insert_eq in Hq. injection Hq as <-.
        by apply elem_of_nil in Hin.
      * rewrite lookup_insert_ne in Hq by done.
        specialize (Hv t stk q Hq Hin). fold self in Hv. lia.
    + unfold parent_of. simpl. by rewrite lookup_insert_eq.
    + simpl. rewrite Q3. simpl. by rewrite <- app_assoc.
Qed.


Lemma b64_refs_valid_initial : refs_valid initial.
Proof. intros tid stk p H. simpl in H. by rewrite lookup_empty in H. Qed.

Lemma b64_own_event_inclusive prefix tid b :
  ce_inclusive (own_event prefix tid b) = (tExit_of b - tEnter_of b)%float.
Proof.
  destruct b as [name fr t0 body t1]. simpl.
  by rewrite b64_handoff_incstart.
Qed.


(** *** Arithmetic of the hand-off, where it is exact *)

Definition same_clock (tp tq : PerfTimer) : Prop :=
  excstart tp = excstart tq /\ exclusive tp = exclusive tq.

Lemma b64_same_clock_handoff tp tq c :
  same_clock tp tq -> same_clock (handoff tp c) (handoff tq c).
Proof. intros [H1 H2]. split; simpl; [done | by rewrite H1, H2]. Qed.

Lemma b64_charge_exact_clock tp tq now :
  same_clock tp tq -> charge_exact tp now -> charge_exact tq now.
Proof. intros [H1 H2]. unfold charge_exact. by rewrite H1, H2. Qed.

Lemma b64_charges_exact_clock cs : forall tp tq t1,
  same_clock tp tq -> charges_exact tp cs t1 -> charges_exact tq cs t1.
Proof.
  induction cs as [|c cs IH]; intros tp tq t1 Hs; cbn [charges_exact].
  - by apply b64_charge_exact_clock.
  - intros [H1 H2]. split; [by eapply b64_charge_exact_clock|].
    eapply IH; [|exact H2]. by apply b64_same_clock_handoff.
Qed.

Lemma b64_val_zero : val 0 == 0.
Proof. reflexivity. Qed.

Example val_samples :
  val 60 == 60 /\ val 0.5 == 1 # 2 /\ val (-2.25) == - (9 # 4)
  /\ val 0.3 == 5404319552844595 # 18014398509481984.
Proof. repeat split; vm_compute; reflexivity. Qed.

Lemma b64_charged_val tp now :
  charge_exact tp now ->
  finite (exclusive (charged tp now)) = true
  /\ val (exclusive (charged tp now))
     == val (exclusive tp) + (val now - val (excstart tp)).
Proof.
  intros [[_ Hs] [Hf Ha]]. split; [exact Hf|].
  cbn [charged set_exclusive exclusive]. rewrite Ha, Hs. reflexivity.
Qed.


(** What a timer has charged when it exits: the time from its start to
    its exit, less the spans of the regions that ran inside it. *)
Lemma b64_charges_balance cs : forall tp t1,
  charges_exact tp cs t1 ->
  val (exclusive (charged (fold_left handoff cs tp) t1))
  == val (exclusive tp) + (val t1 - val (excstart tp))
     - Regions.Qsum (map (fun c => val (tExit_of c) - val (tEnter_of c)) cs).
Proof.
  induction cs as [|c cs IH]; intros tp t1;
    cbn [charges_exact fold_left map Regions.Qsum fold_right].
  - intros H. destruct (b64_charged_val tp t1 H) as [_ E]. rewrite E. lra.
  - intros [H1 H2]. rewrite (IH _ _ H2).
    destruct (b64_charged_val tp _ H1) as [_ E].
    change (exclusive (handoff tp c)) with (exclusive (charged tp (tEnter_of c))).
    change (excstart (handoff tp c)) with (tExit_of c).
    rewrite E. unfold Regions.Qsum. lra.
Qed.


Lemma b64_own_clock prefix tid name fr t0 :
  same_clock (started (mkTimer fr name 0 0 0 0 name 0) t0)
             (started (mkTimer fr name 0 0 0 0 (scope_under prefix name) tid) t0).
Proof. by split. Qed.


(** *** Clock readings in program order *)








End Binary64Facts.

(** ** The binary event log *)

Module Codec.
Local Open Scope Z_scope.

Abbreviation byte := Byte.byte.

(** One entry of [datas] / [recordings]:
    [[operation, threadId, frameId, timestamp, name]].  The writer holds
    the name as text, the reader as the bytes it read. *)
Record Recording (N : Type) : Type := mkRecording {
  operation : Z;
  rec_thread : Z;
  frameId : Z;
  timestamp : Z;
  rec_name : N
}.

Arguments mkRecording {N} _ _ _ _ _.
Arguments operation {N} _.
Arguments rec_thread {N} _.
Arguments frameId {N} _.
Arguments timestamp {N} _.
Arguments rec_name {N} _.

Definition Operation_Enter : Z := 0.
Definition Operation_Exit : Z := 1.
Definition Operation_Note : Z := 2.

Definition byte_of_Z (v : Z) : byte := default Byte.x00 (Byte.of_N (Z.to_N v)).
Definition Z_of_byte (b : byte) : Z := Z.of_N (Byte.to_N b).

(** The [n] little-endian bytes of [v]. *)
Fixpoint le_bytes (n : nat) (v : Z) : list byte :=
  match n with
  | O => []
  | S k => byte_of_Z (v mod 256) :: le_bytes k (v / 256)
  end.

Fixpoint le_value (bs : list byte) : Z :=
  match bs with
  | [] => 0
  | b :: r => Z_of_byte b + 256 * le_value r
  end.

Definition bits (n : nat) : Z := 8 * Z.of_nat n.

(** [struct.pack] of one field: unsigned ([B], [H], [L], [Q]) or signed
    ([b], [i]) of [n] bytes; [struct.error] outside the range. *)
Definition pack_unsigned (n : nat) (v : Z) : result (list byte) :=
  if (0 <=? v) && (v <? 2 ^ bits n)
  then Ok (le_bytes n v)
  else Raise StructError.

Definition pack_signed (n : nat) (v : Z) : result (list byte) :=
  if (- 2 ^ (bits n - 1) <=? v) && (v <? 2 ^ (bits n - 1))
  then Ok (le_bytes n (v mod 2 ^ bits n))
  else Raise StructError.

Definition unpack_unsigned (bs : list byte) : Z := le_value bs.

Definition unpack_signed (bs : list byte) : Z :=
  let v := le_value bs in
  if v <? 2 ^ (bits (length bs) - 1) then v else v - 2 ^ bits (length bs).

(** [f.read(n)]: up to [n] bytes, and the rest of the file. *)
Definition read (n : nat) (bs : list byte) : list byte * list byte :=
  (take n bs, drop n bs).

(** [struct.pack("<L", v)] and [struct.unpack("<L", bs)[0]]. *)
Definition pack_L (v : Z) : result (list byte) := pack_unsigned 4 v.

Definition unpack_L (bs : list byte) : result Z :=
  if (length bs =? 4)%nat then Ok (unpack_unsigned bs) else Raise StructError.

(** [struct.pack("<bQiQH", op, tid, frame, ts, len)]. *)
Definition pack_bQiQH (op tid fr ts len : Z) : result (list byte) :=
  b <~ pack_signed 1 op ;;
  q <~ pack_unsigned 8 tid ;;
  i <~ pack_signed 4 fr ;;
  q' <~ pack_unsigned 8 ts ;;
  h <~ pack_unsigned 2 len ;;
  Ok (b ++ q ++ i ++ q' ++ h).

(** [struct.unpack("<bQiQH", bs)]. *)
Definition unpack_bQiQH (bs : list byte) : result (Z * Z * Z * Z * Z) :=
  if (length bs =? 23)%nat then
    let '(b, r1) := read 1 bs in
    let '(q, r2) := read 8 r1 in
    let '(i, r3) := read 4 r2 in
    let '(q', r4) := read 8 r3 in
    let '(h, _) := read 2 r4 in
    Ok (unpack_signed b, unpack_unsigned q, unpack_signed i,
        unpack_unsigned q', unpack_unsigned h)
  else Raise StructError.

Definition is_ascii (b : byte) : bool := Z_of_byte b <? 128.

(** [s.encode("ascii")] and [bs.decode("ascii")]. *)
Definition encode_ascii (s : string) : result (list byte) :=
  let bs := String.list_byte_of_string s in
  if forallb is_ascii bs then Ok bs else Raise UnicodeError.

Definition decode_ascii (bs : list byte) : result string :=
  if forallb is_ascii bs then Ok (String.string_of_list_byte bs)
  else Raise UnicodeError.

Definition colon : byte := Byte.x3a.
Definition dot : byte := Byte.x2e.

(** [name.replace(b"::", b".")]: every occurrence, left to right, without
    overlap. *)
Fixpoint replace_sep (bs : list byte) : list byte :=
  match bs with
  | [] => []
  | b1 :: t =>
    match t with
    | b2 :: r =>
      if Byte.eqb b1 colon && Byte.eqb b2 colon
      then dot :: replace_sep r
      else b1 :: replace_sep t
    | [] => [b1]
    end
  end.

(** The writer of [test_write_binary] (Python 3 branch), as the bytes of
    the file. *)
Definition write_record (data : Recording string) : result (list byte) :=
  hdr <~ pack_bQiQH (operation data) (rec_thread data) (frameId data)
                    (timestamp data)
                    (Z.of_nat (String.length (rec_name data))) ;;
  nm <~ encode_ascii (rec_name data) ;;
  Ok (hdr ++ nm).

Fixpoint write_records (datas : list (Recording string)) : result (list byte) :=
  match datas with
  | [] => Ok []
  | data :: rest =>
    r <~ write_record data ;;
    rs <~ write_records rest ;;
    Ok (r ++ rs)
  end.

Definition magic : Z := 0xFA57.

Definition write_binary (datas : list (Recording string)) : result (list byte) :=
  m <~ pack_L magic ;;
  c <~ pack_L (Z.of_nat (length datas)) ;;
  body <~ write_records datas ;;
  Ok (m ++ c ++ body).

(** The reader: [count] records from the bytes that follow the header. *)
Fixpoint read_records (count : nat) (bs : list byte)
  : result (list (Recording (list byte))) :=
  match count with
  | O => Ok []
  | S k =>
    let '(hdr, rest) := read (1 + 8 + 4 + 8 + 2) bs in
    line <~ unpack_bQiQH hdr ;;
    let '(op, tid, fr, ts, len) := line in
    let '(name, rest') := read (Z.to_nat len) rest in
    recs <~ read_records k rest' ;;
    Ok (mkRecording op tid fr ts (replace_sep name) :: recs)
  end.

(** What the reader made of a file: the records of a binary log, or the
    decision to hand the file to [json.load], which is not modelled. *)
Inductive Loaded (N : Type) : Type :=
  | Binary (recordings : list (Recording N))
  | Json.

Arguments Binary {N} recordings.
Arguments Json {N}.

Definition read_log (file : list byte) : result (Loaded (list byte)) :=
  let '(m, rest) := read 4 file in
  v <~ unpack_L m ;;
  if v =? magic then
    let '(c, rest') := read 4 rest in
    count <~ unpack_L c ;;
    recs <~ read_records (Z.to_nat count) rest' ;;
    Ok (Binary recs)
  else Ok Json.

(** The name of a recording as the replay loop uses it: bytes are
    decoded as ASCII. *)
Definition decode_name (r : Recording (list byte)) : result (Recording string) :=
  nm <~ decode_ascii (rec_name r) ;;
  Ok (mkRecording (operation r) (rec_thread r) (frameId r) (timestamp r) nm).

Fixpoint decode_names (rs : list (Recording (list byte)))
  : result (list (Recording string)) :=
  match rs with
  | [] => Ok []
  | r :: rest =>
    d <~ decode_name r ;;
    ds <~ decode_names rest ;;
    Ok (d :: ds)
  end.

(** Reading a binary log back into recordings with text names. *)
Definition decode (file : list byte) : result (Loaded string) :=
  l <~ read_log file ;;
  match l with
  | Binary recs => ds <~ decode_names recs ;; Ok (Binary ds)
  | Json => Ok Json
  end.

Definition encode (datas : list (Recording string)) : result (list byte) :=
  write_binary datas.

End Codec.

(** ** Facts about the binary event log *)

Module CodecFacts.
Import Codec.
Local Open Scope Z_scope.

Lemma Z_of_byte_of_Z v : 0 <= v < 256 -> Z_of_byte (byte_of_Z v) = v.
Proof.
  intros Hv. unfold Z_of_byte, byte_of_Z.
  destruct (Byte.of_N (Z.to_N v)) as [b|] eqn:E; simpl.
  - apply Byte.to_of_N in E. rewrite E. lia.
  - apply Byte.of_N_None_iff in E. lia.
Qed.

Lemma le_bytes_length n : forall v, length (le_bytes n v) = n.
Proof. induction n as [|k IH]; intros v; simpl; [done | by rewrite IH]. Qed.

Lemma bits_S k : 2 ^ bits (S k) = 256 * 2 ^ bits k.
Proof.
  unfold bits. replace (8 * Z.of_nat (S k)) with (8 + 8 * Z.of_nat k) by lia.
  rewrite Z.pow_add_r by lia. reflexivity.
Qed.

Lemma bits_pos k : 0 < 2 ^ bits k.
Proof. unfold bits. apply Z.pow_pos_nonneg; lia. Qed.

Lemma le_value_bytes n : forall v,
  0 <= v < 2 ^ bits n -> le_value (le_bytes n v) = v.
Proof.
  induction n as [|k IH]; intros v Hv.
  - change (2 ^ bits 0) with 1 in Hv. simpl. lia.
  - rewrite bits_S in Hv. simpl.
    rewrite Z_of_byte_of_Z by (apply Z.mod_pos_bound; lia).
    rewrite IH.
    + pose proof (Z.div_mod v 256). lia.
    + split; [apply Z.div_pos; lia|].
      apply Z.div_lt_upper_bound; lia.
Qed.

Lemma pack_unsigned_ok n v :
  0 <= v < 2 ^ bits n -> pack_unsigned n v = Ok (le_bytes n v).
Proof.
  intros Hv. unfold pack_unsigned.
  destruct (Z.leb_spec 0 v), (Z.ltb_spec v (2 ^ bits n)); simpl; (done || lia).
Qed.

Lemma pack_unsigned_inv n v bs :
  pack_unsigned n v = Ok bs ->
  length bs = n /\ unpack_unsigned bs = v.
Proof.
  unfold pack_unsigned, unpack_unsigned.
  destruct (Z.leb_spec 0 v), (Z.ltb_spec v (2 ^ bits n)); simpl; try discriminate.
  intros [= <-]. split; [apply le_bytes_length | by apply le_value_bytes].
Qed.

Lemma bits_half n : (0 < n)%nat -> 2 ^ bits n = 2 * 2 ^ (bits n - 1).
Proof.
  intros Hn. unfold bits.
  replace (8 * Z.of_nat n) with (Z.succ (8 * Z.of_nat n - 1)) at 1 by lia.
  rewrite Z.pow_succ_r by lia. reflexivity.
Qed.

Lemma pack_signed_ok n v :
  - 2 ^ (bits n - 1) <= v < 2 ^ (bits n - 1) ->
  pack_signed n v = Ok (le_bytes n (v mod 2 ^ bits n)).
Proof.
  intros Hv. unfold pack_signed.
  destruct (Z.leb_spec (- 2 ^ (bits n - 1)) v), (Z.ltb_spec v (2 ^ (bits n - 1)));
    simpl; (done || lia).
Qed.

Lemma pack_signed_inv n v bs :
  (0 < n)%nat ->
  pack_signed n v = Ok bs ->
  length bs = n /\ unpack_signed bs = v.
Proof.
  intros Hn. unfold pack_signed, unpack_signed.
  destruct (Z.leb_spec (- 2 ^ (bits n - 1)) v), (Z.ltb_spec v (2 ^ (bits n - 1)));
    simpl; try discriminate.
  intros [= <-]. rewrite le_bytes_length. split; [done|].
  pose proof (bits_half n Hn) as Hh.
  pose proof (bits_pos n) as Hp.
  rewrite le_value_bytes by (apply Z.mod_pos_bound; lia).
  destruct (Z.lt_ge_cases v 0) as [Hneg|Hpos].
  - rewrite <- (Z_mod_plus_full v 1 (2 ^ bits n)).
    rewrite Z.mod_small by lia.
    destruct (Z.ltb_spec (v + 1 * 2 ^ bits n) (2 ^ (bits n - 1))); lia.
  - rewrite Z.mod_small by lia.
    destruct (Z.ltb_spec v (2 ^ (bits n - 1))); lia.
Qed.

Lemma read_app (a b : list byte) n :
  length a = n -> read n (a ++ b) = (a, b).
Proof.
  intros <-. unfold read. by rewrite take_app_length, drop_app_length.
Qed.

Lemma unpack_L_pack v bs : pack_L v = Ok bs -> unpack_L bs = Ok v.
Proof.
  intros H. apply pack_unsigned_inv in H as [Hl Hv].
  unfold unpack_L. rewrite Hl. simpl. by rewrite Hv.
Qed.

Lemma unpack_pack_bQiQH op tid fr ts len bs :
  pack_bQiQH op tid fr ts len = Ok bs ->
  length bs = 23%nat /\ unpack_bQiQH bs = Ok (op, tid, fr, ts, len).
Proof.
  unfold pack_bQiQH.
  destruct (pack_signed 1 op) as [b|] eqn:Eb; [|discriminate].
  destruct (pack_unsigned 8 tid) as [q|] eqn:Eq; [|discriminate].
  destruct (pack_signed 4 fr) as [i|] eqn:Ei; [|discriminate].
  destruct (pack_unsigned 8 ts) as [q'|] eqn:Eq'; [|discriminate].
  destruct (pack_unsigned 2 len) as [h|] eqn:Eh; [|discriminate].
  cbn [rbind]. intros [= <-].
  apply pack_signed_inv in Eb as [Lb Vb]; [|lia].
  apply pack_unsigned_inv in Eq as [Lq Vq].
  apply pack_signed_inv in Ei as [Li Vi]; [|lia].
  apply pack_unsigned_inv in Eq' as [Lq' Vq'].
  apply pack_unsigned_inv in Eh as [Lh Vh].
  assert (length (b ++ q ++ i ++ q' ++ h) = 23%nat) as Hlen.
  { rewrite !length_app. lia. }
  split; [done|].
  unfold unpack_bQiQH. rewrite Hlen. simpl Nat.eqb. cbv iota.
  rewrite (read_app b _ 1 Lb), (read_app q _ 8 Lq), (read_app i _ 4 Li),
          (read_app q' _ 8 Lq').
  replace h with (h ++ []) at 1 by apply app_nil_r.
  rewrite (read_app h _ 2 Lh).
  by rewrite Vb, Vq, Vi, Vq', Vh.
Qed.

Lemma length_list_byte_of_string s :
  length (String.list_byte_of_string s) = String.length s.
Proof.
  unfold String.list_byte_of_string. rewrite length_map.
  induction s as [|c s IH]; simpl; [done | by rewrite IH].
Qed.

Lemma encode_ascii_inv s bs :
  encode_ascii s = Ok bs ->
  bs = String.list_byte_of_string s /\ forallb is_ascii bs = true.
Proof.
  unfold encode_ascii.
  destruct (forallb is_ascii (String.list_byte_of_string s)) eqn:E; [|discriminate].
  by intros [= <-].
Qed.

(** Does [b"::"] occur in the bytes? *)
Fixpoint has_sep (bs : list byte) : bool :=
  match bs with
  | [] => false
  | b1 :: t =>
    match t with
    | b2 :: _ => (Byte.eqb b1 colon && Byte.eqb b2 colon) || has_sep t
    | [] => false
    end
  end.

Lemma replace_sep_cons2 b1 b2 r :
  replace_sep (b1 :: b2 :: r) =
  if Byte.eqb b1 colon && Byte.eqb b2 colon
  then dot :: replace_sep r
  else b1 :: replace_sep (b2 :: r).
Proof. reflexivity. Qed.

Lemma has_sep_cons2 b1 b2 r :
  has_sep (b1 :: b2 :: r) =
  (Byte.eqb b1 colon && Byte.eqb b2 colon) || has_sep (b2 :: r).
Proof. reflexivity. Qed.

Lemma replace_sep_id bs : has_sep bs = false -> replace_sep bs = bs.
Proof.
  induction bs as [|b1 t IH]; [done|].
  destruct t as [|b2 r]; [done|].
  rewrite has_sep_cons2, replace_sep_cons2.
  intros H. apply orb_false_iff in H as [Ht Hs].
  rewrite Ht. f_equal. by apply IH.
Qed.

Lemma replace_sep_ascii bs :
  forallb is_ascii bs = true -> forallb is_ascii (replace_sep bs) = true.
Proof.
  remember (length bs) as n eqn:Hn.
  revert bs Hn. induction (lt_wf n) as [n _ IH]. intros bs -> H.
  destruct bs as [|b1 [|b2 r]]; [done | done |].
  rewrite replace_sep_cons2.
  cbn [forallb] in H. apply andb_true_iff in H as [H1 H2].
  apply andb_true_iff in H2 as [H2 H3].
  destruct (Byte.eqb b1 colon && Byte.eqb b2 colon).
  - cbn [forallb]. apply andb_true_iff. split; [done|].
    eapply IH; [| reflexivity | done]. simpl. lia.
  - cbn [forallb]. apply andb_true_iff. split; [done|].
    eapply (IH (length (b2 :: r))); [| reflexivity |]; [simpl; lia|].
    cbn [forallb]. by rewrite H2, H3.
Qed.

(** A name as it comes back from the reader. *)
Definition read_back (s : string) : string :=
  String.string_of_list_byte (replace_sep (String.list_byte_of_string s)).

Definition read_back_rec (d : Recording string) : Recording string :=
  mkRecording (operation d) (rec_thread d) (frameId d) (timestamp d)
              (read_back (rec_name d)).

Definition bytes_rec (d : Recording string) : Recording (list byte) :=
  mkRecording (operation d) (rec_thread d) (frameId d) (timestamp d)
              (replace_sep (String.list_byte_of_string (rec_name d))).

Lemma read_written datas : forall body,
  write_records datas = Ok body ->
  read_records (length datas) body = Ok (map bytes_rec datas)
  /\ decode_names (map bytes_rec datas) = Ok (map read_back_rec datas).
Proof.
  induction datas as [|d ds IH]; intros body H; simpl in H.
  - by injection H as <-.
  - unfold write_record in H.
    destruct (pack_bQiQH _ _ _ _ _) as [hdr|] eqn:Eh; [|discriminate].
    destruct (encode_ascii _) as [nm|] eqn:En; [|discriminate].
    cbn [rbind] in H.
    destruct (write_records ds) as [rs|] eqn:Er; [|discriminate].
    cbn [rbind] in H. injection H as <-.
    apply unpack_pack_bQiQH in Eh as [Lh Uh].
    apply encode_ascii_inv in En as [-> Ha].
    destruct (IH rs eq_refl) as [IHr IHd].
    split.
    + cbn [length read_records]. rewrite <- !app_assoc.
      rewrite (read_app hdr _ _ Lh), Uh. cbn [rbind].
      rewrite read_app by (rewrite length_list_byte_of_string; lia).
      by rewrite IHr.
    + cbn [map decode_names]. unfold decode_name at 1, decode_ascii.
      cbn [bytes_rec rec_name]. rewrite replace_sep_ascii by done.
      cbn [rbind]. by rewrite IHd.
Qed.

(** Whatever the writer accepts, the reader returns with ["::"] in the
    names replaced by ["."]. *)
Lemma decode_encode datas file :
  encode datas = Ok file ->
  decode file = Ok (Binary (map read_back_rec datas)).
Proof.
  unfold encode, write_binary.
  destruct (pack_L magic) as [m|] eqn:Em; [|discriminate].
  destruct (pack_L (Z.of_nat (length datas))) as [c|] eqn:Ec; [|discriminate].
  destruct (write_records datas) as [body|] eqn:Eb; [|discriminate].
  cbn [rbind]. intros [= <-].
  pose proof Em as Lm. apply pack_unsigned_inv in Lm as [Lm _].
  pose proof Ec as Lc. apply pack_unsigned_inv in Lc as [Lc _].
  apply unpack_L_pack in Em, Ec.
  destruct (read_written datas body Eb) as [Hr Hd].
  unfold decode, read_log.
  rewrite (read_app m _ 4 Lm), Em. cbn [rbind]. rewrite Z.eqb_refl.
  rewrite (read_app c _ 4 Lc), Ec. cbn [rbind].
  rewrite Nat2Z.id, Hr. cbn [rbind]. by rewrite Hd.
Qed.

(** The sequences the writer accepts. *)
Definition valid_recording (d : Recording string) : bool :=
  (-128 <=? operation d) && (operation d <? 128)
  && (0 <=? rec_thread d) && (rec_thread d <? 2 ^ 64)
  && (- 2 ^ 31 <=? frameId d) && (frameId d <? 2 ^ 31)
  && (0 <=? timestamp d) && (timestamp d <? 2 ^ 64)
  && (Z.of_nat (String.length (rec_name d)) <? 2 ^ 16)
  && forallb is_ascii (String.list_byte_of_string (rec_name d)).

Definition valid_log (datas : list (Recording string)) : bool :=
  forallb valid_recording datas && (Z.of_nat (length datas) <? 2 ^ 32).

Definition no_sep (d : Recording string) : bool :=
  negb (has_sep (String.list_byte_of_string (rec_name d))).

Lemma write_record_ok d :
  valid_recording d = true -> exists bs, write_record d = Ok bs.
Proof.
  unfold valid_recording. rewrite !andb_true_iff.
  intros [[[[[[[[[H1 H2] H3] H4] H5] H6] H7] H8] H9] H10].
  unfold write_record, pack_bQiQH.
  rewrite pack_signed_ok by (change (2 ^ (bits 1 - 1)) with 128; lia).
  rewrite pack_unsigned_ok by (change (2 ^ bits 8) with (2 ^ 64); lia).
  rewrite pack_signed_ok by (change (2 ^ (bits 4 - 1)) with (2 ^ 31); lia).
  rewrite pack_unsigned_ok by (change (2 ^ bits 8) with (2 ^ 64); lia).
  rewrite pack_unsigned_ok by (change (2 ^ bits 2) with (2 ^ 16); lia).
  cbn [rbind]. unfold encode_ascii. rewrite H10. cbn [rbind]. eauto.
Qed.

Lemma write_records_ok datas :
  forallb valid_recording datas = true -> exists bs, write_records datas = Ok bs.
Proof.
  induction datas as [|d ds IH]; simpl; [eauto|].
  rewrite andb_true_iff. intros [Hd Hds].
  destruct (write_record_ok d Hd) as [r ->].
  destruct (IH Hds) as [rs ->]. cbn [rbind]. eauto.
Qed.

Lemma encode_ok datas :
  valid_log datas = true -> exists file, encode datas = Ok file.
Proof.
  unfold valid_log. rewrite andb_true_iff. intros [Hv Hl].
  unfold encode, write_binary, pack_L.
  rewrite pack_unsigned_ok by (change (2 ^ bits 4) with (2 ^ 32); unfold magic; lia).
  rewrite pack_unsigned_ok by (change (2 ^ bits 4) with (2 ^ 32); lia).
  destruct (write_records_ok datas Hv) as [body ->].
  cbn [rbind]. eauto.
Qed.

Lemma read_back_rec_id d : no_sep d = true -> read_back_rec d = d.
Proof.
  unfold no_sep, read_back_rec, read_back. intros H.
  apply negb_true_iff in H. rewrite replace_sep_id by done.
  rewrite String.string_of_list_byte_of_string. by destruct d.
Qed.

End CodecFacts.

(** ** Replay of a recorded event stream *)

Module Replay.
Import Codec.

(** The variables of the replay loop.  A timer is reachable only through
    the stack that holds it, so the stacks hold the timers themselves. *)
Record State : Type := mkState {
  stacks : gmap Z (list PerfTimer);
  lastEnd : gmap Z (gmap Z (option Q));
  perfQueue : list Completed;
  annotations : list Annotation
}.

Definition initial : State := mkState ∅ ∅ [] [].

(** [timestamp /= 1000 * 1000 * 1000] *)
Definition seconds (timestamp : Z) : Q := inject_Z timestamp / (1000 * 1000 * 1000).

(** [lastEnd.get(threadId, {}).get(frameId, None)] *)
Definition pending (le : gmap Z (gmap Z (option Q))) (threadId frameId : Z)
  : option Q :=
  mjoin (default ∅ (le !! threadId) !! frameId).

(** [lastEnd.setdefault(threadId, {})[frameId] = v] *)
Definition set_pending (le : gmap Z (gmap Z (option Q))) (threadId frameId : Z)
  (v : option Q) : gmap Z (gmap Z (option Q)) :=
  <[threadId := <[frameId := v]> (default ∅ (le !! threadId))]> le.

(** [stacks[threadId][-1]], when the [try] of the Enter branch finds it. *)
Definition open_region (st : State) (threadId : Z) : option PerfTimer :=
  match stacks st !! threadId with
  | Some stk => peek 0 stk
  | None => None
  end.

Definition enter (st : State) (threadId frameId : Z) (timestamp : Q) (name : string)
  : State :=
  let timer :=
    mkTimer (if (0 <=? frameId)%Z then Some frameId else None)
            name 0 0 0 0 name threadId in
  match stacks st !! threadId, open_region st threadId with
  | Some stk, Some prev =>
    let charge p := set_exclusive p (exclusive p + (timestamp - excstart p)) in
    let timer' := set_scopeName timer (scopeName prev ++ "::" ++ blockName timer) in
    let timer'' := set_excstart (set_incstart timer' timestamp) timestamp in
    mkState (<[threadId := mutate 0 charge stk ++ [timer'']]> (stacks st))
            (lastEnd st) (perfQueue st) (annotations st)
  | _, _ =>
    let timer'' := set_excstart (set_incstart timer timestamp) timestamp in
    match pending (lastEnd st) threadId frameId with
    | Some lastEndThisFrameAndThread =>
      let duration := timestamp - lastEndThisFrameAndThread in
      mkState (<[threadId := [timer'']]> (stacks st))
              (set_pending (lastEnd st) threadId frameId None)
              (perfQueue st ++
                 [mkCompleted "<unknown>" duration duration threadId
                              (Some frameId) lastEndThisFrameAndThread timestamp])
              (annotations st)
    | None =>
      mkState (<[threadId := [timer'']]> (stacks st))
              (lastEnd st) (perfQueue st) (annotations st)
    end
  end.

Definition exit (st : State) (threadId frameId : Z) (timestamp : Q)
  : result State :=
  match stacks st !! threadId with
  | None => Raise KeyError
  | Some stk =>
    match peek 0 stk with
    | None => Raise IndexError
    | Some timer =>
      let '(stk1, lastEnd1) :=
        match peek 1 stk with
        | Some _ =>
          (mutate 1 (fun prev => set_excstart prev timestamp) stk, lastEnd st)
        | None =>
          (stk, set_pending (lastEnd st) threadId frameId (Some timestamp))
        end in
      let timer1 :=
        set_exclusive timer (exclusive timer + (timestamp - excstart timer)) in
      let timer2 := set_inclusive timer1 (timestamp - incstart timer1) in
      Ok (mkState (<[threadId := removelast stk1]> (stacks st))
                  lastEnd1
                  (perfQueue st ++ [completed_of timer2 timestamp])
                  (annotations st))
    end
  end.

(** One pass of the loop over [recordings]. *)
Definition step (st : State) (recording : Recording string) : result State :=
  let threadId := rec_thread recording in
  let frameId := frameId recording in
  let timestamp := seconds (timestamp recording) in
  let name := rec_name recording in
  if (operation recording =? Operation_Enter)%Z then
    Ok (enter st threadId frameId timestamp name)
  else if (operation recording =? Operation_Exit)%Z then
    exit st threadId frameId timestamp
  else if (operation recording =? Operation_Note)%Z then
    Ok (mkState (stacks st) (lastEnd st) (perfQueue st)
                (annotations st ++
                   [mkAnnotation name threadId (Some frameId) timestamp]))
  else Raise SystemExit.

Fixpoint replay (st : State) (recordings : list (Recording string))
  : result State :=
  match recordings with
  | [] => Ok st
  | recording :: rest => st' <~ step st recording ;; replay st' rest
  end.

Definition Enter (threadId frameId : Z) (name : string) (timestamp : Z)
  : Recording string :=
  mkRecording Operation_Enter threadId frameId timestamp name.

Definition Exit (threadId frameId : Z) (timestamp : Z) : Recording string :=
  mkRecording Operation_Exit threadId frameId timestamp "".

End Replay.

(** ** Aggregation and the text report *)

Module Report.

Inductive ReportMode : Set := TREE | FLAT | HTML.

(** The 7-slot list kept per key, in the order of [Position]. *)
Record Entry : Type := mkEntry {
  Inclusive : Q;
  Exclusive : Q;
  Count : Z;
  MaxInc : Q;
  MaxExc : Q;
  MinInc : Q;
  MinExc : Q
}.

(** [[0,0,0,0,0,999999999,999999999]] *)
Definition fresh_entry : Entry := mkEntry 0 0 0 0 0 999999999 999999999.

(** [max(a, b)] and [min(a, b)] of Python: [b] only when it is strictly
    greater (smaller) than [a]. *)
Definition pymax (a b : Q) : Q :=
  match a ?= b with Lt => b | _ => a end.

Definition pymin (a b : Q) : Q :=
  match b ?= a with Lt => b | _ => a end.

(** The text after the last ["::"] of [s], if ["::"] occurs in it. *)
Fixpoint after_last_sep (s : string) : option string :=
  match s with
  | EmptyString => None
  | String c rest =>
    match after_last_sep rest with
    | Some k => Some k
    | None =>
      match rest with
      | String c' r =>
        if String.eqb (String c (String c' EmptyString)) "::"
        then Some r else None
      | EmptyString => None
      end
    end
  end.

(** [split = s.rsplit("::", 1)]; [split[1]] when there are two parts,
    [split[0]] otherwise. *)
Definition flat_key (s : string) : string :=
  default s (after_last_sep s).

Definition key_of (reportMode : ReportMode) (scope : string) : string :=
  match reportMode with
  | FLAT => flat_key scope
  | _ => scope
  end.

(** [report.setdefault(key, fresh)] followed by the seven updates. *)
Definition record (report : gmap string Entry) (key : string) (inc exc : Q)
  : gmap string Entry :=
  let e := default fresh_entry (report !! key) in
  <[key := mkEntry (Inclusive e + inc) (Exclusive e + exc) (Count e + 1)
                   (pymax inc (MaxInc e)) (pymax exc (MaxExc e))
                   (pymin inc (MinInc e)) (pymin exc (MinExc e))]> report.

(** One pass of the loop that drains [perfQueue]. *)
Definition tally (reportMode : ReportMode)
  (acc : gmap string Entry * gmap Z (gmap string Entry)) (pair : Completed)
  : gmap string Entry * gmap Z (gmap string Entry) :=
  let key := key_of reportMode (ce_scope pair) in
  (record (fst acc) key (ce_inclusive pair) (ce_exclusive pair),
   <[ce_thread pair :=
       record (default ∅ (snd acc !! ce_thread pair)) key
              (ce_inclusive pair) (ce_exclusive pair)]> (snd acc)).

Definition aggregate (reportMode : ReportMode) (queue : list Completed)
  : gmap string Entry * gmap Z (gmap string Entry) :=
  fold_left (tally reportMode) queue (∅, ∅).

Definition fullreport (reportMode : ReportMode) (queue : list Completed)
  : gmap string Entry :=
  fst (aggregate reportMode queue).

Definition threadreports (reportMode : ReportMode) (queue : list Completed)
  : gmap Z (gmap string Entry) :=
  snd (aggregate reportMode queue).

(** What the text report hands to [output]: one table per call of
    [_printReport] on a report that is not empty.  The layout of a table
    in lines of text is the renderer's business and is not modelled. *)
Inductive Title : Type :=
  | WorkerThread (threadId : Z)
  | MainThread
  | Cumulative.

Inductive Table : Type :=
  | mkTable (title : Title) (report : gmap string Entry).

Definition _printReport (report : gmap string Entry) (title : Title)
  : list Table :=
  if decide (report = ∅) then [] else [mkTable title report].

Inductive Outcome : Type :=
  | Silent
  | HtmlPage
  | Text (tables : list Table).

(** The keys of [threadreports] in the order in which [setdefault]
    created them while the queue was drained.  A dictionary lists its
    items in the order of insertion (Python 3.7 and later), so this is
    the order of the loop over [threadreports.items()]. *)
Definition thread_order (queue : list Completed) : list Z :=
  fold_left (fun keys item =>
               if decide (ce_thread item ∈ keys) then keys
               else keys ++ [ce_thread item])
            queue [].

(** [threads.items()], for a dictionary whose keys were inserted in the
    order [keys]. *)
Definition items (threads : gmap Z (gmap string Entry)) (keys : list Z)
  : list (Z * gmap string Entry) :=
  omap (fun threadId => (fun report => (threadId, report)) <$> threads !! threadId)
       keys.

(** [_printPerfReport], called on thread [current] with [perfQueue]
    holding [queue].  The annotations it drains are used by the HTML
    branch only, and of that branch only the fact that it was taken is
    kept. *)
Definition _printPerfReport (reportMode : ReportMode) (queue : list Completed)
  (current : Z) : result Outcome :=
  let '(full, threads) := aggregate reportMode queue in
  if decide (full = ∅) then Ok Silent
  else
    match reportMode with
    | HTML => Ok HtmlPage
    | _ =>
      let workers :=
        flat_map (fun '(threadId, report) =>
                    if decide (threadId = current) then []
                    else _printReport report (WorkerThread threadId))
                 (items threads (thread_order queue)) in
      match threads !! current with
      | None => Raise KeyError
      | Some report =>
        Ok (Text (workers ++ _printReport report MainThread
                    ++ (if decide (size threads = 1%nat) then []
                        else _printReport full Cumulative)))
      end
    end.

(** *** The first loop of [PrintPerfReport] *)

Record Frames : Type := mkFrames {
  elementsByFrame : gmap (option Z) (list Completed);
  earliestByFrame : gmap (option Z) Q;
  latestByFrame : gmap (option Z) Q;
  allFramesQueue : list Completed;
  annotationsByFrame : gmap (option Z) (list Annotation)
}.

Definition no_frames : Frames := mkFrames ∅ ∅ ∅ [] ∅.

(** Reading a local variable of a function: [UnboundLocalError] while no
    assignment to it has run. *)
Definition read_local {A} (v : option A) : result A :=
  match v with
  | Some x => Ok x
  | None => Raise UnboundLocalError
  end.

(** [PerfTimer.minFrameTime is not None and (duration * 1000) < PerfTimer.minFrameTime] *)
Definition below_minimum (minFrameTime : option Q) (duration : option Q)
  : result bool :=
  match minFrameTime with
  | None => Ok false
  | Some m =>
    d <~ read_local duration ;;
    Ok (match d * 1000 ?= m with Lt => true | _ => false end)
  end.

(** The body of the loop, for the tuple [pair] popped from the queue. *)
Definition bucket (minFrameTime : option Q) (duration : option Q)
  (fs : Frames) (pair : Completed) : result Frames :=
  let frame := ce_frame pair in
  bounds <~
    match earliestByFrame fs !! frame with
    | Some e =>
      match latestByFrame fs !! frame with
      | Some l =>
        Ok (<[frame := pymin e (ce_start pair)]> (earliestByFrame fs),
            <[frame := pymax l (ce_end pair)]> (latestByFrame fs))
      | None => Raise KeyError
      end
    | None =>
      Ok (<[frame := ce_start pair]> (earliestByFrame fs),
          <[frame := ce_end pair]> (latestByFrame fs))
    end ;;
  skip <~ below_minimum minFrameTime duration ;;
  if skip : bool then
    Ok (mkFrames (elementsByFrame fs) (fst bounds) (snd bounds)
                 (allFramesQueue fs) (annotationsByFrame fs))
  else
    Ok (mkFrames
          (<[frame := default [] (elementsByFrame fs !! frame) ++ [pair]]>
             (elementsByFrame fs))
          (fst bounds) (snd bounds)
          (allFramesQueue fs ++ [pair])
          (<[frame := []]> (annotationsByFrame fs))).

Fixpoint drain (minFrameTime : option Q) (duration : option Q)
  (fs : Frames) (queue : list Completed) : result Frames :=
  match queue with
  | [] => Ok fs
  | item :: rest =>
    fs' <~ bucket minFrameTime duration fs item ;;
    drain minFrameTime duration fs' rest
  end.

(** Lines 544 to 566 of [PrintPerfReport].  [duration] is a local of the
    function whose only assignment is in the later loop over the frames,
    so no assignment to it has run when this loop reads it. *)
Definition PrintPerfReport_frames (minFrameTime : option Q)
  (queue : list Completed) : result Frames :=
  let duration : option Q := None in
  drain minFrameTime duration no_frames queue.

(** The span of a frame, as the later loop computes [duration]. *)
Definition frame_span (fs : Frames) (key : option Z) : option Q :=
  match latestByFrame fs !! key, earliestByFrame fs !! key with
  | Some l, Some e => Some (l - e)
  | _, _ => None
  end.

End Report.

(** ** Facts about replay and aggregation *)

Module ReplayFacts.
Import Codec Replay.

Lemma pending_set le threadId frameId v :
  pending (set_pending le threadId frameId v) threadId frameId = v.
Proof.
  unfold pending, set_pending. rewrite lookup_insert_eq. simpl.
  by rewrite lookup_insert_eq.
Qed.

(** An Enter that finds no open region on its thread. *)
Lemma enter_outermost st threadId frameId timestamp name :
  open_region st threadId = None ->
  enter st threadId frameId timestamp name =
  let timer :=
    mkTimer (if (0 <=? frameId)%Z then Some frameId else None)
            name timestamp timestamp 0 0 name threadId in
  match pending (lastEnd st) threadId frameId with
  | Some b =>
    mkState (<[threadId := [timer]]> (stacks st))
            (set_pending (lastEnd st) threadId frameId None)
            (perfQueue st ++
               [mkCompleted "<unknown>" (timestamp - b) (timestamp - b)
                            threadId (Some frameId) b timestamp])
            (annotations st)
  | None =>
    mkState (<[threadId := [timer]]> (stacks st))
            (lastEnd st) (perfQueue st) (annotations st)
  end.
Proof.
  intros H. unfold enter. rewrite H.
  by destruct (stacks st !! threadId).
Qed.

(** An Enter under an open region appends nothing to the queue. *)
Lemma enter_nested_queue st threadId frameId timestamp name prev :
  open_region st threadId = Some prev ->
  perfQueue (enter st threadId frameId timestamp name) = perfQueue st.
Proof.
  intros H. unfold enter. rewrite H.
  unfold open_region in H.
  by destruct (stacks st !! threadId).
Qed.

(** An Exit that closes the only open region of its thread. *)
Lemma exit_outermost st threadId frameId timestamp timer :
  stacks st !! threadId = Some [timer] ->
  exit st threadId frameId timestamp =
  let timer1 :=
    set_exclusive timer (exclusive timer + (timestamp - excstart timer)) in
  let timer2 := set_inclusive timer1 (timestamp - incstart timer1) in
  Ok (mkState (<[threadId := []]> (stacks st))
              (set_pending (lastEnd st) threadId frameId (Some timestamp))
              (perfQueue st ++ [completed_of timer2 timestamp])
              (annotations st)).
Proof. intros H. unfold exit. by rewrite H. Qed.

End ReplayFacts.

Module ReportFacts.
Import Report.

Lemma pymax_floor d : 0 <= d -> pymax d 0 = d.
Proof.
  intros H. unfold pymax. destruct (d ?= 0) eqn:E; try done.
  apply Qlt_alt in E. lra.
Qed.

Lemma pymin_ceiling d : d <= 999999999 -> pymin d 999999999 = d.
Proof.
  intros H. unfold pymin. destruct (999999999 ?= d) eqn:E; try done.
  apply Qlt_alt in E. lra.
Qed.

(** [after_last_sep] cuts at the last ["::"]: what it returns follows a
    ["::"] of [s] and has no ["::"] in it. *)
Lemma after_last_sep_spec s : forall k,
  after_last_sep s = Some k ->
  (exists p, s = p +:+ "::" +:+ k) /\ after_last_sep k = None.
Proof.
  induction s as [|c rest IH]; intros k H; cbn [after_last_sep] in H;
    [discriminate|].
  destruct (after_last_sep rest) as [k'|] eqn:E.
  - injection H as ->. destruct (IH k eq_refl) as [[p ->] Hk].
    split; [by exists (String c p) | done].
  - destruct rest as [|c' r]; [discriminate|].
    destruct (String.eqb _ _) eqn:Eq; [|discriminate].
    injection H as ->. apply String.eqb_eq in Eq. injection Eq as -> ->.
    split; [by exists EmptyString|].
    cbn [after_last_sep] in E. by destruct (after_last_sep k).
Qed.

Lemma record_first report key inc exc :
  report !! key = None ->
  record report key inc exc !! key =
  Some (mkEntry (0 + inc) (0 + exc) 1
                (pymax inc 0) (pymax exc 0)
                (pymin inc 999999999) (pymin exc 999999999)).
Proof.
  intros H. unfold record. rewrite H. simpl. by rewrite lookup_insert_eq.
Qed.

Lemma record_nonempty report key inc exc : record report key inc exc <> ∅.
Proof. unfold record. apply insert_non_empty. Qed.

Lemma tally_threads_other reportMode queue : forall acc t,
  Forall (fun ev => ce_thread ev <> t) queue ->
  snd (fold_left (tally reportMode) queue acc) !! t = snd acc !! t.
Proof.
  induction queue as [|ev queue IH]; intros acc t H; [done|].
  inversion H as [|? ? Hev Hrest]; subst.
  simpl. rewrite IH by done. simpl. by rewrite lookup_insert_ne.
Qed.

Lemma tally_full_grows reportMode queue : forall acc,
  fst acc <> ∅ -> fst (fold_left (tally reportMode) queue acc) <> ∅.
Proof.
  induction queue as [|ev queue IH]; intros acc H; [done|].
  simpl. apply IH. simpl. apply record_nonempty.
Qed.

Lemma fullreport_nonempty reportMode queue :
  queue <> [] -> fullreport reportMode queue <> ∅.
Proof.
  destruct queue as [|ev queue]; [done|]. intros _.
  unfold fullreport, aggregate. simpl. apply tally_full_grows.
  simpl. apply record_nonempty.
Qed.

Lemma threadreports_absent reportMode queue t :
  Forall (fun ev => ce_thread ev <> t) queue ->
  threadreports reportMode queue !! t = None.
Proof.
  intros H. unfold threadreports, aggregate.
  rewrite tally_threads_other by done. simpl. apply lookup_empty.
Qed.

End ReportFacts.

(** * Properties of the specification *)

Module Properties.
Import Live LiveFacts Regions.

(** C7.  With [_collecting] false, [__enter__], [__exit__] and [Note]
    return with the whole state as it was: the queue of completed
    events, the queue of annotations and the stack of the calling thread
    are unchanged. *)
Theorem C7_disabled_no_work st tid self now txt fr :
  _collecting st = false ->
  __enter__ st tid self now = Ok st
  /\ __exit__ st tid self now = Ok st
  /\ Note st tid txt fr now = Ok st.
Proof.
  intros H. unfold __enter__, __exit__, Note. by rewrite H.
Qed.

Lemma C7_witness :
  _collecting (DisablePerfTracking initial) = false
  /\ __enter__ (DisablePerfTracking initial) 7 0 100 = Ok (DisablePerfTracking initial)
  /\ __exit__ (DisablePerfTracking initial) 7 0 100 = Ok (DisablePerfTracking initial)
  /\ Note (DisablePerfTracking initial) 7 "n" None 100 = Ok (DisablePerfTracking initial).
Proof.
  split; [reflexivity|].
  exact (C7_disabled_no_work (DisablePerfTracking initial) 7%Z 0%nat 100
           "n" None eq_refl).
Defined.

Import Codec CodecFacts.

Definition log_with_separator : list (Recording string) :=
  [mkRecording Operation_Enter 1 0 0 "a::b"].

(** C2, as stated, fails: the one-record log whose name is ["a::b"] is
    ASCII and fits every field, and it is read back with the name
    ["a.b"]. *)
Lemma C2_counterexample :
  valid_log log_with_separator = true
  /\ exists file,
       encode log_with_separator = Ok file
       /\ decode file = Ok (Binary [mkRecording Operation_Enter 1 0 0 "a.b"])
       /\ decode file <> Ok (Binary log_with_separator).
Proof.
  split; [reflexivity|].
  destruct (encode log_with_separator) as [file|] eqn:E; [|discriminate].
  exists file. vm_compute in E. injection E as <-.
  split; [reflexivity|]. split; [vm_compute; reflexivity | vm_compute; discriminate].
Qed.

(** C2, amended.  A log whose names are ASCII and whose fields fit the
    widths of the format is written without error, and reading the file
    back gives the same records, field for field, except that every
    ["::"] in a name has become ["."]; when no name contains ["::"] the
    log read back is the log written. *)
Theorem C2_round_trip datas :
  valid_log datas = true ->
  exists file,
    encode datas = Ok file
    /\ decode file = Ok (Binary (map read_back_rec datas))
    /\ (forallb no_sep datas = true -> decode file = Ok (Binary datas)).
Proof.
  intros Hv. destruct (encode_ok datas Hv) as [file E].
  exists file. split; [exact E|].
  pose proof (decode_encode datas file E) as D. split; [exact D|].
  intros Hs. rewrite D. do 2 f_equal.
  clear -Hs. induction datas as [|d ds IH]; [done|].
  simpl in Hs. apply andb_true_iff in Hs as [Hd Hds].
  simpl. by rewrite read_back_rec_id, IH.
Qed.

Definition log_sample : list (Recording string) :=
  [mkRecording Operation_Enter 1 (-1) 258 "DemoFunc_0_0";
   mkRecording Operation_Exit 1 (-1) 300 ""].

Lemma C2_witness :
  valid_log log_sample = true
  /\ exists file,
       encode log_sample = Ok file
       /\ decode file = Ok (Binary (map read_back_rec log_sample))
       /\ (forallb no_sep log_sample = true -> decode file = Ok (Binary log_sample)).
Proof.
  split; [reflexivity|].
  exact (C2_round_trip log_sample eq_refl).
Defined.

Import Report ReportFacts.

(** C3.  With a minimum frame time configured, the first loop of
    [PrintPerfReport] raises [UnboundLocalError] at the first event it
    takes from the queue, whatever the span of that event's frame: no
    frame is kept and none is dropped.  With one event of frame 0 that
    spans a second and a minimum of 5 ms the report raises, although
    without a minimum the event is kept. *)
Theorem C3_min_frame_time_raises :
  (forall m item queue,
     PrintPerfReport_frames (Some m) (item :: queue) = Raise UnboundLocalError)
  /\ PrintPerfReport_frames (Some 5) [mkCompleted "A" 1 1 1 (Some 0%Z) 0 1]
     = Raise UnboundLocalError
  /\ exists fs,
       PrintPerfReport_frames None [mkCompleted "A" 1 1 1 (Some 0%Z) 0 1] = Ok fs
       /\ frame_span fs (Some 0%Z) = Some (1 - 0)
       /\ elementsByFrame fs !! Some 0%Z = Some [mkCompleted "A" 1 1 1 (Some 0%Z) 0 1].
Proof.
  split; [|split].
  - intros m item queue. unfold PrintPerfReport_frames. simpl.
    unfold bucket. simpl. by rewrite lookup_empty.
  - reflexivity.
  - eexists. split; [reflexivity|]. split; reflexivity.
Qed.

Import ReplayFacts.

(** C4, as stated, fails: a stream that begins with an Exit for a thread
    with no Enter before it stops the replay with [KeyError] at its
    first record. *)
Lemma C4_counterexample :
  Replay.replay Replay.initial
    [Replay.Exit 1 0 100; Replay.Enter 1 0 "X" 150]
  = Raise KeyError
  /\ Replay.step Replay.initial (Replay.Exit 1 0 100) = Raise KeyError.
Proof. split; reflexivity. Qed.

Definition scope_span (ev : Completed) : string * Q * Q :=
  (ce_scope ev, ce_start ev, ce_end ev).

(** C4, amended.  An Exit that closes the only open region of its thread
    does not fail: it appends that region's event and records its
    timestamp as the pending boundary of the thread and frame.  An Enter
    for the same thread and frame that follows it appends one
    [<unknown>] event from the pending boundary to its own timestamp,
    clears the boundary and opens the new region.  Replaying
    Enter W at 50, Exit at 100, Enter X at 150, Exit at 170 on one
    thread and frame gives the events W, [<unknown>] from 100 to 150,
    and X, in this order. *)
Theorem C4_exit_of_outermost_then_enter :
  (forall st threadId frameId tExit tEnter name timer,
     Replay.stacks st !! threadId = Some [timer] ->
     let d := Replay.seconds tEnter - Replay.seconds tExit in
     exists st1 st2 ev,
       Replay.step st (Replay.Exit threadId frameId tExit) = Ok st1
       /\ Replay.perfQueue st1 = Replay.perfQueue st ++ [ev]
       /\ ce_scope ev = scopeName timer
       /\ ce_end ev = Replay.seconds tExit
       /\ Replay.pending (Replay.lastEnd st1) threadId frameId
          = Some (Replay.seconds tExit)
       /\ Replay.step st1 (Replay.Enter threadId frameId name tEnter) = Ok st2
       /\ Replay.perfQueue st2 =
          Replay.perfQueue st1
            ++ [mkCompleted "<unknown>" d d threadId (Some frameId)
                            (Replay.seconds tExit) (Replay.seconds tEnter)]
       /\ Replay.pending (Replay.lastEnd st2) threadId frameId = None
       /\ scopeName <$> Replay.open_region st2 threadId = Some name)
  /\
  (exists st',
     Replay.replay Replay.initial
       [Replay.Enter 1 0 "W" 50; Replay.Exit 1 0 100;
        Replay.Enter 1 0 "X" 150; Replay.Exit 1 0 170] = Ok st'
     /\ map scope_span (Replay.perfQueue st') =
        [("W", Replay.seconds 50, Replay.seconds 100);
         ("<unknown>", Replay.seconds 100, Replay.seconds 150);
         ("X", Replay.seconds 150, Replay.seconds 170)]).
Proof.
  split.
  - intros st threadId frameId tExit tEnter name timer Hstk d.
    assert (Replay.step st (Replay.Exit threadId frameId tExit)
            = Replay.exit st threadId frameId (Replay.seconds tExit)) as E1
      by reflexivity.
    rewrite (exit_outermost _ _ _ _ _ Hstk) in E1. cbv zeta in E1.
    match type of E1 with _ = Ok ?x => set (st1 := x) in E1 end.
    assert (Replay.open_region st1 threadId = None) as Hopen.
    { unfold Replay.open_region. simpl. by rewrite lookup_insert_eq. }
    assert (Replay.pending (Replay.lastEnd st1) threadId frameId
            = Some (Replay.seconds tExit)) as Hpend
      by apply pending_set.
    assert (Replay.step st1 (Replay.Enter threadId frameId name tEnter)
            = Ok (Replay.enter st1 threadId frameId (Replay.seconds tEnter) name))
      as E2 by reflexivity.
    rewrite (enter_outermost _ _ _ _ _ Hopen) in E2. cbv zeta in E2.
    rewrite Hpend in E2.
    match type of E2 with _ = Ok ?x => set (st2 := x) in E2 end.
    exists st1, st2. eexists. split; [exact E1|].
    split; [reflexivity|]. split; [reflexivity|]. split; [reflexivity|].
    split; [exact Hpend|]. split; [exact E2|]. split; [reflexivity|].
    split; [apply pending_set|].
    unfold Replay.open_region. simpl. by rewrite lookup_insert_eq.
  - eexists. split; [vm_compute; reflexivity|]. vm_compute. reflexivity.
Qed.

Lemma C4_witness :
  Replay.stacks (Replay.enter Replay.initial 1 0 (Replay.seconds 50) "W") !! 1%Z
  = Some [mkTimer (Some 0%Z) "W" (Replay.seconds 50) (Replay.seconds 50) 0 0 "W" 1]
  /\ exists st1 st2 ev,
       Replay.step (Replay.enter Replay.initial 1 0 (Replay.seconds 50) "W")
                   (Replay.Exit 1 0 100) = Ok st1
       /\ Replay.perfQueue st1 = [ev]
       /\ ce_scope ev = "W"
       /\ Replay.step st1 (Replay.Enter 1 0 "X" 150) = Ok st2
       /\ Replay.perfQueue st2 =
          [ev; mkCompleted "<unknown>"
                 (Replay.seconds 150 - Replay.seconds 100)
                 (Replay.seconds 150 - Replay.seconds 100)
                 1 (Some 0%Z) (Replay.seconds 100) (Replay.seconds 150)].
Proof.
  assert (Replay.stacks (Replay.enter Replay.initial 1 0 (Replay.seconds 50) "W") !! 1%Z
          = Some [mkTimer (Some 0%Z) "W" (Replay.seconds 50) (Replay.seconds 50) 0 0 "W" 1])
    as Hstk by reflexivity.
  split; [exact Hstk|].
  destruct (proj1 C4_exit_of_outermost_then_enter _ 1%Z 0%Z 100%Z 150%Z "X" _ Hstk)
    as (st1 & st2 & ev & E1 & Q1 & S1 & _ & _ & E2 & Q2 & _).
  exists st1, st2, ev. split; [exact E1|]. split; [exact Q1|].
  split; [exact S1|]. split; [exact E2|]. rewrite Q2, Q1. reflexivity.
Defined.

(** C10.  An Enter always returns.  When it finds no region open on its
    thread and a pending boundary for its thread and frame, it appends
    exactly one event, named [<unknown>], whose inclusive and exclusive
    durations are both the Enter timestamp minus the boundary, whose
    start is the boundary and whose end is the Enter timestamp, and it
    clears the boundary; in every other case it appends nothing. *)
Theorem C10_bridging_event st recording :
  operation recording = Operation_Enter ->
  let threadId := rec_thread recording in
  let frameId := frameId recording in
  let timestamp := Replay.seconds (timestamp recording) in
  exists st',
    Replay.step st recording = Ok st'
    /\ match Replay.open_region st threadId,
             Replay.pending (Replay.lastEnd st) threadId frameId with
       | None, Some boundary =>
         Replay.perfQueue st' =
         Replay.perfQueue st
           ++ [mkCompleted "<unknown>" (timestamp - boundary) (timestamp - boundary)
                           threadId (Some frameId) boundary timestamp]
         /\ Replay.pending (Replay.lastEnd st') threadId frameId = None
       | _, _ => Replay.perfQueue st' = Replay.perfQueue st
       end.
Proof.
  intros Hop threadId frameId' timestamp'.
  exists (Replay.enter st threadId frameId' timestamp' (rec_name recording)).
  split.
  - unfold Replay.step. by rewrite Hop.
  - destruct (Replay.open_region st threadId) as [prev|] eqn:Hopen.
    + by eapply enter_nested_queue.
    + rewrite (enter_outermost _ _ _ _ _ Hopen). cbv zeta.
      destruct (Replay.pending (Replay.lastEnd st) threadId frameId') as [b|] eqn:Hp.
      * split; [reflexivity | apply pending_set].
      * reflexivity.
Qed.

Definition after_first_region : Replay.State :=
  Replay.mkState {[ 1%Z := [] ]} {[ 1%Z := {[ 0%Z := Some (Replay.seconds 100) ]} ]} [] [].

Lemma C10_witness :
  operation (Replay.Enter 1 0 "X" 150) = Operation_Enter
  /\ exists st',
       Replay.step after_first_region (Replay.Enter 1 0 "X" 150) = Ok st'
       /\ Replay.perfQueue st' =
          [mkCompleted "<unknown>"
             (Replay.seconds 150 - Replay.seconds 100)
             (Replay.seconds 150 - Replay.seconds 100)
             1 (Some 0%Z) (Replay.seconds 100) (Replay.seconds 150)]
       /\ Replay.pending (Replay.lastEnd st') 1 0 = None.
Proof.
  split; [reflexivity|].
  destruct (C10_bridging_event after_first_region (Replay.Enter 1 0 "X" 150) eq_refl)
    as (st' & E & H).
  exists st'. split; [exact E|]. exact H.
Defined.

(** C5.  The flat key of a scope name is the text after its last
    ["::"], or the whole name when it has none.  One event named
    ["X::Y"] and one named ["Z::Y"], with any durations, threads, frames
    and timestamps: in flat mode the report has the single key ["Y"]
    with count 2; in tree mode it has the two keys ["X::Y"] and
    ["Z::Y"], each with count 1. *)
Theorem C5_flat_merges_tree_separates
  (i1 x1 i2 x2 : Q) (t1 t2 : Z) (f1 f2 : option Z) (s1 e1 s2 e2 : Q) :
  let queue := [mkCompleted "X::Y" i1 x1 t1 f1 s1 e1;
                mkCompleted "Z::Y" i2 x2 t2 f2 s2 e2] in
  (forall s, (exists p, s = p +:+ "::" +:+ flat_key s
                        /\ after_last_sep (flat_key s) = None)
             \/ (flat_key s = s /\ after_last_sep s = None))
  /\ flat_key "X::Y" = "Y"
  /\ flat_key "Z::Y" = "Y"
  /\ dom (fullreport FLAT queue) = {[ "Y" ]}
  /\ Count <$> (fullreport FLAT queue !! "Y") = Some 2%Z
  /\ dom (fullreport TREE queue) = {[ "X::Y"; "Z::Y" ]}
  /\ Count <$> (fullreport TREE queue !! "X::Y") = Some 1%Z
  /\ Count <$> (fullreport TREE queue !! "Z::Y") = Some 1%Z.
Proof.
  intros queue. unfold queue.
  split.
  { intros s. unfold flat_key.
    destruct (after_last_sep s) as [k|] eqn:E; [left | by right].
    destruct (after_last_sep_spec s k E) as [[p ->] Hk]. by exists p. }
  split; [reflexivity|]. split; [reflexivity|].
  split; [vm_compute; reflexivity|]. split; [vm_compute; reflexivity|].
  split; [vm_compute; reflexivity|]. split; vm_compute; reflexivity.
Qed.

(** C8, as stated, fails: a first event with a negative duration leaves
    the running maximum at 0, and a first event with a duration above
    999999999 leaves the running minimum at 999999999. *)
Lemma C8_counterexample :
  (MaxInc <$> (fullreport TREE [mkCompleted "A" (-1) (-1) 1 None 10 9] !! "A")
   = Some 0
   /\ 0 <> -1)
  /\ (MinInc <$> (fullreport TREE
                    [mkCompleted "A" 1000000000 1000000000 1 None 0 1000000000] !! "A")
      = Some 999999999
      /\ 999999999 <> 1000000000).
Proof.
  split; (split; [vm_compute; reflexivity | discriminate]).
Qed.

(** C8, amended.  When an event is the first of its key in the full
    report (in the report of its thread), and its inclusive and
    exclusive durations lie between 0 and 999999999, the values the
    running maxima and minima start from, then after the event is
    processed the key's [MinInc] and [MaxInc] are the event's inclusive
    duration and its [MinExc] and [MaxExc] are its exclusive duration. *)
Theorem C8_first_event_sets_min_max reportMode acc ev :
  let key := key_of reportMode (ce_scope ev) in
  let first_of (report : gmap string Entry) :=
    exists e, report !! key = Some e
              /\ Count e = 1%Z
              /\ MinInc e = ce_inclusive ev /\ MaxInc e = ce_inclusive ev
              /\ MinExc e = ce_exclusive ev /\ MaxExc e = ce_exclusive ev in
  0 <= ce_inclusive ev -> ce_inclusive ev <= 999999999 ->
  0 <= ce_exclusive ev -> ce_exclusive ev <= 999999999 ->
  (fst acc !! key = None -> first_of (fst (tally reportMode acc ev)))
  /\ (default ∅ (snd acc !! ce_thread ev) !! key = None ->
      exists report,
        snd (tally reportMode acc ev) !! ce_thread ev = Some report
        /\ first_of report).
Proof.
  intros key first_of Hi0 Hi1 Hx0 Hx1.
  assert (forall report, report !! key = None ->
            first_of (record report key (ce_inclusive ev) (ce_exclusive ev)))
    as Hrec.
  { intros report Hnone. eexists. split; [by apply record_first|].
    simpl. by rewrite !pymax_floor, !pymin_ceiling. }
  split.
  - intros Hnone. simpl. by apply Hrec.
  - intros Hnone. eexists. split.
    + simpl. apply lookup_insert_eq.
    + by apply Hrec.
Qed.

Lemma C8_witness :
  0 <= 3 /\ 3 <= 999999999 /\ 0 <= 2 /\ 2 <= 999999999
  /\ (∅ : gmap string Entry) !! "A" = None
  /\ exists e,
       fst (tally TREE (∅, ∅) (mkCompleted "A" 3 2 1 None 0 3)) !! "A" = Some e
       /\ Count e = 1%Z
       /\ MinInc e = 3 /\ MaxInc e = 3 /\ MinExc e = 2 /\ MaxExc e = 2.
Proof.
  assert (0 <= 3) as H1 by (unfold Qle; simpl; lia).
  assert (3 <= 999999999) as H2 by (unfold Qle; simpl; lia).
  assert (0 <= 2) as H3 by (unfold Qle; simpl; lia).
  assert (2 <= 999999999) as H4 by (unfold Qle; simpl; lia).
  repeat (split; [assumption|]).
  split; [reflexivity|].
  exact (proj1 (C8_first_event_sets_min_max TREE (∅, ∅)
                  (mkCompleted "A" 3 2 1 None 0 3) H1 H2 H3 H4) eq_refl).
Defined.

(** C9.  In tree or flat mode, when the queue is not empty and no event
    in it carries the id of the thread that asks for the report,
    [_printPerfReport] raises [KeyError]. *)
Theorem C9_report_without_own_events reportMode queue current :
  reportMode <> HTML ->
  queue <> [] ->
  Forall (fun ev => ce_thread ev <> current) queue ->
  _printPerfReport reportMode queue current = Raise KeyError.
Proof.
  intros Hmode Hne Hall.
  pose proof (fullreport_nonempty reportMode queue Hne) as Hfull.
  pose proof (threadreports_absent reportMode queue current Hall) as Habs.
  unfold _printPerfReport, fullreport, threadreports in *.
  destruct (aggregate reportMode queue) as [full threads]. simpl in *.
  destruct (decide (full = ∅)) as [->|_]; [done|].
  rewrite Habs. by destruct reportMode.
Qed.

Lemma C9_witness :
  TREE <> HTML
  /\ [mkCompleted "A" 1 1 5 None 0 1] <> []
  /\ Forall (fun ev => ce_thread ev <> 7%Z) [mkCompleted "A" 1 1 5 None 0 1]
  /\ _printPerfReport TREE [mkCompleted "A" 1 1 5 None 0 1] 7 = Raise KeyError.
Proof.
  assert (TREE <> HTML) as H1 by discriminate.
  assert ([mkCompleted "A" 1 1 5 None 0 1] <> []) as H2 by discriminate.
  assert (Forall (fun ev => ce_thread ev <> 7%Z) [mkCompleted "A" 1 1 5 None 0 1])
    as H3 by (constructor; [simpl; lia | constructor]).
  split; [exact H1|]. split; [exact H2|]. split; [exact H3|].
  exact (C9_report_without_own_events TREE _ 7%Z H1 H2 H3).
Defined.

End Properties.

(** * Further properties of the live scope stack *)

Module LiveMore.
Import Live LiveFacts Regions.

(** The number of regions of a tree. *)
Fixpoint regions (b : Block) : nat :=
  match b with
  | With _ _ _ body _ => S (list_sum (map regions body))
  end.

Lemma emitted_length prefix tid b :
  length (emitted prefix tid b) = regions b.
Proof.
  revert prefix.
  induction b as [name fr t0 body t1 IH] using Block_nested_ind.
  intros prefix. cbn [emitted regions]. rewrite length_app. simpl.
  rewrite Nat.add_1_r. f_equal.
  generalize (Some (scope_under prefix name)). intros q.
  induction IH as [|c cs Hc _ IHcs]; [done|].
  simpl. by rewrite length_app, Hc, IHcs.
Qed.

Lemma emitted_fields prefix tid b :
  Forall (fun ev => ce_thread ev = tid
                    /\ ce_inclusive ev = ce_end ev - ce_start ev)
         (emitted prefix tid b).
Proof.
  revert prefix.
  induction b as [name fr t0 body t1 IH] using Block_nested_ind.
  intros prefix. cbn [emitted]. apply Forall_app. split.
  - generalize (Some (scope_under prefix name)). intros q.
    induction IH as [|c cs Hc _ IHcs]; [constructor|].
    simpl. apply Forall_app. split; [apply Hc | apply IHcs].
  - constructor; [|constructor]. simpl.
    rewrite handoff_incstart. simpl. split; [|reflexivity].
    assert (forall cs tp, threadId (fold_left handoff cs tp) = threadId tp) as H.
    { induction cs as [|c cs IHcs]; intros tp; [done|]. simpl. by rewrite IHcs. }
    by rewrite H.
Qed.

Lemma Qsum_app l1 l2 : Qsum (l1 ++ l2) == Qsum l1 + Qsum l2.
Proof.
  induction l1 as [|x l1 IH]; simpl; [lra|]. rewrite IH. lra.
Qed.

(** A region run with collection enabled: what it leaves of the stacks
    and of the timers that existed before it. *)
Lemma exec_block_frame st tid b :
  _collecting st = true ->
  refs_valid st ->
  exists st',
    exec_block st tid b = Ok st'
    /\ (forall t, t <> tid -> perfStack st' !! t = perfStack st !! t)
    /\ perfStack st' !! tid =
       match parent_of st tid with
       | Some _ => perfStack st !! tid
       | None => Some []
       end
    /\ (forall l, (l < length (objects st))%nat ->
                  (perfStack st !! tid ≫= peek 0) <> Some l ->
                  objects st' !! l = objects st !! l).
Proof.
  intros Hcol Hv.
  destruct (parent_of st tid) as [tp|] eqn:Hpar.
  - unfold parent_of in Hpar.
    destruct (perfStack st !! tid) as [stk|] eqn:Hs; [|done].
    destruct (peek 0 stk) as [p|] eqn:Hp; [|done].
    destruct (peek_top_inv _ _ Hp) as [s ->].
    destruct (exec_block_nested b st tid s p tp Hcol Hs Hpar)
      as (st' & E & C & S & A & Q & L & F & P).
    exists st'. split; [exact E|]. split; [|split].
    + intros t _. by rewrite S.
    + by rewrite S, Hs.
    + intros l Hl Hne. apply F; [done|]. simpl in Hne. rewrite Hp in Hne.
      congruence.
  - destruct b as [name fr t0 body t1].
    set (self := length (objects st)).
    set (new := mkTimer fr name 0 0 0 0 name tid).
    set (st1 := mkState true (objects st ++ [Some new])
                        (perfStack st) (perfQueue st) (annotations st)).
    assert (Hinit : __init__ st tid name fr = (st1, self)).
    { unfold __init__. by rewrite Hcol. }
    assert (Hpar1 : parent_of st1 tid = None).
    { unfold st1. by rewrite parent_of_alloc. }
    assert (Hself1 : cell (objects st1) self = Some new).
    { apply cell_Some. simpl. by apply list_lookup_middle. }
    pose proof (enter_root st1 tid self t0 new eq_refl Hpar1 Hself1) as Henter.
    match type of Henter with _ = Ok ?x => set (st2 := x) in Henter end.
    assert (Hlen1 : length (objects st1) = S self).
    { simpl. rewrite length_app. simpl. unfold self. lia. }
    assert (Hlen2 : length (objects st2) = S self).
    { simpl. by rewrite length_insert. }
    destruct (exec_body_nested body (Forall_true _ _ exec_block_nested)
                st2 tid [] self (started new t0))
      as (st3 & E3 & C3 & S3 & A3 & Q3 & L3 & F3 & P3).
    { done. }
    { simpl. by rewrite lookup_insert_eq. }
    { apply cell_insert_eq. rewrite Hlen1. lia. }
    assert (Hstk3 : perfStack st3 !! tid = Some [self]).
    { rewrite S3. simpl. by rewrite lookup_insert_eq. }
    pose proof (exit_root st3 tid self t1 _ C3 Hstk3 P3) as Hexit.
    match type of Hexit with _ = Ok ?x => set (st4 := x) in Hexit end.
    exists st4. split; [|split; [|split]].
    + rewrite exec_block_unfold, Hinit, Henter. cbn [rbind].
      rewrite E3. exact Hexit.
    + intros t Hne. simpl. rewrite S3. simpl.
      by rewrite !lookup_insert_ne.
    + simpl. by rewrite lookup_insert_eq.
    + intros l Hl _. fold self in Hl. simpl.
      rewrite list_lookup_insert_ne by lia.
      rewrite F3 by (rewrite ?Hlen2; lia). simpl.
      rewrite list_lookup_insert_ne by lia.
      by apply lookup_app_l.
Qed.

(** A whole tree of regions run with collection disabled. *)
Lemma exec_block_disabled b : forall st tid,
  _collecting st = false ->
  exists st',
    exec_block st tid b = Ok st'
    /\ _collecting st' = false
    /\ perfQueue st' = perfQueue st
    /\ perfStack st' = perfStack st
    /\ annotations st' = annotations st.
Proof.
  induction b as [name fr t0 body t1 IH] using Block_nested_ind.
  intros st tid Hcol.
  rewrite exec_block_unfold. unfold __init__. rewrite Hcol.
  set (st1 := mkState false _ _ _ _).
  assert (__enter__ st1 tid (length (objects st)) t0 = Ok st1) as -> by reflexivity.
  cbn [rbind].
  assert (forall st2, _collecting st2 = false ->
            exists st3, exec_body exec_block st2 tid body = Ok st3
                        /\ _collecting st3 = false
                        /\ perfQueue st3 = perfQueue st2
                        /\ perfStack st3 = perfStack st2
                        /\ annotations st3 = annotations st2) as Hbody.
  { induction IH as [|c cs Hc _ IHcs]; intros st2 H2.
    - by exists st2.
    - destruct (Hc st2 tid H2) as (sa & Ea & Ca & Qa & Sa & Aa).
      destruct (IHcs sa Ca) as (sb & Eb & Cb & Qb & Sb & Ab).
      exists sb. simpl. rewrite Ea. cbn [rbind].
      repeat split; try done; congruence. }
  destruct (Hbody st1 eq_refl) as (st3 & E3 & C3 & Q3 & S3 & A3).
  exists st3. rewrite E3. cbn [rbind]. unfold __exit__. rewrite C3.
  repeat split; done.
Qed.

End LiveMore.

(** * Durations in the arithmetic of the machine *)

Module Durations.
Import Binary64 Binary64Facts.

(** [with A: with B: pass] at the clock readings 100, 120, 180, 220. *)
Definition region_AB : Block :=
  With "A" None 100 [With "B" None 120 [] 180] 220.






Lemma all_exact_own b : all_exact b -> own_exact b.
Proof. destruct b. by intros [H _]. Qed.

Lemma all_exact_children b : all_exact b -> Forall all_exact (body_of b).
Proof.
  destruct b as [name fr t0 body t1]. intros [_ H]. cbn [body_of].
  induction body as [|c cs IH]; [constructor|].
  destruct H as [Hc H]. constructor; [exact Hc | by apply IH].
Qed.

Lemma own_exact_span b : own_exact b -> span_exact b.
Proof. destruct b. by intros [H _]. Qed.

Lemma region_AB_exact : all_exact region_AB.
Proof.
  unfold region_AB. cbn [all_exact own_exact map fold_right charges_exact].
  unfold span_exact, charge_exact, exact_sub, exact_add.
  repeat split; vm_compute; reflexivity.
Qed.


(** What a region's own timer has charged when it exits. *)
Lemma own_exclusive_val prefix tid b :
  own_exact b ->
  val (ce_exclusive (own_event prefix tid b))
  == val (tExit_of b) - val (tEnter_of b)
     - Regions.Qsum (map (fun c => val (tExit_of c) - val (tEnter_of c)) (body_of b)).
Proof.
  destruct b as [name fr t0 body t1]. intros [_ Hcharges].
  apply (b64_charges_exact_clock _ _ _ _ (b64_own_clock prefix tid name fr t0))
    in Hcharges.
  cbn [own_event completed_of ce_exclusive finished set_inclusive exclusive
       tExit_of tEnter_of body_of].
  change (exclusive (charged ?t ?n)) with (exclusive (charged t n)).
  rewrite (b64_charges_balance _ _ _ Hcharges).
  cbn [started set_excstart set_incstart exclusive excstart].
  rewrite b64_val_zero. lra.
Qed.

(** Every instant between the entry and the exit of a region is charged
    to exactly one region of its tree. *)
Lemma exclusive_total tid b :
  all_exact b ->
  forall prefix,
    sum_exclusive (emitted prefix tid b) == val (tExit_of b) - val (tEnter_of b).
Proof.
  induction b as [name fr t0 body t1 IH] using b64_Block_nested_ind.
  intros Hall prefix.
  pose proof (all_exact_own _ Hall) as Hown.
  pose proof (all_exact_children _ Hall) as Hkidsx. cbn [body_of] in Hkidsx.
  assert (Regions.Qsum
            (map (fun ev => val (ce_exclusive ev))
               (concat (map (emitted (Some (scope_under prefix name)) tid) body)))
          == Regions.Qsum
               (map (fun c => val (tExit_of c) - val (tEnter_of c)) body)) as Hkids.
  { clear Hall Hown. generalize (Some (scope_under prefix name)). intros q.
    induction IH as [|c cs Hc _ IHcs]; [reflexivity|].
    inversion Hkidsx as [|? ? Hcx Hcsx]; subst.
    cbn [map concat]. rewrite map_app, LiveMore.Qsum_app.
    specialize (Hc Hcx q). unfold sum_exclusive in Hc. rewrite Hc, (IHcs Hcsx).
    reflexivity. }
  pose proof (own_exclusive_val prefix tid _ Hown) as Hme.
  cbn [emitted]. unfold sum_exclusive. rewrite map_app, LiveMore.Qsum_app.
  cbn [tExit_of tEnter_of body_of] in *.
  rewrite Hkids. cbn [map]. unfold Regions.Qsum at 2. cbn [fold_right].
  rewrite Hme. lra.
Qed.







(** X2.  When every addition and subtraction on the timers of a region
    and of the regions nested in it was exact, the exclusive durations
    of the events the region appends add up, as numbers, to the
    region's inclusive duration: every instant between its entry and
    its exit is charged to exactly one region of its tree. *)
Theorem X2_exclusive_adds_up st tid b :
  _collecting st = true ->
  refs_valid st ->
  all_exact b ->
  exists st' evs,
    exec_block st tid b = Ok st'
    /\ perfQueue st' = perfQueue st ++ evs
    /\ last evs = Some (own_event (prefix_of st tid) tid b)
    /\ sum_exclusive evs == val (ce_inclusive (own_event (prefix_of st tid) tid b)).
Proof.
  intros Hcol Hv Hex.
  destruct (b64_exec_block_emits st tid b Hcol Hv) as (st' & E & _ & _ & _ & Q).
  exists st', (emitted (prefix_of st tid) tid b).
  split; [exact E|]. split; [exact Q|].
  split; [destruct b; apply last_snoc|].
  rewrite exclusive_total by done. rewrite b64_own_event_inclusive.
  destruct (own_exact_span _ (all_exact_own _ Hex)) as [_ Hs]. by rewrite Hs.
Qed.

Lemma X2_witness :
  _collecting initial = true
  /\ refs_valid initial
  /\ all_exact region_AB
  /\ exists st' evs,
       exec_block initial 7 region_AB = Ok st'
       /\ perfQueue st' = perfQueue initial ++ evs
       /\ last evs = Some (own_event (prefix_of initial 7) 7 region_AB)
       /\ sum_exclusive evs
          == val (ce_inclusive (own_event (prefix_of initial 7) 7 region_AB)).
Proof.
  split; [reflexivity|]. split; [exact b64_refs_valid_initial|].
  split; [exact region_AB_exact|].
  exact (X2_exclusive_adds_up initial 7%Z region_AB
           eq_refl b64_refs_valid_initial region_AB_exact).
Defined.

End Durations.


(** * Further properties of the replay *)

Module ReplayMore.
Import Codec ReplayFacts.

Lemma mutate_top {A} (f : A -> A) (s : list A) (x : A) :
  mutate 0 f (s ++ [x]) = s ++ [f x].
Proof.
  unfold mutate. rewrite reverse_snoc. simpl.
  by rewrite reverse_cons, reverse_involutive.
Qed.

Lemma mutate_second {A} (f : A -> A) (s : list A) (x y : A) :
  mutate 1 f (s ++ [x; y]) = s ++ [f x; y].
Proof.
  unfold mutate. change [x; y] with ([x] ++ [y]).
  rewrite app_assoc, !reverse_snoc. simpl.
  rewrite !reverse_cons, reverse_involutive. by rewrite <- app_assoc.
Qed.

Lemma replay_app pre : forall st rest,
  Replay.replay st (pre ++ rest) =
  (st' <~ Replay.replay st pre ;; Replay.replay st' rest).
Proof.
  induction pre as [|r pre IH]; intros st rest; [done|].
  simpl. destruct (Replay.step st r) as [st1|e]; [|done].
  cbn [rbind]. apply IH.
Qed.

(** A recorded region: what [test] of the demonstration writer appends
    for one call, an Enter, the recordings of the nested calls, an Exit,
    all on one thread. *)
Inductive Recorded : Type :=
  | Rec (name : string) (frameId : Z) (tEnter : Z) (body : list Recorded) (tExit : Z).

Fixpoint stream (threadId : Z) (r : Recorded) : list (Recording string) :=
  match r with
  | Rec name frameId tEnter body tExit =>
    mkRecording Operation_Enter threadId frameId tEnter name
      :: concat (map (stream threadId) body)
      ++ [mkRecording Operation_Exit threadId frameId tExit name]
  end.

(** The same region as the live stack sees it, with the clock in
    seconds. *)
Fixpoint live_of (r : Recorded) : Live.Block :=
  match r with
  | Rec name frameId tEnter body tExit =>
    Live.With name (if (0 <=? frameId)%Z then Some frameId else None)
              (Replay.seconds tEnter) (map live_of body) (Replay.seconds tExit)
  end.

Lemma Recorded_nested_ind (P : Recorded -> Prop) :
  (forall n fr t0 body t1, Forall P body -> P (Rec n fr t0 body t1)) ->
  forall r, P r.
Proof.
  intros step. fix IH 1. intros [n fr t0 body t1]. apply step.
  induction body as [|c cs IHcs]; constructor; [apply IH | exact IHcs].
Qed.

Definition nested_replay (r : Recorded) : Prop :=
  forall st threadId s prev,
    Replay.stacks st !! threadId = Some (s ++ [prev]) ->
    exists st',
      Replay.replay st (stream threadId r) = Ok st'
      /\ Replay.stacks st' =
         <[threadId := s ++ [Regions.handoff prev (live_of r)]]> (Replay.stacks st)
      /\ Replay.lastEnd st' = Replay.lastEnd st
      /\ Replay.annotations st' = Replay.annotations st
      /\ Replay.perfQueue st' =
         Replay.perfQueue st
           ++ Regions.emitted (Some (scopeName prev)) threadId (live_of r).

Lemma replay_body_nested cs :
  Forall nested_replay cs ->
  forall st threadId s prev,
    Replay.stacks st !! threadId = Some (s ++ [prev]) ->
    exists st',
      Replay.replay st (concat (map (stream threadId) cs)) = Ok st'
      /\ Replay.stacks st' =
         <[threadId := s ++ [fold_left Regions.handoff (map live_of cs) prev]]>
           (Replay.stacks st)
      /\ Replay.lastEnd st' = Replay.lastEnd st
      /\ Replay.annotations st' = Replay.annotations st
      /\ Replay.perfQueue st' =
         Replay.perfQueue st
           ++ concat (map (Regions.emitted (Some (scopeName prev)) threadId)
                          (map live_of cs)).
Proof.
  induction 1 as [|c cs Hc _ IH]; intros st threadId s prev Hstk.
  - exists st. simpl. rewrite app_nil_r. repeat split; try done.
    symmetry. by apply insert_id.
  - destruct (Hc st threadId s prev Hstk) as (st1 & E1 & S1 & L1 & A1 & Q1).
    destruct (IH st1 threadId s (Regions.handoff prev (live_of c)))
      as (st2 & E2 & S2 & L2 & A2 & Q2).
    { rewrite S1. by rewrite lookup_insert_eq. }
    exists st2. cbn [map concat]. rewrite replay_app, E1. cbn [rbind].
    split; [exact E2|]. repeat split.
    + rewrite S2, S1. by rewrite insert_insert_eq.
    + congruence.
    + congruence.
    + rewrite Q2, Q1. cbn [fold_left]. by rewrite <- app_assoc.
Qed.

Lemma step_enter st threadId frameId tEnter name :
  Replay.step st (mkRecording Operation_Enter threadId frameId tEnter name)
  = Ok (Replay.enter st threadId frameId (Replay.seconds tEnter) name).
Proof. reflexivity. Qed.

Lemma step_exit st threadId frameId tExit name :
  Replay.step st (mkRecording Operation_Exit threadId frameId tExit name)
  = Replay.exit st threadId frameId (Replay.seconds tExit).
Proof. reflexivity. Qed.

Lemma peek_top2 {A} (s : list A) (x y : A) : peek 0 (s ++ [x; y]) = Some y.
Proof.
  change [x; y] with ([x] ++ [y]). by rewrite app_assoc, peek_top.
Qed.

Lemma removelast_snoc2 {A} (s : list A) (x y : A) :
  removelast (s ++ [x; y]) = s ++ [x].
Proof.
  change [x; y] with ([x] ++ [y]). by rewrite app_assoc, removelast_last.
Qed.

(** An Exit that closes a region nested in another. *)
Lemma exit_inner st threadId frameId timestamp s par timer :
  Replay.stacks st !! threadId = Some (s ++ [par; timer]) ->
  Replay.exit st threadId frameId timestamp =
  let timer1 :=
    set_exclusive timer (exclusive timer + (timestamp - excstart timer)) in
  let timer2 := set_inclusive timer1 (timestamp - incstart timer1) in
  Ok (Replay.mkState
        (<[threadId := s ++ [set_excstart par timestamp]]> (Replay.stacks st))
        (Replay.lastEnd st)
        (Replay.perfQueue st ++ [completed_of timer2 timestamp])
        (Replay.annotations st)).
Proof.
  intros H. unfold Replay.exit. rewrite H, peek_top2, peek_second.
  by rewrite mutate_second, removelast_snoc2.
Qed.

Lemma replay_nested r : nested_replay r.
Proof.
  induction r as [name frameId t0 body t1 IHbody] using Recorded_nested_ind.
  intros st threadId s prev Hstk.
  cbn [stream]. cbn [Replay.replay]. rewrite step_enter. cbn [rbind].
  set (fr := if (0 <=? frameId)%Z then Some frameId else None).
  set (T0 := Replay.seconds t0). set (T1 := Replay.seconds t1).
  set (me := LiveFacts.started
               (mkTimer fr name 0 0 0 0 (scopeName prev ++ "::" ++ name) threadId) T0).
  set (par := LiveFacts.charged prev T0).
  assert (Replay.enter st threadId frameId T0 name =
          Replay.mkState (<[threadId := (s ++ [par]) ++ [me]]> (Replay.stacks st))
                         (Replay.lastEnd st) (Replay.perfQueue st)
                         (Replay.annotations st)) as ->.
  { unfold Replay.enter, Replay.open_region. rewrite Hstk, peek_top.
    by rewrite mutate_top. }
  set (st1 := Replay.mkState _ _ _ _).
  destruct (replay_body_nested body IHbody st1 threadId (s ++ [par]) me)
    as (st2 & E2 & S2 & L2 & A2 & Q2).
  { simpl. by rewrite lookup_insert_eq. }
  rewrite replay_app, E2. cbn [rbind Replay.replay]. rewrite step_exit.
  set (mef := fold_left Regions.handoff (map live_of body) me) in *.
  assert (Replay.stacks st2 !! threadId = Some (s ++ [par; mef])) as Hstk2.
  { rewrite S2. rewrite lookup_insert_eq. by rewrite <- app_assoc. }
  rewrite (exit_inner _ _ _ _ _ _ _ Hstk2). cbv zeta.
  eexists. split; [reflexivity|]. cbn.
  split; [|split; [|split]].
  - rewrite S2. simpl. by rewrite !insert_insert_eq.
  - exact L2.
  - exact A2.
  - rewrite Q2. simpl. by rewrite <- app_assoc.
Qed.

(** The recording of a region replayed on a thread with no region open:
    the events of the live stack, after the bridging event if a boundary
    is pending. *)
Lemma replay_outermost r st threadId :
  Replay.open_region st threadId = None ->
  let frameId := match r with Rec _ f _ _ _ => f end in
  let tEnter := match r with Rec _ _ t _ _ => t end in
  let tExit := match r with Rec _ _ _ _ t => t end in
  let bridge :=
    match Replay.pending (Replay.lastEnd st) threadId frameId with
    | Some b =>
      [mkCompleted "<unknown>" (Replay.seconds tEnter - b) (Replay.seconds tEnter - b)
                   threadId (Some frameId) b (Replay.seconds tEnter)]
    | None => []
    end in
  exists st',
    Replay.replay st (stream threadId r) = Ok st'
    /\ Replay.perfQueue st' =
       Replay.perfQueue st ++ bridge ++ Regions.emitted None threadId (live_of r)
    /\ Replay.stacks st' !! threadId = Some []
    /\ Replay.pending (Replay.lastEnd st') threadId frameId
       = Some (Replay.seconds tExit)
    /\ Replay.annotations st' = Replay.annotations st.
Proof.
  destruct r as [name frameId t0 body t1]. intros Hopen fid tE tX bridge.
  subst fid tE tX.
  cbn [stream]. cbn [Replay.replay]. rewrite step_enter. cbn [rbind].
  set (fr := if (0 <=? frameId)%Z then Some frameId else None).
  set (T0 := Replay.seconds t0) in *. set (T1 := Replay.seconds t1).
  set (me := LiveFacts.started (mkTimer fr name 0 0 0 0 name threadId) T0).
  rewrite (enter_outermost _ _ _ _ _ Hopen). cbv zeta.
  fold fr. change (mkTimer fr name T0 T0 0 0 name threadId) with me.
  set (st1 := match Replay.pending (Replay.lastEnd st) threadId frameId with
              | Some b => _ | None => _ end).
  assert (Replay.stacks st1 !! threadId = Some ([] ++ [me])) as Hstk1.
  { unfold st1. destruct (Replay.pending _ _ _); simpl; by rewrite lookup_insert_eq. }
  assert (Replay.perfQueue st1 = Replay.perfQueue st ++ bridge) as Hq1.
  { unfold st1, bridge. destruct (Replay.pending _ _ _); simpl; [done|].
    by rewrite app_nil_r. }
  assert (Replay.annotations st1 = Replay.annotations st) as Ha1.
  { unfold st1. by destruct (Replay.pending _ _ _). }
  destruct (replay_body_nested body (Forall_true _ _ replay_nested)
              st1 threadId [] me Hstk1)
    as (st2 & E2 & S2 & L2 & A2 & Q2).
  rewrite replay_app, E2. cbn [rbind Replay.replay]. rewrite step_exit.
  set (mef := fold_left Regions.handoff (map live_of body) me) in *.
  assert (Replay.stacks st2 !! threadId = Some [mef]) as Hstk2.
  { rewrite S2. by rewrite lookup_insert_eq. }
  rewrite (exit_outermost _ _ _ _ _ Hstk2). cbv zeta. cbn [rbind].
  eexists. split; [reflexivity|]. cbn.
  split; [|split; [|split]].
  - rewrite Q2, Hq1. by rewrite <- !app_assoc.
  - by rewrite lookup_insert_eq.
  - apply pending_set.
  - congruence.
Qed.

End ReplayMore.

(** * Further properties of the binary event log *)

Module CodecMore.
Import Codec CodecFacts.
Local Open Scope Z_scope.

Lemma pack_unsigned_range n v bs :
  pack_unsigned n v = Ok bs -> (0 <=? v) && (v <? 2 ^ bits n) = true.
Proof.
  unfold pack_unsigned.
  by destruct ((0 <=? v) && (v <? 2 ^ bits n)).
Qed.

Lemma pack_signed_range n v bs :
  pack_signed n v = Ok bs ->
  (- 2 ^ (bits n - 1) <=? v) && (v <? 2 ^ (bits n - 1)) = true.
Proof.
  unfold pack_signed.
  by destruct ((- 2 ^ (bits n - 1) <=? v) && (v <? 2 ^ (bits n - 1))).
Qed.

Lemma write_record_valid d bs :
  write_record d = Ok bs -> valid_recording d = true.
Proof.
  unfold write_record, pack_bQiQH.
  destruct (pack_signed 1 (operation d)) as [b|] eqn:Eb; [|discriminate].
  destruct (pack_unsigned 8 (rec_thread d)) as [q|] eqn:Eq; [|discriminate].
  destruct (pack_signed 4 (frameId d)) as [i|] eqn:Ei; [|discriminate].
  destruct (pack_unsigned 8 (timestamp d)) as [q'|] eqn:Eq'; [|discriminate].
  destruct (pack_unsigned 2 _) as [h|] eqn:Eh; [|discriminate].
  cbn [rbind].
  destruct (encode_ascii (rec_name d)) as [nm|] eqn:En; [|discriminate].
  intros _.
  apply pack_signed_range in Eb, Ei. apply pack_unsigned_range in Eq, Eq', Eh.
  apply encode_ascii_inv in En as [-> Ha].
  change (2 ^ (bits 1 - 1)) with 128 in Eb.
  change (2 ^ (bits 4 - 1)) with (2 ^ 31) in Ei.
  change (2 ^ bits 8) with (2 ^ 64) in Eq, Eq'.
  change (2 ^ bits 2) with (2 ^ 16) in Eh.
  apply andb_true_iff in Eh as [_ Eh].
  apply andb_true_iff in Eb as [Eb1 Eb2].
  apply andb_true_iff in Eq as [Eq1 Eq2].
  apply andb_true_iff in Ei as [Ei1 Ei2].
  apply andb_true_iff in Eq' as [Eq'1 Eq'2].
  unfold valid_recording.
  repeat (apply andb_true_iff; split); first [assumption | exact Eb1].
Qed.

Lemma write_records_valid datas : forall body,
  write_records datas = Ok body -> forallb valid_recording datas = true.
Proof.
  induction datas as [|d ds IH]; intros body H; [done|].
  simpl in H.
  destruct (write_record d) as [r|] eqn:Er; [|discriminate].
  destruct (write_records ds) as [rs|] eqn:Ers; [|discriminate].
  simpl. by rewrite (write_record_valid d r Er), (IH rs eq_refl).
Qed.

Lemma encode_valid datas file :
  encode datas = Ok file -> valid_log datas = true.
Proof.
  unfold encode, write_binary.
  destruct (pack_L magic) as [m|] eqn:Em; [|discriminate].
  destruct (pack_L (Z.of_nat (length datas))) as [c|] eqn:Ec; [|discriminate].
  destruct (write_records datas) as [body|] eqn:Eb; [|discriminate].
  intros _. unfold valid_log.
  rewrite (write_records_valid datas body Eb).
  apply pack_unsigned_range in Ec. change (2 ^ bits 4) with (2 ^ 32) in Ec.
  by apply andb_true_iff in Ec as [_ ->].
Qed.

Lemma write_record_length d bs :
  write_record d = Ok bs ->
  length bs = (23 + String.length (rec_name d))%nat.
Proof.
  unfold write_record.
  destruct (pack_bQiQH _ _ _ _ _) as [hdr|] eqn:Eh; [|discriminate].
  destruct (encode_ascii _) as [nm|] eqn:En; [|discriminate].
  cbn [rbind]. intros [= <-].
  apply unpack_pack_bQiQH in Eh as [Lh _].
  apply encode_ascii_inv in En as [-> _].
  by rewrite length_app, Lh, length_list_byte_of_string.
Qed.

(** The size of the records of a log on disk. *)
Definition records_size (datas : list (Recording string)) : nat :=
  list_sum (map (fun d => (23 + String.length (rec_name d))%nat) datas).

Lemma write_records_length datas : forall body,
  write_records datas = Ok body -> length body = records_size datas.
Proof.
  induction datas as [|d ds IH]; intros body H; simpl in H.
  - by injection H as <-.
  - destruct (write_record d) as [r|] eqn:Er; [|discriminate].
    destruct (write_records ds) as [rs|] eqn:Ers; [|discriminate].
    cbn [rbind] in H. injection H as <-.
    rewrite length_app, (write_record_length d r Er), (IH rs eq_refl).
    reflexivity.
Qed.

Lemma encode_length datas file :
  encode datas = Ok file -> length file = (8 + records_size datas)%nat.
Proof.
  unfold encode, write_binary.
  destruct (pack_L magic) as [m|] eqn:Em; [|discriminate].
  destruct (pack_L (Z.of_nat (length datas))) as [c|] eqn:Ec; [|discriminate].
  destruct (write_records datas) as [body|] eqn:Eb; [|discriminate].
  cbn [rbind]. intros [= <-].
  apply pack_unsigned_inv in Em as [Lm _].
  apply pack_unsigned_inv in Ec as [Lc _].
  rewrite !length_app, Lm, Lc, (write_records_length datas body Eb). lia.
Qed.

(** What [replace_sep] returns starts with the byte it was given first,
    or with a dot. *)
Lemma replace_sep_head b t :
  exists r, replace_sep (b :: t) = b :: r \/ replace_sep (b :: t) = dot :: r.
Proof.
  destruct t as [|b2 r]; [by exists []; left|].
  rewrite replace_sep_cons2.
  destruct (Byte.eqb b colon && Byte.eqb b2 colon); eauto.
Qed.

Lemma replace_sep_clean bs : has_sep (replace_sep bs) = false.
Proof.
  remember (length bs) as n eqn:Hn.
  revert bs Hn. induction (lt_wf n) as [n _ IH]. intros bs ->.
  destruct bs as [|b1 [|b2 r]]; [done | done |].
  rewrite replace_sep_cons2.
  destruct (Byte.eqb b1 colon && Byte.eqb b2 colon) eqn:E.
  - assert (has_sep (replace_sep r) = false) as Hr.
    { eapply IH; [|reflexivity]. simpl. lia. }
    destruct (replace_sep r) as [|x xs] eqn:Ex; [done|].
    rewrite has_sep_cons2, Hr. by rewrite orb_false_r.
  - assert (has_sep (replace_sep (b2 :: r)) = false) as Hr.
    { eapply IH; [|reflexivity]. simpl. lia. }
    destruct (replace_sep_head b2 r) as [xs [Ex|Ex]]; rewrite Ex in *;
      rewrite has_sep_cons2, Hr, orb_false_r.
    + exact E.
    + apply andb_false_iff. by right.
Qed.

Lemma read_records_clean count : forall bs recs,
  read_records count bs = Ok recs ->
  Forall (fun r => has_sep (rec_name r) = false) recs.
Proof.
  induction count as [|k IH]; intros bs recs H; simpl in H.
  - injection H as <-. constructor.
  - destruct (unpack_bQiQH _) as [[[[[op tid] fr] ts] len]|] eqn:Eh; [|discriminate].
    cbn [rbind] in H.
    destruct (read_records k _) as [rs|] eqn:Er; [|discriminate].
    cbn [rbind] in H. injection H as <-.
    constructor; [apply replace_sep_clean | by eapply IH].
Qed.

Lemma read_records_app ds : forall body n rest,
  write_records ds = Ok body ->
  read_records (length ds + n) (body ++ rest) =
  (recs <~ read_records n rest ;; Ok (map bytes_rec ds ++ recs)).
Proof.
  induction ds as [|d ds IH]; intros body n rest H; simpl in H.
  - injection H as <-. simpl. by destruct (read_records n rest).
  - unfold write_record in H.
    destruct (pack_bQiQH _ _ _ _ _) as [hdr|] eqn:Eh; [|discriminate].
    destruct (encode_ascii _) as [nm|] eqn:En; [|discriminate].
    cbn [rbind] in H.
    destruct (write_records ds) as [rs|] eqn:Er; [|discriminate].
    cbn [rbind] in H. injection H as <-.
    apply unpack_pack_bQiQH in Eh as [Lh Uh].
    apply encode_ascii_inv in En as [-> Ha].
    cbn [length Nat.add read_records]. rewrite <- !app_assoc.
    rewrite (read_app hdr _ _ Lh), Uh. cbn [rbind].
    rewrite read_app by (rewrite length_list_byte_of_string; lia).
    rewrite (IH rs n rest eq_refl).
    by destruct (read_records n rest).
Qed.

End CodecMore.

(** * Further properties of the aggregation *)

Module ReportMore.
Import Report ReportFacts.

(** The seven updates of one entry. *)
Definition bump (e : Entry) (ev : Completed) : Entry :=
  mkEntry (Inclusive e + ce_inclusive ev) (Exclusive e + ce_exclusive ev)
          (Count e + 1)
          (pymax (ce_inclusive ev) (MaxInc e)) (pymax (ce_exclusive ev) (MaxExc e))
          (pymin (ce_inclusive ev) (MinInc e)) (pymin (ce_exclusive ev) (MinExc e)).

(** The entry of one key after the events of that key, in queue order. *)
Definition group_fold (evs : list Completed) (o : option Entry) : option Entry :=
  fold_left (fun o ev => Some (bump (default fresh_entry o) ev)) evs o.

Definition in_group (reportMode : ReportMode) (k : string) (ev : Completed) : Prop :=
  key_of reportMode (ce_scope ev) = k.

#[export] Instance in_group_dec reportMode k ev : Decision (in_group reportMode k ev).
Proof. unfold in_group. apply _. Defined.

Lemma record_lookup report key inc exc k ev :
  ce_inclusive ev = inc -> ce_exclusive ev = exc ->
  record report key inc exc !! k =
  if decide (key = k) then Some (bump (default fresh_entry (report !! k)) ev)
  else report !! k.
Proof.
  intros <- <-. unfold record. destruct (decide (key = k)) as [->|Hne].
  - by rewrite lookup_insert_eq.
  - by rewrite lookup_insert_ne.
Qed.

Lemma tally_group reportMode k queue : forall acc,
  fst (fold_left (tally reportMode) queue acc) !! k =
  group_fold (filter (in_group reportMode k) queue) (fst acc !! k).
Proof.
  induction queue as [|ev queue IH]; intros acc; [done|].
  cbn [fold_left]. rewrite IH. cbn [tally fst].
  rewrite (record_lookup _ _ _ _ k ev eq_refl eq_refl).
  rewrite filter_cons. unfold in_group at 2.
  destruct (decide (key_of reportMode (ce_scope ev) = k)); done.
Qed.

(** The entry of a key is made of the events of that key alone. *)
Lemma fullreport_group reportMode queue k :
  fullreport reportMode queue !! k =
  group_fold (filter (in_group reportMode k) queue) None.
Proof.
  unfold fullreport, aggregate. rewrite tally_group. simpl.
  by rewrite lookup_empty.
Qed.

Lemma group_fold_snoc evs ev o :
  group_fold (evs ++ [ev]) o =
  Some (bump (default fresh_entry (group_fold evs o)) ev).
Proof. unfold group_fold. by rewrite fold_left_app. Qed.

Lemma group_fold_None evs : group_fold evs None = None <-> evs = [].
Proof.
  split; [|by intros ->].
  destruct evs as [|ev evs _] using rev_ind; [done|].
  by rewrite group_fold_snoc.
Qed.


Lemma pymax_bounds a b : a <= pymax a b /\ b <= pymax a b.
Proof.
  unfold pymax. destruct (Qcompare_spec a b) as [H|H|H]; split; lra.
Qed.

Lemma pymin_bounds a b : pymin a b <= a /\ pymin a b <= b.
Proof.
  unfold pymin. destruct (Qcompare_spec b a) as [H|H|H]; split; lra.
Qed.

Definition within (e : Entry) (ev : Completed) : Prop :=
  MinInc e <= ce_inclusive ev /\ ce_inclusive ev <= MaxInc e
  /\ MinExc e <= ce_exclusive ev /\ ce_exclusive ev <= MaxExc e.

Lemma group_fold_within evs :
  Forall (within (default fresh_entry (group_fold evs None))) evs.
Proof.
  induction evs as [|ev evs IH] using rev_ind; [constructor|].
  rewrite group_fold_snoc. cbn [default].
  set (e := default fresh_entry (group_fold evs None)) in *.
  pose proof (pymax_bounds (ce_inclusive ev) (MaxInc e)) as [A1 A2].
  pose proof (pymax_bounds (ce_exclusive ev) (MaxExc e)) as [B1 B2].
  pose proof (pymin_bounds (ce_inclusive ev) (MinInc e)) as [C1 C2].
  pose proof (pymin_bounds (ce_exclusive ev) (MinExc e)) as [D1 D2].
  apply Forall_app. split.
  - eapply Forall_impl; [exact IH|]. intros x (X1 & X2 & X3 & X4).
    unfold within. simpl. repeat split; lra.
  - constructor; [|constructor]. unfold within. simpl. repeat split; lra.
Qed.

(** *** Reports per thread *)

Definition report_fold (reportMode : ReportMode) (evs : list Completed)
  (report : gmap string Entry) : gmap string Entry :=
  fold_left (fun r ev => record r (key_of reportMode (ce_scope ev))
                                (ce_inclusive ev) (ce_exclusive ev)) evs report.

Lemma tally_fst reportMode queue : forall acc,
  fst (fold_left (tally reportMode) queue acc) = report_fold reportMode queue (fst acc).
Proof.
  induction queue as [|ev queue IH]; intros acc; [done|].
  cbn [fold_left]. by rewrite IH.
Qed.

Definition of_thread (t : Z) (ev : Completed) : Prop := ce_thread ev = t.

#[export] Instance of_thread_dec t ev : Decision (of_thread t ev).
Proof. unfold of_thread. apply _. Defined.

Definition thread_fold (reportMode : ReportMode) (evs : list Completed)
  (o : option (gmap string Entry)) : option (gmap string Entry) :=
  fold_left (fun o ev => Some (record (default ∅ o) (key_of reportMode (ce_scope ev))
                                      (ce_inclusive ev) (ce_exclusive ev))) evs o.

Lemma tally_thread reportMode t queue : forall acc,
  snd (fold_left (tally reportMode) queue acc) !! t =
  thread_fold reportMode (filter (of_thread t) queue) (snd acc !! t).
Proof.
  induction queue as [|ev queue IH]; intros acc; [done|].
  cbn [fold_left]. rewrite IH. cbn [tally snd].
  rewrite filter_cons. unfold of_thread at 2.
  destruct (decide (ce_thread ev = t)) as [<-|Hne].
  - by rewrite lookup_insert_eq.
  - by rewrite lookup_insert_ne.
Qed.

Lemma thread_fold_Some reportMode evs : forall r,
  thread_fold reportMode evs (Some r) = Some (report_fold reportMode evs r).
Proof.
  induction evs as [|ev evs IH]; intros r; [done|].
  unfold thread_fold, report_fold. cbn [fold_left default]. apply IH.
Qed.

(** The report of a thread is the full report of that thread's events. *)
Lemma threadreports_thread reportMode queue t :
  threadreports reportMode queue !! t =
  match filter (of_thread t) queue with
  | [] => None
  | evs => Some (fullreport reportMode evs)
  end.
Proof.
  unfold threadreports, aggregate. rewrite tally_thread. cbn [snd].
  rewrite lookup_empty.
  destruct (filter (of_thread t) queue) as [|ev evs]; [done|].
  unfold fullreport, aggregate. rewrite tally_fst. cbn [fst].
  unfold thread_fold. cbn [fold_left default].
  apply (thread_fold_Some reportMode evs).
Qed.

(** *** The text report *)

Lemma filter_all {A} (P : A -> Prop) `{!forall x, Decision (P x)} (l : list A) :
  Forall P l -> filter P l = l.
Proof.
  induction 1 as [|x l Hx _ IH]; [done|]. by rewrite filter_cons_True, IH.
Qed.

Lemma filter_none {A} (P : A -> Prop) `{!forall x, Decision (P x)} (l : list A) :
  Forall (fun x => ~ P x) l -> filter P l = [].
Proof.
  induction 1 as [|x l Hx _ IH]; [done|]. by rewrite filter_cons_False.
Qed.

Lemma printReport_table report title :
  report <> ∅ -> _printReport report title = [mkTable title report].
Proof. intros H. unfold _printReport. by destruct (decide (report = ∅)). Qed.

Lemma aggregate_parts reportMode queue :
  aggregate reportMode queue =
  (fullreport reportMode queue, threadreports reportMode queue).
Proof. unfold fullreport, threadreports. by destruct (aggregate reportMode queue). Qed.

(** *** The order of the worker tables *)

Definition seen_after (queue : list Completed) (keys : list Z) : list Z :=
  fold_left (fun keys item =>
               if decide (ce_thread item ∈ keys) then keys
               else keys ++ [ce_thread item])
            queue keys.

Lemma seen_after_split queue : forall keys,
  seen_after queue keys = keys ++ filter (fun t => t ∉ keys) (thread_order queue).
Proof.
  unfold thread_order. fold (seen_after queue []).
  induction queue as [|ev queue IH]; intros keys.
  - cbn. by rewrite app_nil_r.
  - unfold seen_after at 1 2. cbn [fold_left].
    fold (seen_after queue
            (if decide (ce_thread ev ∈ keys) then keys else keys ++ [ce_thread ev])).
    fold (seen_after queue
            (if decide (ce_thread ev ∈ []) then [] else [] ++ [ce_thread ev])).
    destruct (decide (ce_thread ev ∈ [])) as [Hin|_];
      [by apply elem_of_nil in Hin|].
    cbn [app]. rewrite (IH [ce_thread ev]). cbn [app].
    destruct (decide (ce_thread ev ∈ keys)) as [Hin|Hout].
    + rewrite IH. f_equal. rewrite filter_cons_False by (intros H; by apply H).
      rewrite list_filter_filter. apply list_filter_iff. intros t. split.
      * intros H. split; [done|]. intros ->%list_elem_of_singleton. done.
      * by intros [H _].
    + rewrite IH, <- app_assoc. f_equal. cbn [app].
      rewrite filter_cons_True by done. f_equal.
      rewrite list_filter_filter. apply list_filter_iff. intros t.
      rewrite not_elem_of_app. tauto.
Qed.

(** The threads are listed in the order of their first events. *)
Lemma thread_order_cons ev queue :
  thread_order (ev :: queue) =
  ce_thread ev :: filter (fun t => t <> ce_thread ev) (thread_order queue).
Proof.
  unfold thread_order at 1. cbn [fold_left].
  destruct (decide (ce_thread ev ∈ [])) as [Hin|_];
    [by apply elem_of_nil in Hin|].
  cbn [app]. fold (seen_after queue [ce_thread ev]).
  rewrite seen_after_split. cbn [app]. f_equal.
  apply list_filter_iff. intros t. by rewrite list_elem_of_singleton.
Qed.

Lemma thread_order_elem queue t :
  t ∈ thread_order queue <-> filter (of_thread t) queue <> [].
Proof.
  induction queue as [|ev queue IH]; [cbn; split; [by intros ?%elem_of_nil | done]|].
  rewrite thread_order_cons, elem_of_cons, list_elem_of_filter, IH.
  rewrite filter_cons. unfold of_thread at 2.
  destruct (decide (ce_thread ev = t)) as [<-|Hne].
  - split; [done | by left].
  - split; [intros [->|[_ H]]; done | intros H; right; split; [congruence | done]].
Qed.

Lemma thread_order_NoDup queue : NoDup (thread_order queue).
Proof.
  induction queue as [|ev queue IH]; [constructor|].
  rewrite thread_order_cons. constructor.
  - rewrite list_elem_of_filter. by intros [H _].
  - by apply NoDup_filter.
Qed.

Lemma items_threads reportMode queue keys :
  Forall (fun t => filter (of_thread t) queue <> []) keys ->
  items (threadreports reportMode queue) keys =
  map (fun t => (t, fullreport reportMode (filter (of_thread t) queue))) keys.
Proof.
  induction 1 as [|t keys Ht _ IH]; [done|].
  unfold items in *. cbn [omap list_omap map]. rewrite threadreports_thread.
  destruct (filter (of_thread t) queue) as [|x xs] eqn:E; [done|].
  cbn. by rewrite IH.
Qed.

(** The loop over [threadreports.items()]: one table for each thread
    with events other than the current one, in the order of the
    dictionary. *)
Lemma workers_tables reportMode queue current :
  flat_map (fun '(threadId, report) =>
              if decide (threadId = current) then []
              else _printReport report (WorkerThread threadId))
           (items (threadreports reportMode queue) (thread_order queue))
  = map (fun t => mkTable (WorkerThread t)
                          (fullreport reportMode (filter (of_thread t) queue)))
        (filter (fun t => t <> current) (thread_order queue)).
Proof.
  rewrite items_threads
    by (apply Forall_forall; intros t; apply thread_order_elem).
  assert (Forall (fun t => filter (of_thread t) queue <> []) (thread_order queue))
    as Hall by (apply Forall_forall; intros t; apply thread_order_elem).
  induction Hall as [|t keys Ht _ IH]; [done|].
  cbn [map flat_map]. rewrite IH, filter_cons.
  destruct (decide (t = current)) as [->|Hne].
  - by destruct (decide (current <> current)).
  - destruct (decide (t <> current)); [|done].
    rewrite printReport_table by (by apply fullreport_nonempty). done.
Qed.

(** All events come from the thread that asks for the report. *)
Lemma report_one_thread reportMode queue current :
  reportMode <> HTML ->
  queue <> [] ->
  Forall (of_thread current) queue ->
  _printPerfReport reportMode queue current =
  Ok (Text [mkTable MainThread (fullreport reportMode queue)]).
Proof.
  intros Hmode Hne Hall.
  assert (threadreports reportMode queue
          = {[ current := fullreport reportMode queue ]}) as Hthreads.
  { apply map_eq. intros t. rewrite threadreports_thread.
    destruct (decide (t = current)) as [->|Hnet].
    - rewrite filter_all by done. rewrite lookup_singleton_eq.
      by destruct queue.
    - rewrite lookup_singleton_ne by done.
      rewrite filter_none; [done|].
      eapply Forall_impl; [exact Hall|]. unfold of_thread. congruence. }
  pose proof (fullreport_nonempty reportMode queue Hne) as Hfull.
  assert (filter (fun t => t <> current) (thread_order queue) = []) as Hnone.
  { apply filter_none, Forall_forall. intros t Ht Hnt.
    apply thread_order_elem in Ht. apply Ht, filter_none.
    eapply Forall_impl; [exact Hall|]. unfold of_thread. congruence. }
  unfold _printPerfReport. rewrite aggregate_parts.
  rewrite workers_tables, Hnone, Hthreads.
  destruct (decide (fullreport reportMode queue = ∅)) as [|_]; [done|].
  rewrite lookup_singleton_eq.
  rewrite map_size_singleton. cbn [map app].
  rewrite printReport_table by done.
  destruct reportMode; try done.
Qed.

(** Events come from the thread that asks for the report and from at
    least one other thread. *)
Lemma report_many_threads reportMode queue current other :
  reportMode <> HTML ->
  other <> current ->
  filter (of_thread current) queue <> [] ->
  filter (of_thread other) queue <> [] ->
  _printPerfReport reportMode queue current =
  Ok (Text (map (fun t => mkTable (WorkerThread t)
                            (fullreport reportMode (filter (of_thread t) queue)))
                (filter (fun t => t <> current) (thread_order queue))
              ++ [mkTable MainThread
                          (fullreport reportMode (filter (of_thread current) queue));
                  mkTable Cumulative (fullreport reportMode queue)])).
Proof.
  intros Hmode Hother Hcur Hoth.
  assert (queue <> []) as Hne by (by intros ->).
  pose proof (fullreport_nonempty reportMode queue Hne) as Hfull.
  set (threads := threadreports reportMode queue).
  assert (forall t, threads !! t =
            match filter (of_thread t) queue with
            | [] => None | evs => Some (fullreport reportMode evs) end) as Hlook
    by (intros t; apply threadreports_thread).
  assert (threads !! current
          = Some (fullreport reportMode (filter (of_thread current) queue))) as Hc.
  { rewrite Hlook. by destruct (filter (of_thread current) queue). }
  assert (threads !! other
          = Some (fullreport reportMode (filter (of_thread other) queue))) as Ho.
  { rewrite Hlook. by destruct (filter (of_thread other) queue). }
  assert (size threads <> 1%nat) as Hsize.
  { intros Hs.
    assert (size (delete current threads) = 0%nat) as Hd.
    { rewrite map_size_delete_Some by (by rewrite Hc). by rewrite Hs. }
    apply map_size_empty_inv in Hd.
    assert (delete current threads !! other = None) as Hn by (by rewrite Hd).
    rewrite lookup_delete_ne in Hn by done. congruence. }
  unfold _printPerfReport. rewrite aggregate_parts, workers_tables. fold threads.
  destruct (decide (fullreport reportMode queue = ∅)) as [|_]; [done|].
  rewrite Hc.
  destruct (decide (size threads = 1%nat)) as [|_]; [done|].
  rewrite !printReport_table; [| done |].
  - destruct reportMode; try done.
  - apply fullreport_nonempty. done.
Qed.

End ReportMore.

(** * Further properties of the first loop of [PrintPerfReport] *)

Module FramesMore.
Import Report ReportMore.

Definition in_frame (f : option Z) (ev : Completed) : Prop := ce_frame ev = f.

#[export] Instance in_frame_dec f ev : Decision (in_frame f ev).
Proof. unfold in_frame. apply _. Defined.

(** What the loop does to the entries of one frame, event by event. *)
Definition elements_fold (evs : list Completed) (o : option (list Completed))
  : option (list Completed) :=
  fold_left (fun o ev => Some (default [] o ++ [ev])) evs o.

Definition earliest_fold (evs : list Completed) (o : option Q) : option Q :=
  fold_left (fun o ev => Some (match o with
                               | Some e => pymin e (ce_start ev)
                               | None => ce_start ev
                               end)) evs o.

Definition latest_fold (evs : list Completed) (o : option Q) : option Q :=
  fold_left (fun o ev => Some (match o with
                               | Some l => pymax l (ce_end ev)
                               | None => ce_end ev
                               end)) evs o.

(** The two dictionaries of bounds have the same keys. *)
Definition paired (fs : Frames) : Prop :=
  forall f, earliestByFrame fs !! f = None <-> latestByFrame fs !! f = None.

Lemma bucket_unfiltered duration fs ev :
  paired fs ->
  exists fs',
    bucket None duration fs ev = Ok fs'
    /\ paired fs'
    /\ allFramesQueue fs' = allFramesQueue fs ++ [ev]
    /\ forall f,
         elementsByFrame fs' !! f =
           (if decide (ce_frame ev = f)
            then Some (default [] (elementsByFrame fs !! f) ++ [ev])
            else elementsByFrame fs !! f)
         /\ earliestByFrame fs' !! f =
           (if decide (ce_frame ev = f)
            then Some (match earliestByFrame fs !! f with
                       | Some e => pymin e (ce_start ev)
                       | None => ce_start ev
                       end)
            else earliestByFrame fs !! f)
         /\ latestByFrame fs' !! f =
           (if decide (ce_frame ev = f)
            then Some (match latestByFrame fs !! f with
                       | Some l => pymax l (ce_end ev)
                       | None => ce_end ev
                       end)
            else latestByFrame fs !! f)
         /\ annotationsByFrame fs' !! f =
           (if decide (ce_frame ev = f) then Some []
            else annotationsByFrame fs !! f).
Proof.
  intros Hp. unfold bucket. cbn [below_minimum].
  destruct (earliestByFrame fs !! ce_frame ev) as [e|] eqn:Ee.
  - destruct (latestByFrame fs !! ce_frame ev) as [l|] eqn:El.
    2:{ apply Hp in El. congruence. }
    cbn [rbind fst snd]. eexists. split; [reflexivity|]. unfold paired.
    cbn [earliestByFrame latestByFrame elementsByFrame allFramesQueue annotationsByFrame].
    split; [|split; [done|]].
    + intros f. destruct (decide (ce_frame ev = f)) as [<-|Hne].
      * rewrite !lookup_insert_eq. done.
      * rewrite !lookup_insert_ne by done. apply Hp.
    + intros f. destruct (decide (ce_frame ev = f)) as [<-|Hne].
      * rewrite !lookup_insert_eq, Ee, El. done.
      * by rewrite !lookup_insert_ne.
  - assert (latestByFrame fs !! ce_frame ev = None) as El by (by apply Hp).
    cbn [rbind fst snd]. eexists. split; [reflexivity|]. unfold paired.
    cbn [earliestByFrame latestByFrame elementsByFrame allFramesQueue annotationsByFrame].
    split; [|split; [done|]].
    + intros f. destruct (decide (ce_frame ev = f)) as [<-|Hne].
      * rewrite !lookup_insert_eq. done.
      * rewrite !lookup_insert_ne by done. apply Hp.
    + intros f. destruct (decide (ce_frame ev = f)) as [<-|Hne].
      * rewrite !lookup_insert_eq, Ee, El. done.
      * by rewrite !lookup_insert_ne.
Qed.

Lemma drain_unfiltered duration queue : forall fs,
  paired fs ->
  exists fs',
    drain None duration fs queue = Ok fs'
    /\ paired fs'
    /\ allFramesQueue fs' = allFramesQueue fs ++ queue
    /\ forall f,
         let evs := filter (in_frame f) queue in
         elementsByFrame fs' !! f = elements_fold evs (elementsByFrame fs !! f)
         /\ earliestByFrame fs' !! f = earliest_fold evs (earliestByFrame fs !! f)
         /\ latestByFrame fs' !! f = latest_fold evs (latestByFrame fs !! f)
         /\ annotationsByFrame fs' !! f =
            match evs with
            | [] => annotationsByFrame fs !! f
            | _ => Some []
            end.
Proof.
  induction queue as [|ev queue IH]; intros fs Hp.
  - exists fs. simpl. rewrite app_nil_r.
    split; [done|]. split; [exact Hp|]. split; [done|]. intros f. by repeat split.
  - destruct (bucket_unfiltered duration fs ev Hp) as (fs1 & E1 & P1 & A1 & S1).
    destruct (IH fs1 P1) as (fs2 & E2 & P2 & A2 & S2).
    exists fs2. cbn [drain]. rewrite E1. cbn [rbind].
    split; [exact E2|]. split; [exact P2|]. split.
    { rewrite A2, A1. by rewrite <- app_assoc. }
    intros f. cbv zeta.
    destruct (S2 f) as (X1 & X2 & X3 & X4).
    pose proof (S1 f) as Y. rewrite X1, X2, X3, X4. clear X1 X2 X3 X4.
    revert Y. destruct (decide (ce_frame ev = f)) as [Hf|Hf];
      intros (Y1 & Y2 & Y3 & Y4); rewrite Y1, Y2, Y3, Y4.
    + rewrite filter_cons_True by done. repeat split; try done.
      by destruct (filter (in_frame f) queue).
    + rewrite filter_cons_False by done. by repeat split.
Qed.

Lemma paired_no_frames : paired no_frames.
Proof. intros f. simpl. by rewrite !lookup_empty. Qed.

Lemma elements_fold_Some evs : forall l,
  elements_fold evs (Some l) = Some (l ++ evs).
Proof.
  induction evs as [|ev evs IH]; intros l; simpl; [by rewrite app_nil_r|].
  unfold elements_fold in *. cbn [fold_left default]. rewrite IH.
  by rewrite <- app_assoc.
Qed.

Lemma elements_fold_None evs :
  elements_fold evs None = match evs with [] => None | _ => Some evs end.
Proof.
  destruct evs as [|ev evs]; [done|].
  unfold elements_fold. cbn [fold_left default]. apply (elements_fold_Some evs [ev]).
Qed.

(** The running minimum of the starts is below every start and is one
    of them; likewise the running maximum of the ends. *)
Lemma earliest_fold_min evs : forall a,
  exists m,
    earliest_fold evs (Some a) = Some m
    /\ m <= a
    /\ Forall (fun ev => m <= ce_start ev) evs
    /\ (m = a \/ Exists (fun ev => ce_start ev = m) evs).
Proof.
  induction evs as [|ev evs IH]; intros a.
  - exists a. repeat split; [lra | constructor | by left].
  - unfold earliest_fold. cbn [fold_left].
    destruct (IH (pymin a (ce_start ev))) as (m & E & L & F & O).
    exists m. split; [exact E|].
    pose proof (pymin_bounds a (ce_start ev)) as [B1 B2].
    split; [lra|]. split.
    + constructor; [lra | exact F].
    + destruct O as [->|O]; [|right; by constructor].
      unfold pymin. destruct (ce_start ev ?= a); auto.
Qed.

Lemma latest_fold_max evs : forall a,
  exists m,
    latest_fold evs (Some a) = Some m
    /\ a <= m
    /\ Forall (fun ev => ce_end ev <= m) evs
    /\ (m = a \/ Exists (fun ev => ce_end ev = m) evs).
Proof.
  induction evs as [|ev evs IH]; intros a.
  - exists a. repeat split; [lra | constructor | by left].
  - unfold latest_fold. cbn [fold_left].
    destruct (IH (pymax a (ce_end ev))) as (m & E & L & F & O).
    exists m. split; [exact E|].
    pose proof (pymax_bounds a (ce_end ev)) as [B1 B2].
    split; [lra|]. split.
    + constructor; [lra | exact F].
    + destruct O as [->|O]; [|right; by constructor].
      unfold pymax. destruct (a ?= ce_end ev); auto.
Qed.

End FramesMore.

(** * Logs cut short *)

Module CodecCut.
Import Codec CodecFacts CodecMore.
Local Open Scope Z_scope.

Lemma write_records_snoc ds d : forall body,
  write_records (ds ++ [d]) = Ok body ->
  exists b1 hdr,
    write_records ds = Ok b1
    /\ pack_bQiQH (operation d) (rec_thread d) (frameId d) (timestamp d)
                  (Z.of_nat (String.length (rec_name d))) = Ok hdr
    /\ body = b1 ++ hdr ++ String.list_byte_of_string (rec_name d).
Proof.
  induction ds as [|x ds IH]; intros body H.
  - cbn [app write_records] in H. unfold write_record in H.
    destruct (pack_bQiQH _ _ _ _ _) as [hdr|] eqn:Eh; [|discriminate].
    destruct (encode_ascii _) as [nm|] eqn:En; [|discriminate].
    cbn [rbind] in H. injection H as <-.
    apply encode_ascii_inv in En as [-> _].
    exists [], hdr. by rewrite app_nil_r.
  - cbn [app write_records] in H.
    destruct (write_record x) as [r|] eqn:Er; [|discriminate].
    cbn [rbind] in H.
    destruct (write_records (ds ++ [d])) as [rs|] eqn:Ers; [|discriminate].
    cbn [rbind] in H. injection H as <-.
    destruct (IH rs eq_refl) as (b1 & hdr & E1 & Eh & ->).
    exists (r ++ b1), hdr. cbn [write_records]. rewrite Er, E1. cbn [rbind].
    by rewrite <- app_assoc.
Qed.

Lemma take_app_tail {A} (a b : list A) (j : nat) :
  (j <= length b)%nat ->
  take (length (a ++ b) - j) (a ++ b) = a ++ take (length b - j) b.
Proof.
  intros Hj. rewrite length_app, take_app.
  rewrite take_ge by lia. f_equal. f_equal. lia.
Qed.

Lemma read_short (bs : list byte) (n : nat) :
  (length bs <= n)%nat -> read n bs = (bs, []).
Proof.
  intros H. unfold read. by rewrite take_ge, drop_ge.
Qed.

(** A log as the writer leaves it, seen in its parts. *)
Lemma encode_snoc ds d file :
  encode (ds ++ [d]) = Ok file ->
  exists m c b1 hdr,
    pack_L magic = Ok m
    /\ pack_L (Z.of_nat (length ds + 1)) = Ok c
    /\ write_records ds = Ok b1
    /\ pack_bQiQH (operation d) (rec_thread d) (frameId d) (timestamp d)
                  (Z.of_nat (String.length (rec_name d))) = Ok hdr
    /\ file = (m ++ c ++ b1) ++ hdr ++ String.list_byte_of_string (rec_name d).
Proof.
  unfold encode, write_binary. rewrite length_app. cbn [length].
  destruct (pack_L magic) as [m|] eqn:Em; [|discriminate].
  destruct (pack_L (Z.of_nat (length ds + 1))) as [c|] eqn:Ec; [|discriminate].
  destruct (write_records (ds ++ [d])) as [body|] eqn:Eb; [|discriminate].
  cbn [rbind]. intros [= <-].
  destruct (write_records_snoc ds d body Eb) as (b1 & hdr & E1 & Eh & ->).
  exists m, c, b1, hdr. repeat split; try done.
  by rewrite <- !app_assoc.
Qed.

Lemma read_log_parts m c n rest :
  pack_L magic = Ok m ->
  pack_L (Z.of_nat n) = Ok c ->
  read_log (m ++ c ++ rest) =
  (recs <~ read_records n rest ;; Ok (Binary recs)).
Proof.
  intros Em Ec.
  pose proof Em as Lm. apply pack_unsigned_inv in Lm as [Lm _].
  pose proof Ec as Lc. apply pack_unsigned_inv in Lc as [Lc _].
  apply unpack_L_pack in Em, Ec.
  unfold read_log.
  rewrite (read_app m _ 4 Lm), Em. cbn [rbind]. rewrite Z.eqb_refl.
  rewrite (read_app c _ 4 Lc), Ec. cbn [rbind]. by rewrite Nat2Z.id.
Qed.

End CodecCut.

(** * The second loop of [PrintPerfReport] *)

Module Annotations.
Import Report ReportMore FramesMore.

(** The exceptions of this loop: [ValueError] from [min] of an empty
    sequence, beside the ones met so far. *)
Inductive failure : Set :=
  | ValueError
  | Builtin (e : exn).

Inductive outcome (A : Type) : Type :=
  | Done (a : A)
  | Failed (f : failure).

Arguments Done {A} a.
Arguments Failed {A} f.

(** The body of the loop for the annotation [pair].  The list
    [allFramesAnnotations] is appended to and never read (the one
    statement that used it is commented out), so of the line that feeds
    it only the exception of [min(earliestByFrame.values())] is kept. *)
Definition annotate (fs : Frames) (pair : Annotation) : outcome Frames :=
  let frame := an_frame pair in
  if decide (earliestByFrame fs = ∅) then Failed ValueError
  else
    match earliestByFrame fs !! frame with
    | None => Failed (Builtin KeyError)
    | Some e =>
      match annotationsByFrame fs !! frame with
      | None => Failed (Builtin KeyError)
      | Some l =>
        Done (mkFrames (elementsByFrame fs) (earliestByFrame fs) (latestByFrame fs)
                       (allFramesQueue fs)
                       (<[frame := l ++ [mkAnnotation (an_text pair) (an_thread pair)
                                                      (an_frame pair) (an_time pair - e)]]>
                          (annotationsByFrame fs)))
      end
    end.

Fixpoint annotate_all (fs : Frames) (anns : list Annotation) : outcome Frames :=
  match anns with
  | [] => Done fs
  | note :: rest =>
    match annotate fs note with
    | Done fs' => annotate_all fs' rest
    | Failed f => Failed f
    end
  end.

(** Lines 544 to 579 of [PrintPerfReport]: the loop over the queue, then
    the loop over the annotations. *)
Definition PrintPerfReport_collect (minFrameTime : option Q)
  (queue : list Completed) (anns : list Annotation) : outcome Frames :=
  match PrintPerfReport_frames minFrameTime queue with
  | Ok fs => annotate_all fs anns
  | Raise e => Failed (Builtin e)
  end.

Definition noted_in (f : option Z) (a : Annotation) : Prop := an_frame a = f.

#[export] Instance noted_in_dec f a : Decision (noted_in f a).
Proof. unfold noted_in. apply _. Defined.

(** An annotation with its timestamp taken from the start of its frame. *)
Definition since (e : Q) (a : Annotation) : Annotation :=
  mkAnnotation (an_text a) (an_thread a) (an_frame a) (an_time a - e).

(** The two dictionaries the loop reads have the same keys. *)
Definition keyed (fs : Frames) : Prop :=
  forall f, earliestByFrame fs !! f = None <-> annotationsByFrame fs !! f = None.

Lemma annotate_all_done anns : forall fs,
  keyed fs ->
  Forall (fun a => earliestByFrame fs !! an_frame a <> None) anns ->
  exists fs',
    annotate_all fs anns = Done fs'
    /\ elementsByFrame fs' = elementsByFrame fs
    /\ earliestByFrame fs' = earliestByFrame fs
    /\ latestByFrame fs' = latestByFrame fs
    /\ allFramesQueue fs' = allFramesQueue fs
    /\ forall f,
         annotationsByFrame fs' !! f =
         match earliestByFrame fs !! f, annotationsByFrame fs !! f with
         | Some e, Some l => Some (l ++ map (since e) (filter (noted_in f) anns))
         | _, _ => None
         end.
Proof.
  induction anns as [|a anns IH]; intros fs Hk Hall.
  - exists fs. repeat split; try done. intros f. simpl.
    destruct (earliestByFrame fs !! f) eqn:Ee;
      destruct (annotationsByFrame fs !! f) eqn:Ea; try done.
    + by rewrite app_nil_r.
    + apply Hk in Ee. congruence.
  - inversion Hall as [|? ? Ha Hrest]; subst.
    destruct (earliestByFrame fs !! an_frame a) as [e|] eqn:Ee; [|done].
    destruct (annotationsByFrame fs !! an_frame a) as [l|] eqn:Ea.
    2:{ apply Hk in Ea. congruence. }
    assert (earliestByFrame fs <> ∅) as Hne.
    { intros H0. rewrite H0 in Ee. by rewrite lookup_empty in Ee. }
    cbn [annotate_all]. unfold annotate.
    destruct (decide (earliestByFrame fs = ∅)) as [|_]; [done|].
    rewrite Ee, Ea.
    match goal with |- context [annotate_all ?x anns] => set (fs1 := x) end.
    destruct (IH fs1) as (fs' & E & H1 & H2 & H3 & H4 & H5).
    { intros f. cbn. destruct (decide (an_frame a = f)) as [<-|Hf].
      - rewrite lookup_insert_eq, Ee. split; discriminate.
      - rewrite lookup_insert_ne by done. apply Hk. }
    { exact Hrest. }
    exists fs'. split; [exact E|]. repeat split; try done.
    intros f. rewrite H5. cbn [fs1 earliestByFrame annotationsByFrame].
    rewrite filter_cons. unfold noted_in at 2.
    destruct (decide (an_frame a = f)) as [<-|Hf].
    + rewrite lookup_insert_eq, Ee, Ea. cbn [map]. by rewrite <- app_assoc.
    + by rewrite lookup_insert_ne.
Qed.

Lemma annotate_all_missing anns : forall fs,
  keyed fs ->
  earliestByFrame fs <> ∅ ->
  Exists (fun a => earliestByFrame fs !! an_frame a = None) anns ->
  annotate_all fs anns = Failed (Builtin KeyError).
Proof.
  induction anns as [|a anns IH]; intros fs Hk Hne Hex.
  - by apply Exists_nil in Hex.
  - cbn [annotate_all]. unfold annotate.
    destruct (decide (earliestByFrame fs = ∅)) as [|_]; [done|].
    destruct (earliestByFrame fs !! an_frame a) as [e|] eqn:Ee; [|done].
    destruct (annotationsByFrame fs !! an_frame a) as [l|] eqn:Ea; [|done].
    apply Exists_cons in Hex as [Hex|Hex]; [congruence|].
    apply IH; try done.
    intros f. cbn. destruct (decide (an_frame a = f)) as [<-|Hf].
    + rewrite lookup_insert_eq, Ee. split; discriminate.
    + rewrite lookup_insert_ne by done. apply Hk.
Qed.

(** What the first loop, run without a minimum, leaves for the second. *)
Lemma frames_keyed queue :
  exists fs,
    PrintPerfReport_frames None queue = Ok fs
    /\ keyed fs
    /\ (forall f, earliestByFrame fs !! f = None <-> filter (in_frame f) queue = [])
    /\ (forall f, annotationsByFrame fs !! f = None
                  \/ annotationsByFrame fs !! f = Some []).
Proof.
  destruct (drain_unfiltered None queue no_frames paired_no_frames)
    as (fs & E & _ & _ & S).
  exists fs. split; [exact E|].
  assert (forall f,
            (earliestByFrame fs !! f = None <-> filter (in_frame f) queue = [])
            /\ (annotationsByFrame fs !! f = None <-> filter (in_frame f) queue = [])
            /\ (annotationsByFrame fs !! f = None
                \/ annotationsByFrame fs !! f = Some [])) as H.
  { intros f. destruct (S f) as (_ & S2 & _ & S4). cbv zeta in *.
    cbn [no_frames earliestByFrame annotationsByFrame] in S2, S4.
    rewrite lookup_empty in S2. rewrite lookup_empty in S4.
    rewrite S2, S4.
    destruct (filter (in_frame f) queue) as [|ev rest].
    { split; [done|]. split; [done | by left]. }
    destruct (earliest_fold_min rest (ce_start ev)) as (e & Ee & _).
    unfold earliest_fold in *. cbn [fold_left]. rewrite Ee.
    split; [done|]. split; [done | by right]. }
  split; [|split].
  - intros f. destruct (H f) as (H1 & H2 & _). by rewrite H1, H2.
  - intros f. apply H.
  - intros f. apply H.
Qed.

End Annotations.

(** * Further properties *)

Module Further.
Import Live LiveFacts Regions LiveMore.

Definition sample_region : Block :=
  With "load" (Some 3%Z) 10
       [With "parse" (Some 3%Z) 12 [] 15; With "link" (Some 3%Z) 15 [] 21] 30.

(** X1.  A region run with collection enabled appends exactly one event
    for each region of its tree; every one of them carries the id of the
    running thread, and its inclusive duration is its end timestamp
    minus its start timestamp. *)
Theorem X1_one_event_per_region st tid b :
  _collecting st = true ->
  refs_valid st ->
  exists st' evs,
    exec_block st tid b = Ok st'
    /\ perfQueue st' = perfQueue st ++ evs
    /\ length evs = regions b
    /\ Forall (fun ev => ce_thread ev = tid
                         /\ ce_inclusive ev = ce_end ev - ce_start ev) evs.
Proof.
  intros Hcol Hv.
  destruct (exec_block_emits st tid b Hcol Hv) as (st' & E & _ & _ & _ & _ & Q).
  exists st', (emitted (prefix_of st tid) tid b).
  split; [exact E|]. split; [exact Q|].
  split; [apply emitted_length | apply emitted_fields].
Qed.

Lemma X1_witness :
  _collecting initial = true
  /\ refs_valid initial
  /\ exists st' evs,
       exec_block initial 7 sample_region = Ok st'
       /\ perfQueue st' = perfQueue initial ++ evs
       /\ length evs = regions sample_region
       /\ Forall (fun ev => ce_thread ev = 7%Z
                            /\ ce_inclusive ev = ce_end ev - ce_start ev) evs.
Proof.
  split; [reflexivity|]. split; [exact refs_valid_initial|].
  exact (X1_one_event_per_region initial 7%Z sample_region
           eq_refl refs_valid_initial).
Defined.

(** X3.  A region run on a thread leaves the stack of every other thread
    as it was, leaves its own thread's stack as it found it (an empty
    list when no region with attributes was open), and changes no timer
    that existed before it other than the one on top of its own thread's
    stack. *)
Theorem X3_other_threads_untouched st tid b :
  _collecting st = true ->
  refs_valid st ->
  exists st',
    exec_block st tid b = Ok st'
    /\ (forall t, t <> tid -> perfStack st' !! t = perfStack st !! t)
    /\ perfStack st' !! tid =
       match parent_of st tid with
       | Some _ => perfStack st !! tid
       | None => Some []
       end
    /\ (forall l, (l < length (objects st))%nat ->
                  (perfStack st !! tid ≫= peek 0) <> Some l ->
                  objects st' !! l = objects st !! l).
Proof. apply exec_block_frame. Qed.

(** A state in which thread 1 has a region open. *)
Definition one_open : State :=
  mkState true [Some (mkTimer None "outer" 1 1 0 0 "outer" 1)]
          {[ 1%Z := [0%nat] ]} [] [].

Lemma refs_valid_one_open : refs_valid one_open.
Proof.
  intros t stk p H Hin. simpl in *.
  destruct (decide (t = 1%Z)) as [->|Hne].
  - rewrite lookup_singleton_eq in H. injection H as <-.
    apply list_elem_of_singleton in Hin as ->. lia.
  - by rewrite lookup_singleton_ne in H.
Qed.

Lemma X3_witness :
  _collecting one_open = true
  /\ refs_valid one_open
  /\ exists st',
       exec_block one_open 2 sample_region = Ok st'
       /\ perfStack st' !! 1%Z = Some [0%nat]
       /\ objects st' !! 0%nat = Some (Some (mkTimer None "outer" 1 1 0 0 "outer" 1)).
Proof.
  split; [reflexivity|]. split; [exact refs_valid_one_open|].
  destruct (X3_other_threads_untouched one_open 2%Z sample_region
              eq_refl refs_valid_one_open) as (st' & E & S & _ & F).
  exists st'. split; [exact E|]. split.
  - rewrite S by done. reflexivity.
  - rewrite F; [reflexivity | simpl; lia | done].
Defined.

(** X4.  A whole tree of regions run while collection is disabled
    returns and leaves the queue of completed events, the stacks and the
    annotations as they were. *)
Theorem X4_disabled_tree_leaves_no_trace b st tid :
  _collecting st = false ->
  exists st',
    exec_block st tid b = Ok st'
    /\ _collecting st' = false
    /\ perfQueue st' = perfQueue st
    /\ perfStack st' = perfStack st
    /\ annotations st' = annotations st.
Proof. apply exec_block_disabled. Qed.

Lemma X4_witness :
  _collecting (DisablePerfTracking one_open) = false
  /\ exists st',
       exec_block (DisablePerfTracking one_open) 1 sample_region = Ok st'
       /\ _collecting st' = false
       /\ perfQueue st' = []
       /\ perfStack st' = {[ 1%Z := [0%nat] ]}
       /\ annotations st' = [].
Proof.
  split; [reflexivity|].
  exact (X4_disabled_tree_leaves_no_trace sample_region
           (DisablePerfTracking one_open) 1%Z eq_refl).
Defined.

(** X5.  A timer built and entered while collection is disabled has no
    attributes: if collection is enabled before its region ends, its
    [__exit__] raises [AttributeError]. *)
Theorem X5_enabled_inside_disabled_region st tid name fr t0 t1 :
  _collecting st = false ->
  let st0 := fst (__init__ st tid name fr) in
  let self := snd (__init__ st tid name fr) in
  __enter__ st0 tid self t0 = Ok st0
  /\ __exit__ (EnablePerfTracking st0 true) tid self t1 = Raise AttributeError.
Proof.
  intros Hcol st0 self. subst st0 self. unfold __init__. rewrite Hcol.
  cbn [fst snd]. split; [reflexivity|].
  unfold __exit__, EnablePerfTracking. cbn [_collecting objects perfStack].
  assert (cell (objects st ++ [None]) (length (objects st)) = None) as Hself.
  { unfold cell. by rewrite list_lookup_middle. }
  destruct (perfStack st !! tid ≫= peek 1) as [q|]; [|by rewrite Hself].
  destruct (cell (objects st ++ [None]) q) as [prev|] eqn:Hq; [|by rewrite Hself].
  assert (q <> length (objects st)) as Hne by (intros ->; congruence).
  by rewrite cell_insert_ne, Hself.
Qed.

Lemma X5_witness :
  _collecting (DisablePerfTracking initial) = false
  /\ __enter__ (fst (__init__ (DisablePerfTracking initial) 7 "A" None)) 7
               (snd (__init__ (DisablePerfTracking initial) 7 "A" None)) 100
     = Ok (fst (__init__ (DisablePerfTracking initial) 7 "A" None))
  /\ __exit__ (EnablePerfTracking
                 (fst (__init__ (DisablePerfTracking initial) 7 "A" None)) true) 7
              (snd (__init__ (DisablePerfTracking initial) 7 "A" None)) 220
     = Raise AttributeError.
Proof.
  split; [reflexivity|].
  exact (X5_enabled_inside_disabled_region (DisablePerfTracking initial) 7%Z
           "A" None 100 220 eq_refl).
Defined.

Import Codec ReplayFacts ReplayMore.

(** X6.  The recording of a tree of regions (an Enter, the recordings of
    the nested regions, an Exit, on one thread), replayed from the start,
    puts in the queue exactly the events the live stack appends for the
    same regions with the same clock readings taken in seconds. *)
Theorem X6_replay_matches_live r threadId :
  exists st' live',
    Replay.replay Replay.initial (stream threadId r) = Ok st'
    /\ exec_block initial threadId (live_of r) = Ok live'
    /\ Replay.perfQueue st' = perfQueue live'.
Proof.
  destruct (replay_outermost r Replay.initial threadId) as (st' & E & Q & _).
  { unfold Replay.open_region. simpl. by rewrite lookup_empty. }
  destruct (exec_block_emits initial threadId (live_of r) eq_refl refs_valid_initial)
    as (live' & E' & _ & _ & _ & _ & Q').
  exists st', live'. split; [exact E|]. split; [exact E'|].
  rewrite Q, Q'. unfold prefix_of, parent_of, Replay.pending. simpl.
  rewrite !lookup_empty. simpl. by rewrite lookup_empty.
Qed.

Definition frame_of_rec (r : Recorded) : Z := match r with Rec _ f _ _ _ => f end.
Definition enter_of_rec (r : Recorded) : Z := match r with Rec _ _ t _ _ => t end.
Definition exit_of_rec (r : Recorded) : Z := match r with Rec _ _ _ _ t => t end.

(** X7.  The recording of a tree of regions replayed on a thread with no
    region open returns; it appends the [<unknown>] event first when a
    boundary is pending for the thread and the frame of the outermost
    region, then the events of the tree; it leaves the stack of the
    thread empty and the timestamp of the last Exit as the pending
    boundary. *)
Theorem X7_replay_of_outermost_region r st threadId :
  Replay.open_region st threadId = None ->
  let bridge :=
    match Replay.pending (Replay.lastEnd st) threadId (frame_of_rec r) with
    | Some b =>
      [mkCompleted "<unknown>"
                   (Replay.seconds (enter_of_rec r) - b)
                   (Replay.seconds (enter_of_rec r) - b)
                   threadId (Some (frame_of_rec r)) b
                   (Replay.seconds (enter_of_rec r))]
    | None => []
    end in
  exists st',
    Replay.replay st (stream threadId r) = Ok st'
    /\ Replay.perfQueue st' =
       Replay.perfQueue st ++ bridge ++ emitted None threadId (live_of r)
    /\ Replay.stacks st' !! threadId = Some []
    /\ Replay.pending (Replay.lastEnd st') threadId (frame_of_rec r)
       = Some (Replay.seconds (exit_of_rec r))
    /\ Replay.annotations st' = Replay.annotations st.
Proof. intros H. by apply replay_outermost. Qed.

Definition sample_recorded : Recorded :=
  Rec "tick" 0 150 [Rec "draw" 0 160 [] 165] 170.

Definition idle_with_boundary : Replay.State :=
  Replay.mkState {[ 1%Z := [] ]}
                 {[ 1%Z := {[ 0%Z := Some (Replay.seconds 100) ]} ]} [] [].

Lemma X7_witness :
  Replay.open_region idle_with_boundary 1 = None
  /\ exists st',
       Replay.replay idle_with_boundary (stream 1 sample_recorded) = Ok st'
       /\ map ce_scope (Replay.perfQueue st') = ["<unknown>"; "tick::draw"; "tick"]
       /\ Replay.stacks st' !! 1%Z = Some [].
Proof.
  assert (Replay.open_region idle_with_boundary 1 = None) as H by reflexivity.
  split; [exact H|].
  destruct (X7_replay_of_outermost_region sample_recorded idle_with_boundary 1%Z H)
    as (st' & E & Q & S & _).
  exists st'. split; [exact E|]. split; [|exact S].
  rewrite Q. reflexivity.
Defined.

(** X8.  An Exit for a thread that has no region open stops the replay,
    whatever follows it in the stream: with [KeyError] when the thread
    never had a region, with [IndexError] when all its regions are
    closed. *)
Theorem X8_unmatched_exit_stops_replay st pre st1 threadId frameId timestamp name rest :
  Replay.replay st pre = Ok st1 ->
  Replay.open_region st1 threadId = None ->
  Replay.replay st
    (pre ++ mkRecording Operation_Exit threadId frameId timestamp name :: rest)
  = Raise (match Replay.stacks st1 !! threadId with
           | None => KeyError
           | Some _ => IndexError
           end).
Proof.
  intros Hpre Hopen. rewrite replay_app, Hpre. cbn [rbind Replay.replay].
  rewrite step_exit. unfold Replay.exit. unfold Replay.open_region in Hopen.
  destruct (Replay.stacks st1 !! threadId) as [stk|]; [|done].
  by rewrite Hopen.
Qed.

Lemma X8_witness :
  Replay.replay Replay.initial [Replay.Enter 1 0 "W" 50; Replay.Exit 1 0 100]
  = Ok (Replay.mkState
          {[ 1%Z := [] ]}
          {[ 1%Z := {[ 0%Z := Some (Replay.seconds 100) ]} ]}
          [mkCompleted "W" (Replay.seconds 100 - Replay.seconds 50)
                       (0 + (Replay.seconds 100 - Replay.seconds 50))
                       1 (Some 0%Z) (Replay.seconds 50) (Replay.seconds 100)]
          [])
  /\ Replay.replay Replay.initial
       ([Replay.Enter 1 0 "W" 50; Replay.Exit 1 0 100]
          ++ mkRecording Operation_Exit 1 0 120 "" :: [Replay.Enter 1 0 "X" 150])
     = Raise IndexError.
Proof.
  assert (Replay.replay Replay.initial [Replay.Enter 1 0 "W" 50; Replay.Exit 1 0 100]
          = Ok (Replay.mkState
                  {[ 1%Z := [] ]}
                  {[ 1%Z := {[ 0%Z := Some (Replay.seconds 100) ]} ]}
                  [mkCompleted "W" (Replay.seconds 100 - Replay.seconds 50)
                               (0 + (Replay.seconds 100 - Replay.seconds 50))
                               1 (Some 0%Z) (Replay.seconds 50) (Replay.seconds 100)]
                  [])) as H by reflexivity.
  split; [exact H|].
  exact (X8_unmatched_exit_stops_replay _ _ _ 1%Z 0%Z 120%Z "" _ H eq_refl).
Defined.

Import CodecFacts CodecMore CodecCut.

(** X9.  The writer accepts a log exactly when the operation fits a
    signed byte, the thread id and the timestamp fit 64 unsigned bits,
    the frame id fits 32 signed bits, every name is ASCII and shorter
    than 65536, and the log has fewer than 2^32 records; any other log
    ends the writer with an exception. *)
Theorem X9_writer_accepts_exactly_valid_logs datas :
  (exists file, encode datas = Ok file) <-> valid_log datas = true.
Proof.
  split.
  - intros [file E]. by eapply encode_valid.
  - apply encode_ok.
Qed.

(** X10.  A written log is 8 bytes of header followed, for each record,
    by 23 bytes and the bytes of its name. *)
Theorem X10_size_of_a_written_log datas file :
  encode datas = Ok file ->
  length file = (8 + records_size datas)%nat.
Proof. apply encode_length. Qed.

Definition two_records : list (Recording string) :=
  [mkRecording Operation_Enter 1 (-1) 258 "DemoFunc_0_0";
   mkRecording Operation_Exit 1 (-1) 300 ""].

Definition two_records_file : list byte :=
  match encode two_records with Ok f => f | Raise _ => [] end.

Lemma X10_witness :
  encode two_records = Ok two_records_file
  /\ length two_records_file = (8 + records_size two_records)%nat.
Proof.
  assert (encode two_records = Ok two_records_file) as H by reflexivity.
  split; [exact H|].
  exact (X10_size_of_a_written_log two_records two_records_file H).
Defined.

(** X11.  Whatever binary file the reader accepts, no name it returns
    contains ["::"]. *)
Theorem X11_names_read_have_no_separator file recs :
  read_log file = Ok (Binary recs) ->
  Forall (fun r => has_sep (rec_name r) = false) recs.
Proof.
  unfold read_log. cbn [read].
  destruct (unpack_L (take 4 file)) as [v|]; [|discriminate]. cbn [rbind].
  destruct (Z.eqb v magic); [|discriminate].
  destruct (unpack_L _) as [count|]; [|discriminate]. cbn [rbind].
  destruct (read_records _ _) as [rs|] eqn:Er; [|discriminate]. cbn [rbind].
  intros [= <-]. by eapply read_records_clean.
Qed.

Definition separator_log_file : list byte :=
  match encode [mkRecording Operation_Enter 1 0 0 "a::b:::c"] with
  | Ok f => f
  | Raise _ => []
  end.

Lemma X11_witness :
  read_log separator_log_file
  = Ok (Binary [mkRecording Operation_Enter 1 0 0
                            (String.list_byte_of_string "a.b.:c")])
  /\ Forall (fun r : Recording (list byte) => has_sep (rec_name r) = false)
            [mkRecording Operation_Enter 1 0 0
                         (String.list_byte_of_string "a.b.:c")].
Proof.
  assert (read_log separator_log_file
          = Ok (Binary [mkRecording Operation_Enter 1 0 0
                                    (String.list_byte_of_string "a.b.:c")])) as H
    by (vm_compute; reflexivity).
  split; [exact H|].
  exact (X11_names_read_have_no_separator _ _ H).
Defined.

(** X12.  A file shorter than four bytes makes the reader raise
    [struct.error]; a file of four bytes or more that does not begin
    with the magic number is handed to the JSON reader. *)
Theorem X12_files_that_are_not_binary_logs file :
  ((length file < 4)%nat -> read_log file = Raise StructError)
  /\ ((4 <= length file)%nat ->
      unpack_unsigned (take 4 file) <> magic ->
      read_log file = Ok Json).
Proof.
  unfold read_log. cbn [read]. unfold unpack_L. split.
  - intros H. rewrite length_take.
    destruct (Nat.eqb_spec (4 `min` length file) 4) as [E|E]; [lia | done].
  - intros H Hm. rewrite length_take.
    destruct (Nat.eqb_spec (4 `min` length file) 4) as [E|E]; [|lia].
    cbn [rbind]. by destruct (Z.eqb_spec (unpack_unsigned (take 4 file)) magic).
Qed.

Lemma X12_witness :
  (length [Byte.x57; Byte.xfa] < 4)%nat
  /\ read_log [Byte.x57; Byte.xfa] = Raise StructError
  /\ (4 <= length [Byte.x5b; Byte.x5b; Byte.x30; Byte.x2c])%nat
  /\ unpack_unsigned (take 4 [Byte.x5b; Byte.x5b; Byte.x30; Byte.x2c]) <> magic
  /\ read_log [Byte.x5b; Byte.x5b; Byte.x30; Byte.x2c] = Ok Json.
Proof.
  assert ((length [Byte.x57; Byte.xfa] < 4)%nat) as H1 by (simpl; lia).
  assert ((4 <= length [Byte.x5b; Byte.x5b; Byte.x30; Byte.x2c])%nat) as H2
    by (simpl; lia).
  assert (unpack_unsigned (take 4 [Byte.x5b; Byte.x5b; Byte.x30; Byte.x2c]) <> magic)
    as H3 by (vm_compute; discriminate).
  split; [exact H1|].
  split; [exact (proj1 (X12_files_that_are_not_binary_logs _) H1)|].
  split; [exact H2|]. split; [exact H3|].
  exact (proj2 (X12_files_that_are_not_binary_logs _) H2 H3).
Defined.

(** X13.  A written log with its last [j] bytes missing: when the cut
    falls inside the name of the last record the reader accepts the
    file and returns that record with the shorter name; when it falls
    inside the 23 bytes before that name the reader raises
    [struct.error]. *)
Theorem X13_log_cut_short ds d file j :
  encode (ds ++ [d]) = Ok file ->
  let n := String.length (rec_name d) in
  let nm := String.list_byte_of_string (rec_name d) in
  ((j <= n)%nat ->
   read_log (take (length file - j) file) =
   Ok (Binary (map bytes_rec ds ++
                 [mkRecording (operation d) (rec_thread d) (frameId d) (timestamp d)
                              (replace_sep (take (n - j) nm))])))
  /\ ((n < j <= n + 23)%nat ->
      read_log (take (length file - j) file) = Raise StructError).
Proof.
  intros E n nm.
  destruct (encode_snoc ds d file E) as (m & c & b1 & hdr & Em & Ec & E1 & Eh & ->).
  apply unpack_pack_bQiQH in Eh as [Lh Uh].
  assert (length nm = n) as Ln by apply length_list_byte_of_string.
  fold nm. split.
  - intros Hj. rewrite (app_assoc _ hdr nm).
    rewrite take_app_tail by lia. rewrite Ln.
    rewrite <- !app_assoc.
    rewrite (read_log_parts m c (length ds + 1) _ Em Ec).
    rewrite (read_records_app ds b1 1 _ E1).
    cbn [read_records]. rewrite (read_app hdr _ _ Lh), Uh. cbn [rbind].
    rewrite read_short by (rewrite length_take; lia).
    by cbn [rbind].
  - intros Hj. rewrite take_app_tail by (rewrite length_app; lia).
    rewrite length_app, Lh, Ln.
    rewrite take_app_le by lia.
    rewrite <- !app_assoc.
    rewrite (read_log_parts m c (length ds + 1) _ Em Ec).
    rewrite (read_records_app ds b1 1 _ E1).
    cbn [read_records]. rewrite read_short by (rewrite length_take; lia).
    unfold unpack_bQiQH. rewrite length_take, Lh.
    destruct (Nat.eqb_spec ((23 + n - j) `min` 23) 23) as [E'|E']; [lia|].
    reflexivity.
Qed.

Lemma X13_witness :
  encode ([] ++ [mkRecording Operation_Enter 1 0 7 "render"]) = Ok
    (match encode [mkRecording Operation_Enter 1 0 7 "render"] with
     | Ok f => f | Raise _ => [] end)
  /\ (2 <= String.length "render")%nat
  /\ read_log (take (8 + 23 + 6 - 2)
                 (match encode [mkRecording Operation_Enter 1 0 7 "render"] with
                  | Ok f => f | Raise _ => [] end))
     = Ok (Binary [mkRecording Operation_Enter 1 0 7
                               (String.list_byte_of_string "rend")]).
Proof.
  assert (encode ([] ++ [mkRecording Operation_Enter 1 0 7 "render"]) = Ok
            (match encode [mkRecording Operation_Enter 1 0 7 "render"] with
             | Ok f => f | Raise _ => [] end)) as H by reflexivity.
  assert ((2 <= String.length "render")%nat) as H2 by (simpl; lia).
  split; [exact H|]. split; [exact H2|].
  exact (proj1 (X13_log_cut_short [] _ _ 2%nat H) H2).
Defined.

Import Report ReportFacts ReportMore FramesMore.


(** X15.  Every event lies between the running minimum and the running
    maximum of its key: in the entry of its key, [MinInc] is at most its
    inclusive duration, which is at most [MaxInc], and likewise for the
    exclusive duration. *)
Theorem X15_min_and_max_bound_the_group reportMode queue ev :
  In ev queue ->
  exists e,
    fullreport reportMode queue !! key_of reportMode (ce_scope ev) = Some e
    /\ MinInc e <= ce_inclusive ev /\ ce_inclusive ev <= MaxInc e
    /\ MinExc e <= ce_exclusive ev /\ ce_exclusive ev <= MaxExc e.
Proof.
  intros Hin. set (k := key_of reportMode (ce_scope ev)).
  rewrite fullreport_group.
  assert (ev ∈ filter (in_group reportMode k) queue) as Hev.
  { apply list_elem_of_filter. split; [done | by apply list_elem_of_In]. }
  pose proof (group_fold_within (filter (in_group reportMode k) queue)) as Hw.
  destruct (group_fold (filter (in_group reportMode k) queue) None) as [e|] eqn:Eg.
  - exists e. split; [done|].
    rewrite Forall_forall in Hw. exact (Hw ev Hev).
  - apply group_fold_None in Eg. rewrite Eg in Hev. by apply elem_of_nil in Hev.
Qed.

Definition two_events : list Completed :=
  [mkCompleted "X::Y" 5 3 1 None 0 5; mkCompleted "Z::Y" 2 2 2 None 7 9].

Lemma X15_witness :
  In (mkCompleted "Z::Y" 2 2 2 None 7 9) two_events
  /\ exists e,
       fullreport FLAT two_events !! "Y" = Some e
       /\ MinInc e <= 2 /\ 2 <= MaxInc e /\ MinExc e <= 2 /\ 2 <= MaxExc e.
Proof.
  assert (In (mkCompleted "Z::Y" 2 2 2 None 7 9) two_events) as H
    by (right; left; reflexivity).
  split; [exact H|].
  exact (X15_min_and_max_bound_the_group FLAT two_events _ H).
Defined.

(** X16.  The report of a thread is the full report of the events of
    that thread alone; a thread without events has no report. *)
Theorem X16_report_of_a_thread reportMode queue t :
  threadreports reportMode queue !! t =
  match filter (of_thread t) queue with
  | [] => None
  | evs => Some (fullreport reportMode evs)
  end.
Proof. apply threadreports_thread. Qed.

(** X17.  In tree or flat mode, when every event comes from the thread
    that asks for the report, the report is one table, titled for the
    main thread, that holds the full report; no cumulative table is
    printed. *)
Theorem X17_report_of_one_thread reportMode queue current :
  reportMode <> HTML ->
  queue <> [] ->
  Forall (of_thread current) queue ->
  _printPerfReport reportMode queue current =
  Ok (Text [mkTable MainThread (fullreport reportMode queue)]).
Proof. apply report_one_thread. Qed.

Lemma X17_witness :
  TREE <> HTML
  /\ [mkCompleted "A" 1 1 7 None 0 1] <> []
  /\ Forall (of_thread 7) [mkCompleted "A" 1 1 7 None 0 1]
  /\ _printPerfReport TREE [mkCompleted "A" 1 1 7 None 0 1] 7 =
     Ok (Text [mkTable MainThread (fullreport TREE [mkCompleted "A" 1 1 7 None 0 1])]).
Proof.
  assert (TREE <> HTML) as H1 by discriminate.
  assert ([mkCompleted "A" 1 1 7 None 0 1] <> []) as H2 by discriminate.
  assert (Forall (of_thread 7) [mkCompleted "A" 1 1 7 None 0 1]) as H3
    by (constructor; [reflexivity | constructor]).
  split; [exact H1|]. split; [exact H2|]. split; [exact H3|].
  exact (X17_report_of_one_thread TREE _ 7%Z H1 H2 H3).
Defined.

Definition three_threads : list Completed :=
  [mkCompleted "A" 1 1 3 None 0 1; mkCompleted "B" 1 1 9 None 1 2;
   mkCompleted "C" 1 1 1 None 2 3; mkCompleted "A" 1 1 3 None 3 4].

(** X18.  In tree or flat mode, when the thread that asks for the report
    and at least one other thread have events, the report ends with the
    table of the main thread, holding the report of its events alone,
    and the cumulative table, holding the full report; before them come
    the tables of the other threads that have events: exactly one for
    each (no table twice, none missing, nothing else), each holding the
    report of that thread's events, in the order in which the threads
    first appear in the queue. *)
Theorem X18_report_of_many_threads reportMode queue current other :
  reportMode <> HTML ->
  other <> current ->
  filter (of_thread current) queue <> [] ->
  filter (of_thread other) queue <> [] ->
  exists workers,
    _printPerfReport reportMode queue current =
    Ok (Text (workers
                ++ [mkTable MainThread
                            (fullreport reportMode (filter (of_thread current) queue));
                    mkTable Cumulative (fullreport reportMode queue)]))
    /\ workers =
       map (fun t => mkTable (WorkerThread t)
                             (fullreport reportMode (filter (of_thread t) queue)))
           (filter (fun t => t <> current) (thread_order queue))
    /\ NoDup workers
    /\ (forall tb,
         In tb workers <->
         exists t, t <> current
                   /\ filter (of_thread t) queue <> []
                   /\ tb = mkTable (WorkerThread t)
                                   (fullreport reportMode (filter (of_thread t) queue)))
    /\ NoDup (thread_order queue)
    /\ (forall t, t ∈ thread_order queue <-> filter (of_thread t) queue <> [])
    /\ (forall ev rest,
         thread_order (ev :: rest) =
         ce_thread ev :: filter (fun t => t <> ce_thread ev) (thread_order rest)).
Proof.
  intros Hmode Hother Hcur Hoth. eexists.
  split; [by apply (report_many_threads reportMode queue current other)|].
  split; [reflexivity|].
  split; [|split; [|split; [apply thread_order_NoDup|
                             split; [apply thread_order_elem|apply thread_order_cons]]]].
  - apply (NoDup_fmap_2_strong
             (fun t => mkTable (WorkerThread t)
                         (fullreport reportMode (filter (of_thread t) queue)))).
    + intros x y _ _ H. by injection H.
    + apply NoDup_filter, thread_order_NoDup.
  - intros tb. rewrite in_map_iff. split.
    + intros (t & <- & Hin). apply list_elem_of_In, list_elem_of_filter in Hin.
      destruct Hin as [Hnt Hin]. apply thread_order_elem in Hin. by exists t.
    + intros (t & Hnt & Hf & ->). exists t. split; [done|].
      apply list_elem_of_In, list_elem_of_filter. split; [done|].
      by apply thread_order_elem.
Qed.

Lemma X18_witness :
  TREE <> HTML
  /\ 3%Z <> 1%Z
  /\ filter (of_thread 1) three_threads <> []
  /\ filter (of_thread 3) three_threads <> []
  /\ _printPerfReport TREE three_threads 1 =
     Ok (Text ([mkTable (WorkerThread 3)
                        (fullreport TREE (filter (of_thread 3) three_threads));
                mkTable (WorkerThread 9)
                        (fullreport TREE (filter (of_thread 9) three_threads))]
                 ++ [mkTable MainThread
                             (fullreport TREE (filter (of_thread 1) three_threads));
                     mkTable Cumulative (fullreport TREE three_threads)])).
Proof.
  assert (TREE <> HTML) as H1 by discriminate.
  assert (3%Z <> 1%Z) as H2 by lia.
  assert (filter (of_thread 1) three_threads <> []) as H3 by (vm_compute; discriminate).
  assert (filter (of_thread 3) three_threads <> []) as H4 by (vm_compute; discriminate).
  split; [exact H1|]. split; [exact H2|]. split; [exact H3|]. split; [exact H4|].
  destruct (X18_report_of_many_threads TREE three_threads 1%Z 3%Z H1 H2 H3 H4)
    as (workers & E & W & _).
  rewrite E, W. reflexivity.
Defined.

(** X19.  In tree or flat mode [_printPerfReport] raises [KeyError]
    exactly when the queue is not empty and holds no event of the thread
    that asks for the report; with an empty queue it returns at once,
    in every mode. *)
Theorem X19_when_the_report_raises reportMode queue current :
  (_printPerfReport reportMode [] current = Ok Silent)
  /\ (reportMode <> HTML ->
      (_printPerfReport reportMode queue current = Raise KeyError
       <-> queue <> [] /\ Forall (fun ev => ce_thread ev <> current) queue)).
Proof.
  split; [reflexivity|]. intros Hmode. split.
  - intros H. unfold _printPerfReport in H. rewrite aggregate_parts in H.
    destruct (decide (fullreport reportMode queue = ∅)) as [|Hfull]; [done|].
    split; [by intros ->|].
    destruct (threadreports reportMode queue !! current) as [r|] eqn:Et.
    { by destruct reportMode. }
    rewrite threadreports_thread in Et.
    destruct (filter (of_thread current) queue) as [|x xs] eqn:Ef; [|done].
    apply Forall_forall. intros ev Hev Hc.
    assert (ev ∈ filter (of_thread current) queue) as Hin
      by (by apply list_elem_of_filter).
    rewrite Ef in Hin. by apply elem_of_nil in Hin.
  - intros [Hne Hall].
    pose proof (fullreport_nonempty reportMode queue Hne) as Hfull.
    pose proof (threadreports_absent reportMode queue current Hall) as Habs.
    unfold _printPerfReport. rewrite aggregate_parts.
    destruct (decide (fullreport reportMode queue = ∅)) as [|_]; [done|].
    rewrite Habs. by destruct reportMode.
Qed.

Lemma X19_witness :
  TREE <> HTML
  /\ ([mkCompleted "A" 1 1 5 None 0 1] <> []
      /\ Forall (fun ev => ce_thread ev <> 7%Z) [mkCompleted "A" 1 1 5 None 0 1])
  /\ _printPerfReport TREE [mkCompleted "A" 1 1 5 None 0 1] 7 = Raise KeyError.
Proof.
  assert (TREE <> HTML) as H1 by discriminate.
  assert ([mkCompleted "A" 1 1 5 None 0 1] <> []
          /\ Forall (fun ev => ce_thread ev <> 7%Z) [mkCompleted "A" 1 1 5 None 0 1])
    as H2 by (split; [discriminate | constructor; [simpl; lia | constructor]]).
  split; [exact H1|]. split; [exact H2|].
  exact (proj2 (proj2 (X19_when_the_report_raises TREE _ 7%Z) H1) H2).
Defined.

(** X20.  With no minimum frame time configured the first loop of
    [PrintPerfReport] never raises.  It keeps the whole queue in order;
    for each frame it keeps the events of that frame in order, an empty
    list of annotations, the least start timestamp and the greatest end
    timestamp among the events of that frame, so that the span of the
    frame is the latest end minus the earliest start of its own events;
    a frame without events has no entry. *)
Theorem X20_frames_without_minimum queue :
  exists fs,
    PrintPerfReport_frames None queue = Ok fs
    /\ allFramesQueue fs = queue
    /\ forall f,
         match filter (in_frame f) queue with
         | [] =>
           elementsByFrame fs !! f = None
           /\ annotationsByFrame fs !! f = None
           /\ frame_span fs f = None
         | evs =>
           elementsByFrame fs !! f = Some evs
           /\ annotationsByFrame fs !! f = Some []
           /\ exists e l,
                earliestByFrame fs !! f = Some e
                /\ latestByFrame fs !! f = Some l
                /\ frame_span fs f = Some (l - e)
                /\ Forall (fun ev => e <= ce_start ev /\ ce_end ev <= l) evs
                /\ Exists (fun ev => ce_start ev = e) evs
                /\ Exists (fun ev => ce_end ev = l) evs
         end.
Proof.
  destruct (drain_unfiltered None queue no_frames paired_no_frames)
    as (fs & E & _ & A & S).
  exists fs. split; [exact E|]. split; [exact A|].
  intros f. destruct (S f) as (S1 & S2 & S3 & S4). cbv zeta in *.
  cbn [no_frames elementsByFrame earliestByFrame latestByFrame annotationsByFrame]
    in S1, S2, S3, S4.
  rewrite lookup_empty in S1. rewrite lookup_empty in S2.
  rewrite lookup_empty in S3. rewrite lookup_empty in S4.
  destruct (filter (in_frame f) queue) as [|ev rest] eqn:Ef.
  - unfold frame_span. rewrite S1, S3, S4. by repeat split.
  - rewrite elements_fold_None in S1.
    destruct (earliest_fold_min rest (ce_start ev)) as (e & Ee & Le & Fe & Oe).
    destruct (latest_fold_max rest (ce_end ev)) as (l & El & Ll & Fl & Ol).
    split; [exact S1|]. split; [exact S4|].
    exists e, l.
    assert (earliestByFrame fs !! f = Some e) as He by (rewrite S2; exact Ee).
    assert (latestByFrame fs !! f = Some l) as Hl by (rewrite S3; exact El).
    split; [exact He|]. split; [exact Hl|]. split.
    { unfold frame_span. by rewrite He, Hl. }
    split; [|split].
    + constructor; [by split|].
      rewrite Forall_forall in Fe, Fl. apply Forall_forall.
      intros x Hx. split; [by apply Fe | by apply Fl].
    + destruct Oe as [->|Oe]; [by left | by right].
    + destruct Ol as [->|Ol]; [by left | by right].
Qed.

Definition separator_free_file_source : list byte :=
  match encode [mkRecording Operation_Enter 1 0 0 "a::b"] with
  | Ok f => f
  | Raise _ => []
  end.

(** X21.  What the reader returns is stable: a log that the writer
    accepts is read back as a log that the writer accepts too, and
    writing and reading that one again gives it back unchanged. *)
Theorem X21_second_round_trip_is_exact datas file :
  encode datas = Ok file ->
  exists again file',
    decode file = Ok (Binary again)
    /\ encode again = Ok file'
    /\ decode file' = Ok (Binary again).
Proof.
  intros E. exists (map read_back_rec datas).
  pose proof (encode_valid datas file E) as Hv.
  assert (forall l : list byte,
            String.length (String.string_of_list_byte l) = length l) as Hlen.
  { intros l. rewrite <- length_list_byte_of_string.
    by rewrite String.list_byte_of_string_of_list_byte. }
  assert (forall bs : list byte, (length (replace_sep bs) <= length bs)%nat) as Hshrink.
  { intros bs. remember (length bs) as n eqn:Hn. revert bs Hn.
    induction (lt_wf n) as [n _ IH]. intros bs ->.
    destruct bs as [|b1 [|b2 r]]; [done | done |].
    rewrite replace_sep_cons2.
    destruct (Byte.eqb b1 colon && Byte.eqb b2 colon).
    - assert (length (replace_sep r) <= length r)%nat
        by (eapply IH; [|reflexivity]; simpl; lia).
      simpl. lia.
    - assert (length (replace_sep (b2 :: r)) <= length (b2 :: r))%nat
        by (eapply IH; [|reflexivity]; simpl; lia).
      simpl in *. lia. }
  assert (forall d, valid_recording d = true ->
            valid_recording (read_back_rec d) = true
            /\ no_sep (read_back_rec d) = true) as Hrec.
  { intros d Hd. unfold valid_recording in Hd.
    repeat (apply andb_true_iff in Hd as [Hd ?]).
    unfold no_sep, valid_recording, read_back_rec, read_back.
    cbn [operation rec_thread frameId timestamp rec_name].
    rewrite String.list_byte_of_string_of_list_byte, replace_sep_clean.
    split; [|done].
    repeat (apply andb_true_iff; split); try done.
    - rewrite Hlen.
      pose proof (Hshrink (String.list_byte_of_string (rec_name d))) as Hs.
      rewrite length_list_byte_of_string in Hs.
      apply Z.ltb_lt. match goal with H : (_ <? 2 ^ 16)%Z = true |- _ =>
        apply Z.ltb_lt in H end. lia.
    - by apply replace_sep_ascii. }
  assert (valid_log (map read_back_rec datas) = true
          /\ forallb no_sep (map read_back_rec datas) = true) as [Hv' Hs'].
  { unfold valid_log in *. apply andb_true_iff in Hv as [Hall Hcount].
    rewrite length_map, Hcount, andb_true_r.
    clear -Hall Hrec. induction datas as [|d ds IH]; [done|].
    simpl in Hall. apply andb_true_iff in Hall as [Hd Hds].
    destruct (Hrec d Hd) as [H1 H2]. destruct (IH Hds) as [H3 H4].
    simpl. by rewrite H1, H2, H3, H4. }
  destruct (encode_ok _ Hv') as [file' E'].
  exists file'. split; [by apply decode_encode|]. split; [exact E'|].
  rewrite (decode_encode _ _ E'). do 2 f_equal.
  clear -Hs'. induction (map read_back_rec datas) as [|d ds IH]; [done|].
  simpl in Hs'. apply andb_true_iff in Hs' as [Hd Hds].
  simpl. by rewrite read_back_rec_id, IH.
Qed.

Lemma X21_witness :
  encode [mkRecording Operation_Enter 1 0 0 "a::b"] = Ok separator_free_file_source
  /\ exists again file',
       decode separator_free_file_source = Ok (Binary again)
       /\ encode again = Ok file'
       /\ decode file' = Ok (Binary again).
Proof.
  assert (encode [mkRecording Operation_Enter 1 0 0 "a::b"]
          = Ok separator_free_file_source) as H by reflexivity.
  split; [exact H|].
  exact (X21_second_round_trip_is_exact _ _ H).
Defined.

Import Annotations.

(** X22.  The second loop of [PrintPerfReport], run after the first
    without a minimum frame time.  With annotations and no completed
    event at all it raises [ValueError].  With completed events, an
    annotation whose frame has no completed event makes it raise
    [KeyError].  When the frame of every annotation has a completed
    event it returns, leaves the events and the bounds of the frames as
    the first loop left them, and files under each frame the annotations
    of that frame, in order, with their timestamps counted from the
    earliest start of the frame. *)
Theorem X22_annotations_need_events_in_their_frame queue anns :
  (queue = [] -> anns <> [] ->
   PrintPerfReport_collect None queue anns = Failed ValueError)
  /\ (queue <> [] ->
      Exists (fun a => filter (in_frame (an_frame a)) queue = []) anns ->
      PrintPerfReport_collect None queue anns = Failed (Builtin KeyError))
  /\ (Forall (fun a => filter (in_frame (an_frame a)) queue <> []) anns ->
      exists fs fs',
        PrintPerfReport_frames None queue = Ok fs
        /\ PrintPerfReport_collect None queue anns = Done fs'
        /\ elementsByFrame fs' = elementsByFrame fs
        /\ earliestByFrame fs' = earliestByFrame fs
        /\ latestByFrame fs' = latestByFrame fs
        /\ forall f e,
             earliestByFrame fs !! f = Some e ->
             annotationsByFrame fs' !! f
             = Some (map (since e) (filter (noted_in f) anns))).
Proof.
  destruct (frames_keyed queue) as (fs & E & Hk & He & Ha).
  unfold PrintPerfReport_collect. rewrite E.
  split; [|split].
  - intros -> Hne. injection E as <-.
    destruct anns as [|a anns]; [done|]. cbn [annotate_all]. unfold annotate.
    cbn [no_frames earliestByFrame].
    by destruct (decide ((∅ : gmap (option Z) Q) = ∅)).
  - intros Hq Hex. apply annotate_all_missing; [exact Hk | |].
    + destruct queue as [|ev queue]; [done|]. intros H0.
      assert (earliestByFrame fs !! ce_frame ev = None) as Hn
        by (rewrite H0; apply lookup_empty).
      apply He in Hn. rewrite filter_cons_True in Hn by done. discriminate.
    + eapply Exists_impl; [exact Hex|]. intros a Hf. by apply He.
  - intros Hall.
    destruct (annotate_all_done anns fs Hk) as (fs' & E' & H1 & H2 & H3 & _ & H5).
    { eapply Forall_impl; [exact Hall|]. intros a Hf Hn. by apply He in Hn. }
    exists fs, fs'. repeat split; try done.
    intros f e Hfe. rewrite H5, Hfe.
    destruct (Ha f) as [Hn|Hs].
    + apply Hk in Hn. congruence.
    + by rewrite Hs.
Qed.

Definition one_frame_queue : list Completed :=
  [mkCompleted "A" 2 2 1 (Some 0%Z) 10 12].

Lemma X22_witness :
  Forall (fun a => filter (in_frame (an_frame a)) one_frame_queue <> [])
         [mkAnnotation "n" 1 (Some 0%Z) 11]
  /\ exists fs',
       PrintPerfReport_collect None one_frame_queue [mkAnnotation "n" 1 (Some 0%Z) 11]
       = Done fs'
       /\ annotationsByFrame fs' !! Some 0%Z
          = Some [mkAnnotation "n" 1 (Some 0%Z) (11 - 10)].
Proof.
  assert (Forall (fun a => filter (in_frame (an_frame a)) one_frame_queue <> [])
                 [mkAnnotation "n" 1 (Some 0%Z) 11]) as H
    by (constructor; [vm_compute; discriminate | constructor]).
  split; [exact H|].
  destruct (proj2 (proj2 (X22_annotations_need_events_in_their_frame
                            one_frame_queue [mkAnnotation "n" 1 (Some 0%Z) 11])) H)
    as (fs & fs' & E & E' & _ & _ & _ & Hann).
  exists fs'. split; [exact E'|].
  assert (earliestByFrame fs !! Some 0%Z = Some 10) as He.
  { vm_compute in E. injection E as <-. reflexivity. }
  rewrite (Hann _ _ He). reflexivity.
Defined.

End Further.
